(** * LRC video scripter: segment timeline, text library and LRC codec

    A shallow embedding of the editing core of the application component
    [App] (segment split and merge, text-block deletion, LRC export and
    LRC import), followed by theorems about it.

    Modelling conventions.
    - A JavaScript [number] is the rational ([Q]) it holds.  Comparisons,
      [Math.floor], [Math.max], [Math.min], [Math.abs], [%] and
      [toFixed] are exact, as they are on doubles; a decimal numeral read
      by [parseInt] or [parseFloat], a numeric literal, and the result of
      [+], [-] and [*] are rounded to the nearest double ([Num.double]:
      53 bits, ties to even, with the subnormal range; no number is
      large enough to become [Infinity]).  The quotient [seconds / 60]
      of the time formats, of which only the floor is used, is taken
      exactly.  [Num.double] returns reduced fractions, so that equal
      times are equal terms.
    - A JavaScript [string] is the [string] of the bytes of its UTF-8
      encoding; its length is used for strings of digits and in
      comparisons with 0 only.
    - [string | null] is [option string]; JavaScript truthiness of such a
      value ([Some] of a non-empty string) is [truthy].
    - React state is the record [AppState]; a handler is a function from
      state to state.  [crypto.randomUUID()] is an input of the handlers
      that call it.
    - An array index is a [nat]. *)

From Stdlib Require Import List String Ascii Bool Arith NArith ZArith QArith Qround Qabs
  Qpower.
From Stdlib Require Import Sorted Lia Lqa.
Import ListNotations.

Local Open Scope string_scope.
Local Open Scope list_scope.

(** ** JavaScript primitives *)

Module JS.

(** Truthiness of a [string]. *)
Definition str_truthy (s : string) : bool :=
  match s with
  | EmptyString => false
  | String _ _ => true
  end.

(** Truthiness of a [string | null]. *)
Definition truthy (v : option string) : bool :=
  match v with
  | Some s => str_truthy s
  | None => false
  end.

(** [a || b] on [string | null]. *)
Definition or_else (a b : option string) : option string :=
  if truthy a then a else b.

(** [x < y] on numbers. *)
Definition Qlt_bool (x y : Q) : bool := negb (Qle_bool y x).

(** [Array.prototype.findIndex]; [None] stands for [-1]. *)
Fixpoint findIndex {A : Type} (p : A -> bool) (l : list A) : option nat :=
  match l with
  | [] => None
  | x :: r =>
      if p x then Some 0%nat
      else match findIndex p r with
           | Some i => Some (S i)
           | None => None
           end
  end.

(** [arr.splice(start, deleteCount, ...items)] on a copy of [arr],
    returning the modified copy. *)
Definition splice {A : Type} (start deleteCount : nat) (items l : list A)
  : list A :=
  firstn start l ++ items ++ skipn (start + deleteCount) l.

End JS.

(** ** Data model *)

Module TextBlock.
Record t : Type := mk { id : string; text : string }.
End TextBlock.

Module VideoSegment.
Record t : Type := mk {
  id : string;
  startTime : Q;
  endTime : Q;
  textId : option string
}.

(** [{ ...s, endTime: e }] *)
Definition with_endTime (s : t) (e : Q) : t :=
  mk (id s) (startTime s) e (textId s).

(** [{ ...s, textId: x }] *)
Definition with_textId (s : t) (x : option string) : t :=
  mk (id s) (startTime s) (endTime s) x.
End VideoSegment.

(** The part of the component state that the editing core reads or
    writes. *)
Record AppState : Type := mkApp {
  duration : Q;
  currentTime : Q;
  textBlocks : list TextBlock.t;
  segments : list VideoSegment.t;
  lrcDuration : Q;
  importingLrc : bool
}.

Definition setSegments (f : list VideoSegment.t -> list VideoSegment.t)
  (st : AppState) : AppState :=
  mkApp (duration st) (currentTime st) (textBlocks st) (f (segments st))
        (lrcDuration st) (importingLrc st).

Definition setTextBlocks (f : list TextBlock.t -> list TextBlock.t)
  (st : AppState) : AppState :=
  mkApp (duration st) (currentTime st) (f (textBlocks st)) (segments st)
        (lrcDuration st) (importingLrc st).

Definition setDuration (d : Q) (st : AppState) : AppState :=
  mkApp d (currentTime st) (textBlocks st) (segments st)
        (lrcDuration st) (importingLrc st).

Definition setCurrentTime (t : Q) (st : AppState) : AppState :=
  mkApp (duration st) t (textBlocks st) (segments st)
        (lrcDuration st) (importingLrc st).

Definition setLrcDuration (d : Q) (st : AppState) : AppState :=
  mkApp (duration st) (currentTime st) (textBlocks st) (segments st)
        d (importingLrc st).

Definition setImportingLrc (b : bool) (st : AppState) : AppState :=
  mkApp (duration st) (currentTime st) (textBlocks st) (segments st)
        (lrcDuration st) b.

(** ** Segment logic *)

(** [handleLoadedMetadata]: [d] is the duration reported by the video
    element, [uuid] the result of [crypto.randomUUID()]. *)
Definition handleLoadedMetadata (d : Q) (uuid : string) (st : AppState)
  : AppState :=
  setSegments (fun _ => [VideoSegment.mk uuid 0 d None]) (setDuration d st).

(** The test of [findIndex] in [splitSegment]:
    [time > s.startTime && time < s.endTime]. *)
Definition split_here (time : Q) (s : VideoSegment.t) : bool :=
  JS.Qlt_bool (VideoSegment.startTime s) time
  && JS.Qlt_bool time (VideoSegment.endTime s).

(** The updater passed to [setSegments] by [splitSegment]. *)
Definition splitSegment_update (time : Q) (uuid : string)
  (prev : list VideoSegment.t) : list VideoSegment.t :=
  match JS.findIndex (split_here time) prev with
  | None => prev
  | Some index =>
      match nth_error prev index with
      | None => prev
      | Some target =>
          let segA := VideoSegment.with_endTime target time in
          let segB :=
            VideoSegment.mk uuid time (VideoSegment.endTime target) None in
          JS.splice index 1 [segA; segB] prev
      end
  end.

Definition splitSegment (uuid : string) (st : AppState) : AppState :=
  setSegments (splitSegment_update (currentTime st) uuid) st.

(** The updater passed to [setSegments] by [mergeSegments]. *)
Definition mergeSegments_update (segmentIndex : nat)
  (prev : list VideoSegment.t) : list VideoSegment.t :=
  match nth_error prev segmentIndex, nth_error prev (segmentIndex + 1) with
  | Some current, Some next =>
      JS.splice segmentIndex 2
        [VideoSegment.mk (VideoSegment.id current)
           (VideoSegment.startTime current)
           (VideoSegment.endTime next)
           (JS.or_else (VideoSegment.textId current)
                       (VideoSegment.textId next))]
        prev
  | _, _ => prev
  end.

(** [mergeSegments]: the guard reads [segments.length] and returns
    before any update when there is no successor. *)
Definition mergeSegments (segmentIndex : nat) (st : AppState) : AppState :=
  if (Z.of_nat (List.length (segments st)) - 1 <=? Z.of_nat segmentIndex)%Z
  then st
  else setSegments (mergeSegments_update segmentIndex) st.

(** [updateSegmentText] *)
Definition updateSegmentText (segmentId : string) (textId : option string)
  (st : AppState) : AppState :=
  setSegments
    (map (fun s =>
            if (VideoSegment.id s =? segmentId)%string
            then VideoSegment.with_textId s textId
            else s)) st.

(** ** Text-block logic *)

(** [s.textId === id] for a [string | null] against a [string]. *)
Definition textId_is (x : option string) (id : string) : bool :=
  match x with
  | Some y => (y =? id)%string
  | None => false
  end.

(** [deleteTextBlock] *)
Definition deleteTextBlock (id : string) (st : AppState) : AppState :=
  setSegments
    (map (fun s =>
            if textId_is (VideoSegment.textId s) id
            then VideoSegment.with_textId s None
            else s))
    (setTextBlocks
       (filter (fun b => negb (TextBlock.id b =? id)%string)) st).

(** ** String and number primitives used by the LRC codec *)

Module Str.

Definition nl : ascii := "010"%char.

(** A character given by the bytes of its UTF-8 encoding. *)
Definition utf8 (bytes : list nat) : string :=
  fold_right (fun b s => String (ascii_of_nat b) s) EmptyString bytes.

(** The characters that [String.prototype.trim] removes: the white
    space and the line terminators of ECMAScript. *)
Definition white_space : list string :=
  map utf8
    ([ [9]; [10]; [11]; [12]; [13]; [32];       (* U+0009 to U+000D, U+0020 *)
      [194; 160];                               (* U+00A0 *)
      [225; 154; 128];                          (* U+1680 *)
      [226; 128; 128]; [226; 128; 129]; [226; 128; 130]; [226; 128; 131];
      [226; 128; 132]; [226; 128; 133]; [226; 128; 134]; [226; 128; 135];
      [226; 128; 136]; [226; 128; 137]; [226; 128; 138];
                                                (* U+2000 to U+200A *)
      [226; 128; 168]; [226; 128; 169];         (* U+2028, U+2029 *)
      [226; 128; 175];                          (* U+202F *)
      [226; 129; 159];                          (* U+205F *)
      [227; 128; 128];                          (* U+3000 *)
      [239; 187; 191] ]%nat).                   (* U+FEFF *)

Definition is_white_space (w : string) : bool :=
  existsb (String.eqb w) white_space.

(** [\d] *)
Definition is_digit (c : ascii) : bool :=
  let n := nat_of_ascii c in
  ((48 <=? n) && (n <=? 57))%nat.

(** [s.trimStart()]: white-space characters of one, two or three bytes
    are taken from the start as long as there is one. *)
Fixpoint trimStart (s : string) : string :=
  match s with
  | EmptyString => EmptyString
  | String a r1 =>
      if is_white_space (String a EmptyString) then trimStart r1
      else
        match r1 with
        | EmptyString => s
        | String b r2 =>
            if is_white_space (String a (String b EmptyString))
            then trimStart r2
            else
              match r2 with
              | EmptyString => s
              | String c r3 =>
                  if is_white_space
                       (String a (String b (String c EmptyString)))
                  then trimStart r3
                  else s
              end
        end
  end.

(** [s.trimEnd()]: once the rest is trimmed, the string ends with a
    white-space character only if it is one. *)
Fixpoint trimEnd (s : string) : string :=
  match s with
  | EmptyString => EmptyString
  | String c r =>
      let r' := trimEnd r in
      if is_white_space (String c r') then EmptyString else String c r'
  end.

(** [s.trim()] *)
Definition trim (s : string) : string := trimEnd (trimStart s).

(** [s.split('\n')] *)
Fixpoint split_nl (s : string) : list string :=
  match s with
  | EmptyString => [EmptyString]
  | String c r =>
      if Ascii.eqb c nl then EmptyString :: split_nl r
      else match split_nl r with
           | h :: t => String c h :: t
           | [] => [String c EmptyString]
           end
  end.

(** [s.padStart(n, c)] for a one-character pad string. *)
Fixpoint repeat_char (c : ascii) (n : nat) : string :=
  match n with
  | O => EmptyString
  | S k => String c (repeat_char c k)
  end.

Definition padStart (n : nat) (c : ascii) (s : string) : string :=
  (repeat_char c (n - String.length s) ++ s)%string.

(** The longest prefix of digits, and the rest. *)
Fixpoint span_digits (s : string) : string * string :=
  match s with
  | EmptyString => (EmptyString, EmptyString)
  | String c r =>
      if is_digit c
      then let (d, rest) := span_digits r in (String c d, rest)
      else (EmptyString, s)
  end.

Definition digit_val (c : ascii) : N := N.of_nat (nat_of_ascii c - 48).

Definition digit_char (d : N) : ascii := ascii_of_N (48 + d).

(** Value of a string of decimal digits, most significant first. *)
Fixpoint digits_val_from (acc : N) (s : string) : N :=
  match s with
  | EmptyString => acc
  | String c r => digits_val_from (10 * acc + digit_val c) r
  end.

Definition digits_val (s : string) : N := digits_val_from 0 s.

(** Decimal digits of a natural number, most significant first, without
    leading zeros ([0] prints as one digit). *)
Fixpoint digits_aux (fuel : nat) (n : N) (acc : string) : string :=
  match fuel with
  | O => acc
  | S f =>
      let acc' := String (digit_char (n mod 10)) acc in
      if (n / 10 =? 0)%N then acc' else digits_aux f (n / 10) acc'
  end.

Definition N_toString (n : N) : string :=
  digits_aux (S (N.size_nat n)) n EmptyString.

(** [Number.prototype.toString] on an integer value. *)
Definition Z_toString (z : Z) : string :=
  if (z <? 0)%Z then String "-" (N_toString (Z.abs_N z))
  else N_toString (Z.to_N z).

End Str.

Module Num.

(** [Math.floor] *)
Definition floor (x : Q) : Z := Qfloor x.

(** [Math.max] of two numbers. *)
Definition max (x y : Q) : Q := if Qle_bool x y then y else x.

(** [Math.abs] *)
Definition abs (x : Q) : Q := Qabs x.

(** Integer part, rounding toward zero. *)
Definition trunc (x : Q) : Z := Z.quot (Qnum x) (Zpos (Qden x)).

(** [x % y]: the remainder has the sign of the dividend. *)
Definition rem (x y : Q) : Q := x - y * inject_Z (trunc (x / y)).

(** The digits of [toFixed]: the decimal digits of [n], padded with
    zeros to more than [f] digits, with a point before the last [f]. *)
Definition toFixed_digits (f : nat) (n : N) : string :=
  let m := Str.N_toString n in
  match f with
  | O => m
  | S _ =>
      let k := String.length m in
      let padded :=
        if (k <=? f)%nat
        then (Str.repeat_char "0" (f + 1 - k) ++ m)%string else m in
      let k' := String.length padded in
      (substring 0 (k' - f) padded ++ "." ++ substring (k' - f) f padded)%string
  end.

(** [x.toFixed(f)], after the ECMAScript algorithm: [n] is the integer
    nearest to [|x| * 10^f], the larger one on a tie. *)
Definition toFixed (f : nat) (x : Q) : string :=
  let neg := JS.Qlt_bool x 0 in
  let a := Qabs x in
  let n := Z.to_N (Qfloor (a * inject_Z (10 ^ Z.of_nat f) + (1 # 2))) in
  if neg then String "-" (toFixed_digits f n) else toFixed_digits f n.

(** The integer nearest to the fraction [n / d] (for [0 <= n] and
    [0 < d]), the even one on a tie. *)
Definition nearest_even (n d : Z) : Z :=
  let q := (n / d)%Z in
  match (2 * (n mod d) ?= d)%Z with
  | Lt => q
  | Gt => (q + 1)%Z
  | Eq => if Z.even q then q else (q + 1)%Z
  end.

(** [2 ^ e] for an integer [e]. *)
Definition pow2 (e : Z) : Q :=
  match e with
  | Zneg p => 1 # (2 ^ p)
  | _ => inject_Z (2 ^ e)
  end.

(** The exponent of the doubles around the fraction [n / d] (for
    [0 < n] and [0 < d]): they are the multiples of [2 ^ e], where [e]
    is [floor (log2 (n / d)) - 52], and -1074 in the subnormal range. *)
Definition exponent (n d : Z) : Z :=
  let k := (Z.log2 n - Z.log2 d)%Z in
  let reaches :=
    if (0 <=? k)%Z then (d * 2 ^ k <=? n)%Z else (d <=? n * 2 ^ (- k))%Z in
  Z.max ((if reaches then k else k - 1) - 52) (-1074).

(** The double nearest to a rational, the one with the even significand
    on a tie: the value of a numeral and of the result of an arithmetic
    operation.  The significand is the integer nearest to
    [n / d / 2 ^ e]. *)
Definition significand (n d e : Z) : Z :=
  if (0 <=? e)%Z then nearest_even n (d * 2 ^ e)
  else nearest_even (n * 2 ^ (- e)) d.

Definition double (x : Q) : Q :=
  let r := Qred x in
  let n := Z.abs (Qnum r) in
  let d := Zpos (Qden r) in
  if (n =? 0)%Z then 0
  else
    let e := exponent n d in
    Qred (inject_Z (Z.sgn (Qnum r) * significand n d e) * pow2 e).

(** [x + y], [x - y] and [x * y] on doubles. *)
Definition add (x y : Q) : Q := double (x + y).
Definition sub (x y : Q) : Q := double (x - y).
Definition mul (x y : Q) : Q := double (x * y).

(** [parseInt] on a string of digits. *)
Definition parseInt (s : string) : Q :=
  double (inject_Z (Z.of_N (Str.digits_val s))).

(** [parseFloat] on [digits] or [digits.digits], given as the integer
    digits and the optional fraction digits. *)
Definition parseFloat (int_digits : string) (frac_digits : option string) : Q :=
  match frac_digits with
  | None => double (inject_Z (Z.of_N (Str.digits_val int_digits)))
  | Some fd =>
      double
        (inject_Z (Z.of_N (Str.digits_val int_digits))
         + (Z.of_N (Str.digits_val fd)
            # Pos.pow 10 (Pos.of_nat (String.length fd))))
  end.

End Num.

(** ** LRC import *)

Module Entry.
Record t : Type := mk { time : Q; text : string }.
End Entry.

Module Lrc.

(** One match of the pattern [\[(\d+):(\d+(\.\d+)?)\]]: group 1, the
    integer and fraction digits of group 2, and the length of the whole
    match. *)
Record tag : Type := mkTag {
  minutes_digits : string;
  seconds_int : string;
  seconds_frac : option string;
  tag_length : nat
}.

(** One fixed character of the pattern. *)
Definition expect (c : ascii) (s : string) : option string :=
  match s with
  | String x r => if Ascii.eqb x c then Some r else None
  | EmptyString => None
  end.

Definition is_empty (s : string) : bool :=
  match s with
  | EmptyString => true
  | String _ _ => false
  end.

(** Match the pattern at the start of [s].  Each [\d+] is followed in
    the pattern by a character that is not a digit, so the greedy run of
    digits is the only way to match and no backtracking is needed. *)
Definition match_tag (s : string) : option tag :=
  match expect "[" s with
  | None => None
  | Some r0 =>
      let (m, r1) := Str.span_digits r0 in
      if is_empty m then None
      else
        match expect ":" r1 with
        | None => None
        | Some r2 =>
            let (si, r3) := Str.span_digits r2 in
            if is_empty si then None
            else
              match expect "]" r3 with
              | Some _ =>
                  Some (mkTag m si None
                          (3 + String.length m + String.length si))
              | None =>
                  match expect "." r3 with
                  | None => None
                  | Some r4 =>
                      let (sf, r5) := Str.span_digits r4 in
                      if is_empty sf then None
                      else
                        match expect "]" r5 with
                        | Some _ =>
                            Some (mkTag m si (Some sf)
                                    (4 + String.length m + String.length si
                                     + String.length sf))
                        | None => None
                        end
                  end
              end
        end
  end.

(** A line cut into the matches of the pattern (left to right, not
    overlapping, as a global regular expression finds them) and the
    characters between them. *)
Inductive piece : Type :=
| Tag (t : tag)
| Chr (c : ascii).

Fixpoint scan (skip : nat) (s : string) : list piece :=
  match s with
  | EmptyString => []
  | String c r =>
      match skip with
      | S k => scan k r
      | O =>
          match match_tag s with
          | Some t => Tag t :: scan (tag_length t - 1) r
          | None => Chr c :: scan 0 r
          end
      end
  end.

(** [Array.from(line.matchAll(/\[(\d+):(\d+(\.\d+)?)\]/g))] *)
Fixpoint matchAll_pieces (ps : list piece) : list tag :=
  match ps with
  | [] => []
  | Tag t :: r => t :: matchAll_pieces r
  | Chr _ :: r => matchAll_pieces r
  end.

Definition matchAll (line : string) : list tag := matchAll_pieces (scan 0 line).

(** [line.replace(/\[\d+:\d+(\.\d+)?\]/g, '')] *)
Fixpoint replace_pieces (ps : list piece) : string :=
  match ps with
  | [] => EmptyString
  | Tag _ :: r => replace_pieces r
  | Chr c :: r => String c (replace_pieces r)
  end.

Definition strip_tags (line : string) : string := replace_pieces (scan 0 line).

(** [minutes * 60 + seconds] *)
Definition timeInSeconds (t : tag) : Q :=
  Num.add (Num.mul (Num.parseInt (minutes_digits t)) 60)
          (Num.parseFloat (seconds_int t) (seconds_frac t)).

(** The body of [timeMatches.forEach]: the entry of one tag is pushed,
    and [maxTime] raised, when the line has a text or the time is
    greater than 0. *)
Definition push_tag (line : string) (a : list Entry.t * Q) (m : tag)
  : list Entry.t * Q :=
  let t := timeInSeconds m in
  let text := Str.trim (strip_tags line) in
  if (0 <? String.length text)%nat || JS.Qlt_bool 0 t
  then (fst a ++ [Entry.mk t text], Num.max (snd a) t)
  else a.

(** The body of [lines.forEach]: the entries pushed for one line and the
    running [maxTime]. *)
Definition parse_line (acc : list Entry.t * Q) (line : string)
  : list Entry.t * Q :=
  fold_left (push_tag line) (matchAll line) acc.

(** The key [`${entry.time}-${entry.text}`] of the de-duplicating [Map],
    compared as the pair of its two parts. *)
Definition same_key (a b : Entry.t) : bool :=
  Qeq_bool (Entry.time a) (Entry.time b)
  && (Entry.text a =? Entry.text b)%string.

(** [Map.prototype.set]: an existing key keeps its place and takes the
    new value; a new key goes last. *)
Fixpoint map_set (e : Entry.t) (m : list Entry.t) : list Entry.t :=
  match m with
  | [] => [e]
  | x :: r => if same_key e x then e :: r else x :: map_set e r
  end.

(** [Array.from(new Map(entries.map(e => [key, e])).values())] *)
Definition unique (entries : list Entry.t) : list Entry.t :=
  fold_left (fun m e => map_set e m) entries [].

(** [Array.prototype.sort] with the comparator [a.time - b.time]: a
    stable sort, ascending by time. *)
Fixpoint insert_by_time (e : Entry.t) (l : list Entry.t) : list Entry.t :=
  match l with
  | [] => [e]
  | x :: r =>
      if Qle_bool (Entry.time e) (Entry.time x) then e :: l
      else x :: insert_by_time e r
  end.

Fixpoint sort_by_time (l : list Entry.t) : list Entry.t :=
  match l with
  | [] => []
  | e :: r => insert_by_time e (sort_by_time r)
  end.

(** [parseLRCFile]: the pair [(entries, maxTime)]. *)
Definition parseLRCFile (text : string) : list Entry.t * Q :=
  let lines :=
    filter (fun line => JS.str_truthy (Str.trim line)) (Str.split_nl text) in
  let '(entries, maxTime) := fold_left parse_line lines ([], 0) in
  (sort_by_time (unique entries), maxTime).

(** What [handleLrcImport] reports through [alert]. *)
Inductive outcome : Type :=
| EmptyImport
| DurationMismatch (lrc video : Q)
| Imported (timePoints blocks : nat).

(** [entries.filter(e => e.text.length > 0).map(e => ({id: uuid, text}))];
    the [k]-th call of [crypto.randomUUID()] returns [uuid k]. *)
Fixpoint number_blocks (uuid : nat -> string) (k : nat) (l : list Entry.t)
  : list TextBlock.t :=
  match l with
  | [] => []
  | e :: r => TextBlock.mk (uuid k) (Entry.text e) :: number_blocks uuid (S k) r
  end.

Definition newTextBlocks (uuid : nat -> string) (entries : list Entry.t)
  : list TextBlock.t :=
  number_blocks uuid 0
    (filter (fun e => (0 <? String.length (Entry.text e))%nat) entries).

(** [[0, ...timePoints.filter(t => t > 0 && t < duration), duration]] *)
Definition allTimes (duration : Q) (entries : list Entry.t) : list Q :=
  0 :: filter (fun t => JS.Qlt_bool 0 t && JS.Qlt_bool t duration)
         (map Entry.time entries)
    ++ [duration].

(** [entries.find(e => Math.abs(e.time - startTime) < 0.01)] *)
Definition entry_near (entries : list Entry.t) (startTime : Q)
  : option Entry.t :=
  find (fun e =>
          JS.Qlt_bool (Num.abs (Num.sub (Entry.time e) startTime))
                      (Num.double (1 # 100)))
       entries.

(** The [textId] given to the segment starting at [startTime]. *)
Definition segment_textId (entries : list Entry.t)
  (blocks : list TextBlock.t) (startTime : Q) : option string :=
  match entry_near entries startTime with
  | Some entry =>
      if JS.str_truthy (Entry.text entry)
      then JS.or_else
             (option_map TextBlock.id
                (find (fun b => (TextBlock.text b =? Entry.text entry)%string)
                      blocks))
             None
      else None
  | None => None
  end.

(** The loop over consecutive pairs of [allTimes]; [k] counts the calls
    of [crypto.randomUUID()] made so far. *)
Fixpoint build_segments (uuid : nat -> string) (k : nat)
  (entries : list Entry.t) (blocks : list TextBlock.t) (times : list Q)
  : list VideoSegment.t :=
  match times with
  | startTime :: ((endTime :: _) as rest) =>
      VideoSegment.mk (uuid k) startTime endTime
        (segment_textId entries blocks startTime)
      :: build_segments uuid (S k) entries blocks rest
  | _ => []
  end.

Definition newSegments (uuid : nat -> string) (duration : Q)
  (entries : list Entry.t) : list VideoSegment.t :=
  let blocks := newTextBlocks uuid entries in
  build_segments uuid (List.length blocks) entries blocks
    (allTimes duration entries).

(** [handleLrcImport], from the point where the file's text is at
    hand. *)
Definition handleLrcImport (uuid : nat -> string) (text : string)
  (st : AppState) : AppState * outcome :=
  let '(entries, maxTime) := parseLRCFile text in
  if (List.length entries =? 0)%nat then (st, EmptyImport)
  else if JS.Qlt_bool 0 (duration st) && JS.Qlt_bool (duration st) maxTime
  then (st, DurationMismatch maxTime (duration st))
  else
    let st1 := setLrcDuration maxTime st in
    let blocks := newTextBlocks uuid entries in
    let st2 :=
      if JS.Qlt_bool 0 (duration st)
      then setSegments (fun _ => newSegments uuid (duration st) entries) st1
      else st1 in
    (setImportingLrc false (setTextBlocks (fun _ => blocks) st2),
     Imported (List.length entries) (List.length blocks)).

(** ** LRC export *)

(** [formatLrcTime] *)
Definition formatLrcTime (seconds : Q) : string :=
  let m := Num.floor (seconds / 60) in
  let sRem := Num.toFixed 2 (Num.rem seconds 60) in
  ("[" ++ Str.padStart 2 "0" (Str.Z_toString m) ++ ":"
       ++ Str.padStart 5 "0" sRem ++ "]")%string.

(** The text shown for a segment: [block?.text || ''] with
    [block = s.textId ? textBlocks.find(b => b.id === s.textId) : null]. *)
Definition blockText (blocks : list TextBlock.t) (s : VideoSegment.t)
  : string :=
  match VideoSegment.textId s with
  | Some i =>
      if JS.str_truthy i
      then match find (fun b => (TextBlock.id b =? i)%string) blocks with
           | Some b => TextBlock.text b
           | None => EmptyString
           end
      else EmptyString
  | None => EmptyString
  end.

Definition lrcLine (blocks : list TextBlock.t) (s : VideoSegment.t) : string :=
  (formatLrcTime (VideoSegment.startTime s) ++ blockText blocks s)%string.

Definition lrcLines (st : AppState) : list string :=
  map (lrcLine (textBlocks st)) (segments st).

(** [exportLRC]: the content of the downloaded file,
    [lrcLines.join('\n')]. *)
Definition exportLRC (st : AppState) : string :=
  String.concat (String Str.nl EmptyString) (lrcLines st).

End Lrc.

(** The variant of [exportLRC] in the other copy of the component (the
    one without LRC import): segments without a text are filtered
    out. *)
Module EarlierRevision.

Definition lrcLines (st : AppState) : list string :=
  flat_map
    (fun s =>
       match find (fun b => textId_is (VideoSegment.textId s) (TextBlock.id b))
                  (textBlocks st) with
       | Some b =>
           [(Lrc.formatLrcTime (VideoSegment.startTime s)
             ++ TextBlock.text b)%string]
       | None => []
       end)
    (filter (fun s => JS.truthy (VideoSegment.textId s)) (segments st)).

Definition exportLRC (st : AppState) : string :=
  String.concat (String Str.nl EmptyString) (lrcLines st).

End EarlierRevision.

(** ** Timeline operations and the partition invariant *)

(** An operation of the segment timeline.  [Initialize] is the load of
    a video ([handleLoadedMetadata]); [Split] is [splitSegment] with the
    playhead at [atTime]. *)
Inductive op : Type :=
| Initialize (d : Q) (uuid : string)
| Split (atTime : Q) (uuid : string)
| Merge (index : nat).

Definition run_op (st : AppState) (o : op) : AppState :=
  match o with
  | Initialize d uuid => handleLoadedMetadata d uuid st
  | Split atTime uuid => splitSegment uuid (setCurrentTime atTime st)
  | Merge index => mergeSegments index st
  end.

Definition run_ops (ops : list op) (st : AppState) : AppState :=
  fold_left run_op ops st.

(** The precondition of [Initialize]. *)
Definition op_ok (o : op) : Prop :=
  match o with
  | Initialize d _ => 0 < d
  | _ => True
  end.

(** [l] is a chain of non-empty intervals leading from [from] to [to]. *)
Fixpoint chained (from : Q) (l : list VideoSegment.t) (to : Q) : Prop :=
  match l with
  | [] => from = to
  | s :: r =>
      VideoSegment.startTime s = from
      /\ VideoSegment.startTime s < VideoSegment.endTime s
      /\ chained (VideoSegment.endTime s) r to
  end.

Definition sorted_by_startTime (l : list VideoSegment.t) : Prop :=
  forall i j a b,
    (i < j)%nat -> nth_error l i = Some a -> nth_error l j = Some b ->
    VideoSegment.startTime a < VideoSegment.startTime b.

Definition contiguous (l : list VideoSegment.t) : Prop :=
  forall i a b,
    nth_error l i = Some a -> nth_error l (S i) = Some b ->
    VideoSegment.endTime a = VideoSegment.startTime b.

Definition covers (d : Q) (l : list VideoSegment.t) : Prop :=
  exists first last,
    nth_error l 0 = Some first
    /\ nth_error l (List.length l - 1) = Some last
    /\ VideoSegment.startTime first = 0
    /\ VideoSegment.endTime last = d.

Definition nonempty_intervals (l : list VideoSegment.t) : Prop :=
  forall s, In s l -> VideoSegment.startTime s < VideoSegment.endTime s.

(** The partition invariant of the data model: the segments, in order,
    cover [0, d) without gap or overlap. *)
Definition partition_invariant (d : Q) (l : list VideoSegment.t) : Prop :=
  sorted_by_startTime l /\ contiguous l /\ covers d l
  /\ nonempty_intervals l.

(** [t] lies strictly inside [s]. *)
Definition inside (t : Q) (s : VideoSegment.t) : Prop :=
  VideoSegment.startTime s < t /\ t < VideoSegment.endTime s.

(** [t] is one of the boundaries of the segments of [l]. *)
Definition boundary (t : Q) (l : list VideoSegment.t) : Prop :=
  exists s, In s l
    /\ (t == VideoSegment.startTime s \/ t == VideoSegment.endTime s).

(** Every entry pushed so far is at most the running [maxTime]. *)
Definition below_max (acc : list Entry.t * Q) : Prop :=
  forall e, In e (fst acc) -> Entry.time e <= snd acc.

(** [b] is the first block of [blocks] with the text [t]. *)
Definition first_with_text (blocks : list TextBlock.t) (t : string)
  (b : TextBlock.t) : Prop :=
  exists k,
    nth_error blocks k = Some b
    /\ TextBlock.text b = t
    /\ forall j b', (j < k)%nat -> nth_error blocks j = Some b' ->
                    TextBlock.text b' <> t.

(** The time of the entry [e] is within the tolerance of the import of
    the time [t]: the difference, as the subtraction of doubles gives
    it, is less than 0.01 in absolute value. *)
Definition within_tolerance (e : Entry.t) (t : Q) : Prop :=
  Qabs (Num.sub (Entry.time e) t) < Num.double (1 # 100).

(** [e] is the first entry of [entries] within the tolerance of [t]. *)
Definition first_within (entries : list Entry.t) (t : Q) (e : Entry.t)
  : Prop :=
  exists k,
    nth_error entries k = Some e
    /\ within_tolerance e t
    /\ forall j e', (j < k)%nat -> nth_error entries j = Some e' ->
                    ~ within_tolerance e' t.

(** Order of the entries by time, as the sort leaves them. *)
Definition time_le (a b : Entry.t) : Prop := Entry.time a <= Entry.time b.

(** Two entries at different times. *)
Definition time_differs (a b : Entry.t) : Prop :=
  ~ Entry.time a == Entry.time b.

(** The first [k] characters of [s] hold no opening bracket. *)
Fixpoint no_bracket_prefix (k : nat) (s : string) : Prop :=
  match k, s with
  | S k', String c r => c <> "["%char /\ no_bracket_prefix k' r
  | _, _ => True
  end.

(** A string without line feed. *)
Fixpoint no_nl (s : string) : Prop :=
  match s with
  | EmptyString => True
  | String c r => Ascii.eqb c Str.nl = false /\ no_nl r
  end.

(** ** The LRC time stamp as the format describes it *)

Module Format.

Definition two_digits (k : N) : string :=
  String (Str.digit_char (k / 10))
    (String (Str.digit_char (k mod 10)) EmptyString).

(** Minutes: at least two digits, zero-padded; natural width from 10
    on. *)
Definition minutes (m : N) : string :=
  if (m <? 10)%N then String "0" (Str.N_toString m) else Str.N_toString m.

(** Seconds, given in hundredths: two integer digits, a point, two
    fraction digits. *)
Definition seconds (hundredths : N) : string :=
  (two_digits (hundredths / 100) ++ "." ++ two_digits (hundredths mod 100))%string.

(** The hundredths of a second shown for [startTime]: the remainder of
    [startTime] modulo 60, rounded to the nearest hundredth. *)
Definition hundredths (startTime : Q) : N :=
  Z.to_N (Qfloor ((startTime - 60 * inject_Z (Qfloor (startTime / 60))) * 100
                  + (1 # 2))).

Definition seconds_checked (n : nat) : bool :=
  (Str.padStart 5 "0" (Num.toFixed_digits 2 (N.of_nat n))
   =? seconds (N.of_nat n))%string.

End Format.

(** ** Sample data *)

Module Sample.

Definition seg (i : string) (a b : Q) (x : option string) : VideoSegment.t :=
  VideoSegment.mk i a b x.

(** Three segments over a 10 second video, the playhead at 7. *)
Definition timeline : AppState :=
  mkApp 10 7
    [TextBlock.mk "b1" "one"; TextBlock.mk "b2" "two"]
    [seg "s1" 0 4 None; seg "s2" 4 9 (Some "b2"); seg "s3" 9 10 (Some "b1")]
    0 false.

(** Identifiers as a stand-in for [crypto.randomUUID()]: distinct and
    not empty. *)
Definition uuid (k : nat) : string :=
  String "u" (Str.N_toString (N.of_nat k)).

(** The tag and text of the oversized import. *)
Definition late_tag : string := "[00:15.00]hello".

(** The match of the pattern in [late_tag]. *)
Definition late : Lrc.tag := Lrc.mkTag "00" "15" (Some "00") 10.

(** The line of the decode example. *)
Definition two_tags : string := "[00:05.00]Hi[00:08.50]".

(** Two lines with the same time stamp and different texts. *)
Definition same_time : string :=
  ("[00:05.00]A" ++ String Str.nl "[00:05.00]B")%string.

(** Three lines, two of them with the same text, and a third one 4 ms
    before the second of these. *)
Definition near_time : string :=
  ("[00:05.00]A" ++ String Str.nl "[00:08.496]X"
   ++ String Str.nl "[00:08.50]A")%string.

(** Two lines a hundredth of a second apart. *)
Definition hundredth_apart : string :=
  ("[00:05.00]A" ++ String Str.nl "[00:05.01]B")%string.


(** The segment of the encode example. *)
Definition hello_blocks : list TextBlock.t := [TextBlock.mk "t1" "Hello"].
Definition hello_segment : VideoSegment.t := seg "s1" (634 # 10) 90 (Some "t1").

End Sample.

(** ** More of the component: playback position *)

Module Playback.

(** [Math.min] of two numbers. *)
Definition min (x y : Q) : Q := if Qle_bool x y then x else y.

(** [seek]: [mounted] tells whether [videoRef.current] is set. *)
Definition seek (mounted : bool) (time : Q) (st : AppState) : AppState :=
  if mounted && JS.Qlt_bool 0 (duration st)
  then setCurrentTime (Num.max 0 (min time (duration st))) st
  else st.

(** The test of the time line and of the segment list:
    [currentTime >= seg.startTime && currentTime < seg.endTime]. *)
Definition isActive (currentTime : Q) (seg : VideoSegment.t) : bool :=
  Qle_bool (VideoSegment.startTime seg) currentTime
  && JS.Qlt_bool currentTime (VideoSegment.endTime seg).

(** [formatTimeDisplay] *)
Definition formatTimeDisplay (seconds : Q) : string :=
  let m := Num.floor (seconds / 60) in
  let s := Num.floor (Num.rem seconds 60) in
  let ms := Num.floor (Num.mul (Num.rem seconds 1) 100) in
  (Str.padStart 2 "0" (Str.Z_toString m) ++ ":"
   ++ Str.padStart 2 "0" (Str.Z_toString s) ++ "."
   ++ Str.padStart 2 "0" (Str.Z_toString ms))%string.

End Playback.

(** ** More of the component: the text library *)

(** The state of the component around [AppState]: the block being
    edited, the segment under a drag and the name given to the exported
    file. *)
Record Ui : Type := mkUi {
  app : AppState;
  editingBlockId : option string;
  dragOverSegmentId : option string;
  videoFileName : string
}.

Definition onApp (f : AppState -> AppState) (ui : Ui) : Ui :=
  mkUi (f (app ui)) (editingBlockId ui) (dragOverSegmentId ui)
       (videoFileName ui).

Definition setEditingBlockId (x : option string) (ui : Ui) : Ui :=
  mkUi (app ui) x (dragOverSegmentId ui) (videoFileName ui).

Definition setDragOverSegmentId (x : option string) (ui : Ui) : Ui :=
  mkUi (app ui) (editingBlockId ui) x (videoFileName ui).

Definition setVideoFileName (x : string) (ui : Ui) : Ui :=
  mkUi (app ui) (editingBlockId ui) (dragOverSegmentId ui) x.

Module Library.

(** The text of a block added without text. *)
Definition placeholder : string := "新文本行...".

(** [addTextBlock]: [text || placeholder], appended, and put in edit
    mode. *)
Definition addTextBlock (text : string) (uuid : string) (ui : Ui) : Ui :=
  let newBlock :=
    TextBlock.mk uuid (if JS.str_truthy text then text else placeholder) in
  setEditingBlockId (Some (TextBlock.id newBlock))
    (onApp (setTextBlocks (fun prev => prev ++ [newBlock])) ui).

(** [updateTextBlock] *)
Definition updateTextBlock (id text : string) (ui : Ui) : Ui :=
  setEditingBlockId None
    (onApp
       (setTextBlocks
          (map (fun b =>
                  if (TextBlock.id b =? id)%string
                  then TextBlock.mk (TextBlock.id b) text
                  else b))) ui).

(** The updater of [handleTextBlockDrop]: the block at [sourceIndex] is
    taken out and put back at [targetIndex].  Without a block at
    [sourceIndex] the array would get an [undefined] entry: [None]. *)
Definition reorder (sourceIndex targetIndex : nat) (prev : list TextBlock.t)
  : option (list TextBlock.t) :=
  match nth_error prev sourceIndex with
  | Some removed =>
      Some (JS.splice targetIndex 0 [removed]
              (JS.splice sourceIndex 1 [] prev))
  | None => None
  end.

(** [handleTextBlockDrop], from the parsed [sourceIndex] on. *)
Definition handleTextBlockDrop (sourceIndex targetIndex : nat) (st : AppState)
  : option AppState :=
  if (sourceIndex =? targetIndex)%nat then Some st
  else
    match reorder sourceIndex targetIndex (textBlocks st) with
    | Some l => Some (setTextBlocks (fun _ => l) st)
    | None => None
    end.

(** [handleSegmentDrop]: [textBlockId] is what the drag carries under
    that key, the empty string when it carries nothing. *)
Definition handleSegmentDrop (textBlockId segmentId : string) (ui : Ui) : Ui :=
  let ui' := setDragOverSegmentId None ui in
  if JS.str_truthy textBlockId
  then onApp (updateSegmentText segmentId (Some textBlockId)) ui'
  else ui'.

(** [lines.map(line => ({ id: crypto.randomUUID(), text: line }))] *)
Fixpoint blocks_of_lines (uuid : nat -> string) (k : nat) (lines : list string)
  : list TextBlock.t :=
  match lines with
  | [] => []
  | line :: r => TextBlock.mk (uuid k) line :: blocks_of_lines uuid (S k) r
  end.

(** [text.split('\n').map(l => l.trim()).filter(l => l.length > 0)] *)
Definition bulk_lines (text : string) : list string :=
  filter (fun l => (0 <? String.length l)%nat)
         (map Str.trim (Str.split_nl text)).

(** [handleBulkImport], from the text of the form on. *)
Definition handleBulkImport (uuid : nat -> string) (text : string)
  (st : AppState) : AppState :=
  if JS.str_truthy (Str.trim text)
  then setTextBlocks
         (fun prev => prev ++ blocks_of_lines uuid 0 (bulk_lines text)) st
  else st.

End Library.

(** ** More of the component: the name of the exported file *)

Module FileName.

(** Whether the rest of a name can be an extension: not empty, without
    slash and without dot ([[^/.]+$]). *)
Fixpoint plain (s : string) : bool :=
  match s with
  | EmptyString => true
  | String c r =>
      negb (Ascii.eqb c "/") && negb (Ascii.eqb c ".") && plain r
  end.

(** [name.replace(/\.[^/.]+$/, "")]: the first place where a dot is
    followed by an extension up to the end is where the name is cut. *)
Fixpoint stripExtension (name : string) : string :=
  match name with
  | EmptyString => EmptyString
  | String c r =>
      if Ascii.eqb c "." && negb (Lrc.is_empty r) && plain r
      then EmptyString
      else String c (stripExtension r)
  end.

(** [handleVideoUpload], for a chosen file. *)
Definition handleVideoUpload (fileName : string) (ui : Ui) : Ui :=
  onApp (setSegments (fun _ => []))
        (setVideoFileName (stripExtension fileName) ui).

(** The name under which [exportLRC] offers the file. *)
Definition download (ui : Ui) : string :=
  (videoFileName ui ++ ".lrc")%string.

End FileName.

(** ** The editor as a whole *)

From Stdlib Require Import Permutation.

(** The state in which the component starts. *)
Definition initial : Ui :=
  mkUi (mkApp 0 0 [] [] 0 false) None None "字幕导出".

(** What the user can do to the state. *)
Inductive edit : Type :=
| Load (d : Q) (uuid : string)
| Upload (fileName : string)
| Seek (mounted : bool) (time : Q)
| SplitHere (uuid : string)
| MergeAt (index : nat)
| Assign (segmentId : string) (textId : option string)
| DropOn (textBlockId segmentId : string)
| AddText (text uuid : string)
| EditText (id text : string)
| DeleteText (id : string)
| Reorder (sourceIndex targetIndex : nat)
| Bulk (uuid : nat -> string) (text : string)
| ImportLrc (uuid : nat -> string) (text : string).

Definition run_edit (ui : Ui) (e : edit) : option Ui :=
  match e with
  | Load d uuid => Some (onApp (handleLoadedMetadata d uuid) ui)
  | Upload fileName => Some (FileName.handleVideoUpload fileName ui)
  | Seek mounted time => Some (onApp (Playback.seek mounted time) ui)
  | SplitHere uuid => Some (onApp (splitSegment uuid) ui)
  | MergeAt index => Some (onApp (mergeSegments index) ui)
  | Assign segmentId textId =>
      Some (onApp (updateSegmentText segmentId textId) ui)
  | DropOn textBlockId segmentId =>
      Some (Library.handleSegmentDrop textBlockId segmentId ui)
  | AddText text uuid => Some (Library.addTextBlock text uuid ui)
  | EditText id text => Some (Library.updateTextBlock id text ui)
  | DeleteText id => Some (onApp (deleteTextBlock id) ui)
  | Reorder sourceIndex targetIndex =>
      match Library.handleTextBlockDrop sourceIndex targetIndex (app ui) with
      | Some st => Some (onApp (fun _ => st) ui)
      | None => None
      end
  | Bulk uuid text => Some (onApp (Library.handleBulkImport uuid text) ui)
  | ImportLrc uuid text =>
      Some (onApp (fun st => fst (Lrc.handleLrcImport uuid text st)) ui)
  end.

Fixpoint run_edits (ui : Ui) (es : list edit) : option Ui :=
  match es with
  | [] => Some ui
  | e :: r =>
      match run_edit ui e with
      | Some ui' => run_edits ui' r
      | None => None
      end
  end.

(** The identifiers of the library. *)
Definition block_ids (st : AppState) : list string :=
  map TextBlock.id (textBlocks st).

(** What the page guarantees when it offers an edit: a video has a
    positive duration; the select and the drag offer the blocks of the
    library; a block is dragged from a place of the list. *)
Definition edit_ok (ui : Ui) (e : edit) : Prop :=
  match e with
  | Load d _ => 0 < d
  | Assign _ (Some id) => In id (block_ids (app ui))
  | DropOn textBlockId _ =>
      textBlockId = EmptyString \/ In textBlockId (block_ids (app ui))
  | Reorder sourceIndex _ =>
      (sourceIndex < List.length (textBlocks (app ui)))%nat
  | _ => True
  end.

(** A sequence of edits, each one offered by the page in the state it
    meets. *)
Fixpoint admissible (ui : Ui) (es : list edit) : Prop :=
  match es with
  | [] => True
  | e :: r =>
      edit_ok ui e
      /\ forall ui', run_edit ui e = Some ui' -> admissible ui' r
  end.

(** Every text reference of a segment names a block of the library. *)
Definition refs_valid (st : AppState) : Prop :=
  forall s i,
    In s (segments st) -> VideoSegment.textId s = Some i ->
    In i (block_ids st).

(** An import whose surviving entries all have different times. *)
Definition distinct_import (e : edit) : Prop :=
  match e with
  | ImportLrc _ text =>
      ForallOrdPairs time_differs (fst (Lrc.parseLRCFile text))
  | _ => True
  end.

(** A sample session: a video is loaded and cut twice, three lines are
    pasted, one is assigned and edited, the lines are reordered, a
    lyric file is imported, a block is deleted. *)
Definition session : list edit :=
  [ Upload "clip.final.mp4"; Load 10 "s0"; Seek true 4; SplitHere "s1";
    Seek true 12; SplitHere "s2"; Seek true 7; SplitHere "s3";
    Bulk Sample.uuid Sample.near_time; Assign "s1" (Some "u1");
    EditText "u1" "edited"; Reorder 0 2; MergeAt 0; DropOn "u0" "s3";
    AddText EmptyString "n1"; DeleteText "u1";
    ImportLrc (fun k => Sample.uuid (10 + k)) Sample.two_tags;
    DeleteText "u10" ].

(** No segments, or a partition of a positive duration. *)
Definition empty_or_partition (st : AppState) : Prop :=
  segments st = []
  \/ (0 < duration st /\ partition_invariant (duration st) (segments st)).
(** ** White space *)

(** A string of white-space characters only. *)
Inductive all_white : string -> Prop :=
| white_nil : all_white EmptyString
| white_cons (w s : string) :
    In w Str.white_space -> all_white s -> all_white (w ++ s)%string.

(** A string with a white-space character at its start, at its end. *)
Definition starts_white (s : string) : Prop :=
  exists w r, In w Str.white_space /\ s = (w ++ r)%string.

Definition ends_white (s : string) : Prop :=
  exists w r, In w Str.white_space /\ s = (r ++ w)%string.

(** [t] is [l] without the white space around it. *)
Definition trimmed_of (l t : string) : Prop :=
  (exists a b, l = (a ++ t ++ b)%string /\ all_white a /\ all_white b)
  /\ ~ starts_white t /\ ~ ends_white t.

(** A byte that occurs in no white-space character. *)
Definition solid (c : ascii) : Prop :=
  forall w, In w Str.white_space -> ~ In c (list_ascii_of_string w).

(** The texts kept of the lines of a paste: a line of white space only
    is left out, another line is kept without the white space around
    it. *)
Inductive pasted : list string -> list string -> Prop :=
| pasted_nil : pasted [] []
| pasted_blank (l : string) (ls ts : list string) :
    all_white l -> pasted ls ts -> pasted (l :: ls) ts
| pasted_line (l t : string) (ls ts : list string) :
    t <> EmptyString -> trimmed_of l t -> pasted ls ts ->
    pasted (l :: ls) (t :: ts).

(** Three pasted lines: the second one is blank, the third one starts
    with an ideographic space (U+3000) and ends with a no-break space
    (U+00A0). *)
Definition pasted_lines : list string :=
  [ "  first line ";
    String "009" " ";
    (Str.utf8 [227; 128; 128]%nat ++ "second"
     ++ Str.utf8 [194; 160]%nat)%string ].


(** A string of decimal digits. *)
Fixpoint all_digits (s : string) : bool :=
  match s with
  | EmptyString => true
  | String c r => Str.is_digit c && all_digits r
  end.

(** A string without opening bracket: no time tag can start in it. *)
Fixpoint no_bracket (s : string) : bool :=
  match s with
  | EmptyString => true
  | String c r => negb (Ascii.eqb c "[") && no_bracket r
  end.

(** The time that the time stamp exported for [startTime] denotes:
    [startTime] rounded to hundredths of a second. *)
Definition rounded (startTime : Q) : Q :=
  inject_Z (60 * Qfloor (startTime / 60))
  + (Z.of_N (Format.hundredths startTime) # 100).

(** Two entries with different keys of the de-duplicating [Map]. *)
Definition key_differs (a b : Entry.t) : Prop := Lrc.same_key a b = false.

(** What holds of every entry the parser keeps: it has a text or a time
    after 0, its time is not negative, and its text has no white space
    at either end. *)
Definition entry_ok (e : Entry.t) : Prop :=
  (Entry.text e <> EmptyString \/ 0 < Entry.time e)
  /\ 0 <= Entry.time e
  /\ Str.trim (Entry.text e) = Entry.text e.

(** The running [maxTime] is the time of an entry pushed so far, or 0
    when none was pushed. *)
Definition max_attained (acc : list Entry.t * Q) : Prop :=
  (fst acc = [] /\ snd acc = 0)
  \/ exists e, In e (fst acc) /\ Entry.time e = snd acc.

(** * Theorems *)

(** ** Basic facts about the primitives *)

Lemma Qlt_bool_true (x y : Q) : JS.Qlt_bool x y = true <-> x < y.
Proof.
  unfold JS.Qlt_bool. rewrite negb_true_iff.
  split; intro H.
  - apply Qnot_le_lt. intro C. apply Qle_bool_iff in C. congruence.
  - destruct (Qle_bool y x) eqn:E; [|reflexivity].
    apply Qle_bool_iff in E. apply Qle_not_lt in E. contradiction.
Qed.

Lemma Qlt_bool_false (x y : Q) : JS.Qlt_bool x y = false <-> y <= x.
Proof.
  unfold JS.Qlt_bool. rewrite negb_false_iff. apply Qle_bool_iff.
Qed.

Lemma truthy_some (x : string) :
  x <> EmptyString -> JS.truthy (Some x) = true.
Proof. destruct x; simpl; congruence. Qed.

Lemma or_else_present (a b : option string) :
  a <> Some EmptyString ->
  JS.or_else a b = match a with Some x => Some x | None => b end.
Proof.
  unfold JS.or_else. destruct a as [[|c x]|]; simpl; congruence.
Qed.

(** ** Recursive reading of the two updaters *)

Lemma split_here_inside (t : Q) (s : VideoSegment.t) :
  split_here t s = true <-> inside t s.
Proof.
  unfold split_here, inside. rewrite andb_true_iff, !Qlt_bool_true. tauto.
Qed.

Lemma splitSegment_update_cons (t : Q) (u : string) (s : VideoSegment.t)
  (r : list VideoSegment.t) :
  splitSegment_update t u (s :: r)
  = if split_here t s
    then VideoSegment.with_endTime s t
         :: VideoSegment.mk u t (VideoSegment.endTime s) None :: r
    else s :: splitSegment_update t u r.
Proof.
  unfold splitSegment_update. simpl.
  destruct (split_here t s); [reflexivity|].
  destruct (JS.findIndex (split_here t) r) as [i|] eqn:E; [|reflexivity].
  simpl. destruct (nth_error r i); reflexivity.
Qed.

Lemma findIndex_first {A : Type} (p : A -> bool) (l : list A) (i : nat) (x : A) :
  nth_error l i = Some x -> p x = true ->
  (forall j y, (j < i)%nat -> nth_error l j = Some y -> p y = false) ->
  JS.findIndex p l = Some i.
Proof.
  revert i. induction l as [|a l IH]; intros [|i] Hx Hp Hmin; simpl in *;
    try discriminate.
  - injection Hx as ->. rewrite Hp. reflexivity.
  - rewrite (Hmin 0%nat a) by (lia || reflexivity).
    rewrite (IH i Hx Hp); [reflexivity|].
    intros j y Hj Hy. apply (Hmin (S j) y); [lia|exact Hy].
Qed.

Lemma findIndex_none {A : Type} (p : A -> bool) (l : list A) :
  (forall x, In x l -> p x = false) -> JS.findIndex p l = None.
Proof.
  induction l as [|a l IH]; intro H; simpl; [reflexivity|].
  rewrite (H a) by (left; reflexivity).
  rewrite IH; [reflexivity|]. intros x Hx. apply H. right. exact Hx.
Qed.

Lemma mergeSegments_update_zero (a b : VideoSegment.t)
  (r : list VideoSegment.t) :
  mergeSegments_update 0 (a :: b :: r)
  = VideoSegment.mk (VideoSegment.id a) (VideoSegment.startTime a)
      (VideoSegment.endTime b)
      (JS.or_else (VideoSegment.textId a) (VideoSegment.textId b)) :: r.
Proof. reflexivity. Qed.

Lemma mergeSegments_update_succ (i : nat) (a : VideoSegment.t)
  (r : list VideoSegment.t) :
  mergeSegments_update (S i) (a :: r) = a :: mergeSegments_update i r.
Proof.
  unfold mergeSegments_update. simpl.
  destruct (nth_error r i); [|reflexivity].
  destruct (nth_error r (i + 1)); reflexivity.
Qed.

Lemma mergeSegments_update_short (i : nat) (l : list VideoSegment.t) :
  (List.length l <= i + 1)%nat -> mergeSegments_update i l = l.
Proof.
  intro H. unfold mergeSegments_update.
  destruct (nth_error l i); [|reflexivity].
  assert (E : nth_error l (i + 1) = None) by (apply nth_error_None; lia).
  rewrite E. reflexivity.
Qed.

Lemma mergeSegments_guard (i : nat) (st : AppState) :
  mergeSegments i st
  = if (List.length (segments st) <=? i + 1)%nat then st
    else setSegments (mergeSegments_update i) st.
Proof.
  unfold mergeSegments.
  destruct (Z.leb_spec (Z.of_nat (List.length (segments st)) - 1) (Z.of_nat i));
    destruct (Nat.leb_spec (List.length (segments st)) (i + 1));
    try reflexivity; lia.
Qed.

(** ** Chains of segments *)

Lemma chained_range (l : list VideoSegment.t) (from to : Q) (s : VideoSegment.t) :
  chained from l to -> In s l ->
  from <= VideoSegment.startTime s
  /\ VideoSegment.startTime s < VideoSegment.endTime s
  /\ VideoSegment.endTime s <= to.
Proof.
  revert from s. induction l as [|a l IH]; intros from s H Hin; [destruct Hin|].
  destruct H as (Hs & Hlt & Hr).
  assert (Hto : VideoSegment.endTime a <= to).
  { destruct l as [|b l'].
    - simpl in Hr. rewrite Hr. apply Qle_refl.
    - destruct (IH _ b Hr (or_introl eq_refl)) as (H1 & H2 & H3).
      destruct Hr as (Hb & _ & _). lra. }
  destruct Hin as [<-|Hin].
  - rewrite <- Hs. repeat split; [apply Qle_refl|exact Hlt|exact Hto].
  - destruct (IH _ s Hr Hin) as (H1 & H2 & H3). subst from. repeat split; lra.
Qed.

Lemma chained_order (l : list VideoSegment.t) (from to : Q) (i j : nat)
  (a b : VideoSegment.t) :
  chained from l to -> (i < j)%nat ->
  nth_error l i = Some a -> nth_error l j = Some b ->
  VideoSegment.endTime a <= VideoSegment.startTime b.
Proof.
  revert from i j. induction l as [|x l IH]; intros from i j H Hij Ha Hb.
  - destruct i; discriminate.
  - destruct H as (Hs & Hlt & Hr). destruct j as [|j]; [lia|].
    simpl in Hb. destruct i as [|i].
    + injection Ha as ->.
      destruct (chained_range _ _ _ b Hr (nth_error_In _ _ Hb)) as (H1 & _).
      exact H1.
    + simpl in Ha. apply (IH _ i j Hr); [lia|exact Ha|exact Hb].
Qed.

Lemma chained_contiguous (l : list VideoSegment.t) (from to : Q) :
  chained from l to -> contiguous l.
Proof.
  revert from. induction l as [|x l IH]; intros from H i a b Ha Hb.
  - destruct i; discriminate.
  - destruct H as (Hs & Hlt & Hr). destruct i as [|i].
    + injection Ha as ->. destruct l as [|y l']; [discriminate|].
      injection Hb as ->. destruct Hr as (Hy & _). symmetry. exact Hy.
    + apply (IH _ Hr i); assumption.
Qed.

Lemma chained_last (l : list VideoSegment.t) (from to : Q) :
  chained from l to -> l <> [] ->
  exists last, nth_error l (List.length l - 1) = Some last
               /\ VideoSegment.endTime last = to.
Proof.
  revert from. induction l as [|x l IH]; intros from H Hne; [congruence|].
  destruct H as (Hs & Hlt & Hr). destruct l as [|y l'].
  - exists x. split; [reflexivity|exact Hr].
  - destruct (IH _ Hr) as (last & Hn & He); [discriminate|].
    exists last. split; [|exact He].
    simpl in Hn |- *. rewrite Nat.sub_0_r in Hn. exact Hn.
Qed.

Lemma chained_partition (l : list VideoSegment.t) (d : Q) :
  0 < d -> chained 0 l d -> partition_invariant d l.
Proof.
  intros Hd H. repeat split.
  - intros i j a b Hij Ha Hb.
    pose proof (chained_order _ _ _ _ _ _ _ H Hij Ha Hb).
    destruct (chained_range _ _ _ a H (nth_error_In _ _ Ha)) as (_ & H2 & _).
    lra.
  - exact (chained_contiguous _ _ _ H).
  - destruct l as [|x l].
    + simpl in H. rewrite <- H in Hd. exfalso. revert Hd. apply Qlt_irrefl.
    + destruct (chained_last _ _ _ H) as (last & Hn & He); [discriminate|].
      exists x, last. destruct H as (Hs & _). repeat split; assumption.
  - intros s Hs. destruct (chained_range _ _ _ s H Hs) as (_ & H2 & _).
    exact H2.
Qed.

Lemma partition_chained (l : list VideoSegment.t) (d : Q) :
  partition_invariant d l -> chained 0 l d.
Proof.
  intros (_ & Hc & (first & last & Hf & Hl & Hf0 & Hld) & Hne).
  destruct l as [|x l]; [discriminate|].
  injection Hf as <-. rewrite <- Hf0. clear Hf0.
  revert x last d Hl Hld Hc Hne.
  induction l as [|y l IH]; intros x last d Hl Hld Hc Hne.
  - simpl in Hl. injection Hl as <-. simpl.
    repeat split; [apply Hne; left; reflexivity|exact Hld].
  - simpl. split; [reflexivity|]. split; [apply Hne; left; reflexivity|].
    rewrite (Hc 0%nat x y eq_refl eq_refl).
    apply (IH y last d).
    + simpl in Hl |- *. rewrite Nat.sub_0_r in *. exact Hl.
    + exact Hld.
    + intros i a b Ha Hb. apply (Hc (S i) a b); assumption.
    + intros s Hs. apply Hne. right. exact Hs.
Qed.

Lemma chained_split (t : Q) (u : string) (l : list VideoSegment.t) (from to : Q) :
  chained from l to -> chained from (splitSegment_update t u l) to.
Proof.
  revert from. induction l as [|s l IH]; intros from H; [exact H|].
  rewrite splitSegment_update_cons. destruct H as (Hs & Hlt & Hr).
  destruct (split_here t s) eqn:E.
  - apply split_here_inside in E. destruct E as [E1 E2]. simpl.
    repeat split; assumption.
  - simpl. repeat split; try assumption. apply IH. exact Hr.
Qed.

Lemma chained_merge (i : nat) (l : list VideoSegment.t) (from to : Q) :
  chained from l to -> chained from (mergeSegments_update i l) to.
Proof.
  revert l from. induction i as [|i IH]; intros l from H.
  - destruct l as [|a [|b r]]; try exact H.
    rewrite mergeSegments_update_zero.
    destruct H as (Ha & Hlta & Hb & Hltb & Hr). simpl.
    repeat split; try assumption.
    rewrite Hb in Hltb. exact (Qlt_trans _ _ _ Hlta Hltb).
  - destruct l as [|a r]; [exact H|].
    rewrite mergeSegments_update_succ. destruct H as (Ha & Hlt & Hr).
    simpl. repeat split; try assumption. apply IH. exact Hr.
Qed.

(** The invariant carried along a run of operations. *)
Lemma run_op_chained (st : AppState) (o : op) :
  op_ok o ->
  0 < duration st /\ chained 0 (segments st) (duration st) ->
  0 < duration (run_op st o)
  /\ chained 0 (segments (run_op st o)) (duration (run_op st o)).
Proof.
  intros Hok [Hd H]. destruct o as [d u|t u|i]; simpl in *.
  - split; [exact Hok|]. repeat split; assumption.
  - split; [exact Hd|]. apply chained_split. exact H.
  - rewrite mergeSegments_guard.
    destruct (List.length (segments st) <=? i + 1)%nat; simpl.
    + split; assumption.
    + split; [exact Hd|]. apply chained_merge. exact H.
Qed.

(** C1.  Every sequence of Initialize, Split and Merge operations, run
    from a fresh video load of positive duration, leaves a segment list
    that is sorted by start time, whose consecutive segments share their
    boundary, whose first segment starts at 0 and whose last segment
    ends at the duration (and whose segments are all non-empty
    intervals). *)
Theorem partition_invariant_preserved
  (d0 : Q) (uuid0 : string) (st0 : AppState) (ops : list op) :
  0 < d0 ->
  Forall op_ok ops ->
  let st := run_ops ops (handleLoadedMetadata d0 uuid0 st0) in
  partition_invariant (duration st) (segments st).
Proof.
  intros Hd Hops st.
  assert (Inv : 0 < duration st
                /\ chained 0 (segments st) (duration st)).
  { subst st. unfold run_ops.
    assert (Init : 0 < duration (handleLoadedMetadata d0 uuid0 st0)
                   /\ chained 0 (segments (handleLoadedMetadata d0 uuid0 st0))
                        (duration (handleLoadedMetadata d0 uuid0 st0))).
    { simpl. repeat split; assumption. }
    revert Init. generalize (handleLoadedMetadata d0 uuid0 st0).
    induction Hops as [|o ops Ho Hops IH]; intros s Hs; [exact Hs|].
    simpl. apply IH. apply run_op_chained; assumption. }
  destruct Inv as [H1 H2]. apply chained_partition; assumption.
Qed.

Lemma partition_invariant_preserved_witness :
  let ops := [Split 3 "u1"; Split 5 "u2"; Merge 0; Split 3 "u3";
              Initialize 20 "u4"; Split 7 "u5"; Merge 1; Merge 0] in
  let st := run_ops ops (handleLoadedMetadata 10 "u0" Sample.timeline) in
  partition_invariant (duration st) (segments st).
Proof.
  apply (partition_invariant_preserved 10 "u0" Sample.timeline).
  - reflexivity.
  - repeat constructor.
Defined.

(** ** Merge and split *)

Lemma mergeSegments_update_at (i : nat) (l : list VideoSegment.t)
  (cur next : VideoSegment.t) :
  nth_error l i = Some cur -> nth_error l (i + 1) = Some next ->
  mergeSegments_update i l
  = firstn i l
    ++ [VideoSegment.mk (VideoSegment.id cur) (VideoSegment.startTime cur)
          (VideoSegment.endTime next)
          (JS.or_else (VideoSegment.textId cur) (VideoSegment.textId next))]
    ++ skipn (i + 2) l.
Proof.
  intros Hc Hn. unfold mergeSegments_update. rewrite Hc, Hn. reflexivity.
Qed.

(** C4.  When the segment at [index] has a successor, Merge replaces the
    two by one segment from the start of the first to the end of the
    second, which keeps the first one's id and takes the first one's
    text reference if it has one and the successor's otherwise; the
    segments before and after are unchanged, and so is the rest of the
    state.  Without successor, Merge changes nothing.  (Text references
    are identifiers minted by [crypto.randomUUID()] or [null]: never the
    empty string.) *)
Theorem mergeSegments_spec (st : AppState) (index : nat) :
  (forall cur next,
      nth_error (segments st) index = Some cur ->
      nth_error (segments st) (index + 1) = Some next ->
      VideoSegment.textId cur <> Some EmptyString ->
      mergeSegments index st
      = setSegments
          (fun segs =>
             firstn index segs
             ++ [VideoSegment.mk (VideoSegment.id cur)
                   (VideoSegment.startTime cur) (VideoSegment.endTime next)
                   (match VideoSegment.textId cur with
                    | Some x => Some x
                    | None => VideoSegment.textId next
                    end)]
             ++ skipn (index + 2) segs) st)
  /\ ((List.length (segments st) <= index + 1)%nat ->
      mergeSegments index st = st).
Proof.
  split.
  - intros cur next Hc Hn Hid. rewrite mergeSegments_guard.
    assert (Hlen : (index + 1 < List.length (segments st))%nat).
    { apply nth_error_Some. rewrite Hn. discriminate. }
    destruct (Nat.leb_spec (List.length (segments st)) (index + 1)); [lia|].
    unfold setSegments. f_equal.
    rewrite (mergeSegments_update_at _ _ _ _ Hc Hn).
    rewrite (or_else_present _ _ Hid). reflexivity.
  - intro H. rewrite mergeSegments_guard.
    destruct (Nat.leb_spec (List.length (segments st)) (index + 1)); [|lia].
    reflexivity.
Qed.

Lemma mergeSegments_spec_witness :
  mergeSegments 1 Sample.timeline
  = setSegments
      (fun _ => [Sample.seg "s1" 0 4 None; Sample.seg "s2" 4 10 (Some "b2")])
      Sample.timeline
  /\ mergeSegments 0 Sample.timeline
     = setSegments
         (fun _ => [Sample.seg "s1" 0 9 (Some "b2");
                    Sample.seg "s3" 9 10 (Some "b1")])
         Sample.timeline
  /\ mergeSegments 2 Sample.timeline = Sample.timeline.
Proof.
  split; [|split].
  - apply (proj1 (mergeSegments_spec Sample.timeline 1)
             (Sample.seg "s2" 4 9 (Some "b2"))
             (Sample.seg "s3" 9 10 (Some "b1")));
      [reflexivity|reflexivity|discriminate].
  - apply (proj1 (mergeSegments_spec Sample.timeline 0)
             (Sample.seg "s1" 0 4 None)
             (Sample.seg "s2" 4 9 (Some "b2")));
      [reflexivity|reflexivity|discriminate].
  - apply (proj2 (mergeSegments_spec Sample.timeline 2)). simpl. lia.
Defined.

Lemma splitSegment_update_at (t : Q) (u : string) (l : list VideoSegment.t)
  (i : nat) (target : VideoSegment.t) :
  nth_error l i = Some target -> inside t target ->
  (forall j s, (j < i)%nat -> nth_error l j = Some s -> ~ inside t s) ->
  splitSegment_update t u l
  = firstn i l
    ++ [VideoSegment.mk (VideoSegment.id target)
          (VideoSegment.startTime target) t (VideoSegment.textId target);
        VideoSegment.mk u t (VideoSegment.endTime target) None]
    ++ skipn (S i) l.
Proof.
  intros Hn Hin Hmin. unfold splitSegment_update.
  rewrite (findIndex_first (split_here t) l i target Hn).
  - rewrite Hn. unfold JS.splice. rewrite Nat.add_1_r. reflexivity.
  - apply split_here_inside. exact Hin.
  - intros j y Hj Hy. destruct (split_here t y) eqn:E; [|reflexivity].
    apply split_here_inside in E. destruct (Hmin j y Hj Hy E).
Qed.

Lemma splitSegment_update_none (t : Q) (u : string) (l : list VideoSegment.t) :
  (forall s, In s l -> ~ inside t s) -> splitSegment_update t u l = l.
Proof.
  intro H. unfold splitSegment_update. rewrite findIndex_none; [reflexivity|].
  intros s Hs. destruct (split_here t s) eqn:E; [|reflexivity].
  apply split_here_inside in E. destruct (H s Hs E).
Qed.

(** In a partition, a time inside one segment is inside no other. *)
Lemma partition_inside_unique (d t : Q) (l : list VideoSegment.t)
  (i j : nat) (a b : VideoSegment.t) :
  partition_invariant d l ->
  nth_error l i = Some a -> nth_error l j = Some b ->
  inside t a -> inside t b -> i = j.
Proof.
  intros P Ha Hb [A1 A2] [B1 B2]. apply partition_chained in P.
  destruct (Nat.lt_trichotomy i j) as [H|[H|H]]; [|exact H|].
  - pose proof (chained_order _ _ _ _ _ _ _ P H Ha Hb). lra.
  - pose proof (chained_order _ _ _ _ _ _ _ P H Hb Ha). lra.
Qed.

(** In a partition, no segment has a boundary, or a time outside
    (0, d), strictly inside. *)
Lemma partition_boundary_not_inside (d t : Q) (l : list VideoSegment.t) :
  partition_invariant d l ->
  boundary t l \/ t <= 0 \/ d <= t ->
  forall s, In s l -> ~ inside t s.
Proof.
  intros P H s Hs [I1 I2]. apply partition_chained in P.
  destruct (chained_range _ _ _ s P Hs) as (R1 & R2 & R3).
  destruct H as [(b & Hb & Ht)|[H|H]]; [|lra|lra].
  destruct (chained_range _ _ _ b P Hb) as (_ & Rb & _).
  destruct (In_nth_error _ _ Hs) as (i & Hi).
  destruct (In_nth_error _ _ Hb) as (j & Hj).
  destruct (Nat.lt_trichotomy i j) as [L|[L|L]].
  - pose proof (chained_order _ _ _ _ _ _ _ P L Hi Hj). destruct Ht; lra.
  - subst j. rewrite Hi in Hj. injection Hj as <-. destruct Ht; lra.
  - pose proof (chained_order _ _ _ _ _ _ _ P L Hj Hi). destruct Ht; lra.
Qed.

(** C5.  With the playhead at [t]: if [target] is the first segment that
    has [t] strictly inside, Split replaces it by [startTime, t) with
    the same id and text reference and [t, endTime) with a fresh id and
    no text reference, and leaves every other segment and the rest of
    the state unchanged; in a partition every segment that has [t]
    strictly inside is that first one.  If no segment has [t] strictly
    inside, which in a partition is the case whenever [t] is a boundary
    or lies outside (0, duration), Split changes nothing. *)
Theorem splitSegment_spec (st : AppState) (uuid : string) :
  (forall i target,
      nth_error (segments st) i = Some target ->
      inside (currentTime st) target ->
      (forall j s, (j < i)%nat -> nth_error (segments st) j = Some s ->
                   ~ inside (currentTime st) s)
      \/ partition_invariant (duration st) (segments st) ->
      splitSegment uuid st
      = setSegments
          (fun segs =>
             firstn i segs
             ++ [VideoSegment.mk (VideoSegment.id target)
                   (VideoSegment.startTime target) (currentTime st)
                   (VideoSegment.textId target);
                 VideoSegment.mk uuid (currentTime st)
                   (VideoSegment.endTime target) None]
             ++ skipn (S i) segs) st)
  /\ ((forall s, In s (segments st) -> ~ inside (currentTime st) s) ->
      splitSegment uuid st = st)
  /\ (partition_invariant (duration st) (segments st) ->
      boundary (currentTime st) (segments st)
      \/ currentTime st <= 0 \/ duration st <= currentTime st ->
      splitSegment uuid st = st).
Proof.
  assert (None_case :
            (forall s, In s (segments st) -> ~ inside (currentTime st) s) ->
            splitSegment uuid st = st).
  { intro H. unfold splitSegment, setSegments.
    rewrite (splitSegment_update_none _ _ _ H). destruct st; reflexivity. }
  split; [|split].
  - intros i target Hn Hin Hfirst. unfold splitSegment, setSegments. f_equal.
    apply splitSegment_update_at; try assumption.
    destruct Hfirst as [Hfirst|P]; [exact Hfirst|].
    intros j s Hj Hs Hins.
    pose proof (partition_inside_unique _ _ _ _ _ _ _ P Hs Hn Hins Hin). lia.
  - exact None_case.
  - intros P H. apply None_case.
    apply (partition_boundary_not_inside _ _ _ P H).
Qed.

Lemma sample_timeline_partition :
  partition_invariant 10 (segments Sample.timeline).
Proof.
  apply chained_partition; [reflexivity|].
  simpl. repeat split; reflexivity.
Qed.

Lemma splitSegment_spec_witness :
  splitSegment "u" Sample.timeline
  = setSegments
      (fun _ => [Sample.seg "s1" 0 4 None; Sample.seg "s2" 4 7 (Some "b2");
                 Sample.seg "u" 7 9 None; Sample.seg "s3" 9 10 (Some "b1")])
      Sample.timeline
  /\ splitSegment "u" (setCurrentTime 12 Sample.timeline)
     = setCurrentTime 12 Sample.timeline
  /\ splitSegment "u" (setCurrentTime 4 Sample.timeline)
     = setCurrentTime 4 Sample.timeline.
Proof.
  split; [|split].
  - apply (proj1 (splitSegment_spec Sample.timeline "u") 1%nat
             (Sample.seg "s2" 4 9 (Some "b2"))).
    + reflexivity.
    + split; reflexivity.
    + right. exact sample_timeline_partition.
  - apply (proj1 (proj2 (splitSegment_spec
                           (setCurrentTime 12 Sample.timeline) "u"))).
    intros s [<-|[<-|[<-|[]]]] [H1 H2]; vm_compute in H2; discriminate.
  - apply (proj2 (proj2 (splitSegment_spec
                           (setCurrentTime 4 Sample.timeline) "u"))).
    + exact sample_timeline_partition.
    + left. exists (Sample.seg "s2" 4 9 (Some "b2")). split.
      * right. left. reflexivity.
      * left. reflexivity.
Defined.

(** ** Deleting a text block *)

(** What deleting the text block [id] does to one segment. *)
Lemma deleteTextBlock_segment (id : string) (s : VideoSegment.t) :
  let s' := if textId_is (VideoSegment.textId s) id
            then VideoSegment.with_textId s None else s in
  VideoSegment.id s' = VideoSegment.id s
  /\ VideoSegment.startTime s' = VideoSegment.startTime s
  /\ VideoSegment.endTime s' = VideoSegment.endTime s
  /\ (VideoSegment.textId s = Some id -> VideoSegment.textId s' = None)
  /\ (VideoSegment.textId s <> Some id ->
      VideoSegment.textId s' = VideoSegment.textId s).
Proof.
  destruct s as [i a b [x|]]; simpl.
  - destruct (String.eqb_spec x id) as [->|N]; simpl;
      repeat split; congruence.
  - repeat split; congruence.
Qed.

(** C8.  Deleting the text block [id] removes exactly the blocks with
    that id from the library, keeping the others in order; the segment
    list keeps its length, and position by position every segment keeps
    its id, start time and end time, has its text reference cleared if
    it referenced [id] and keeps its text reference otherwise.  Nothing
    else in the state changes. *)
Theorem deleteTextBlock_spec (id : string) (st : AppState) :
  let st' := deleteTextBlock id st in
  textBlocks st'
  = filter (fun b => negb (TextBlock.id b =? id)%string) (textBlocks st)
  /\ (forall b, In b (textBlocks st') <->
                In b (textBlocks st) /\ TextBlock.id b <> id)
  /\ Forall2
       (fun s s' =>
          VideoSegment.id s' = VideoSegment.id s
          /\ VideoSegment.startTime s' = VideoSegment.startTime s
          /\ VideoSegment.endTime s' = VideoSegment.endTime s
          /\ (VideoSegment.textId s = Some id ->
              VideoSegment.textId s' = None)
          /\ (VideoSegment.textId s <> Some id ->
              VideoSegment.textId s' = VideoSegment.textId s))
       (segments st) (segments st')
  /\ List.length (segments st') = List.length (segments st)
  /\ (forall s', In s' (segments st') -> VideoSegment.textId s' <> Some id)
  /\ duration st' = duration st
  /\ currentTime st' = currentTime st
  /\ lrcDuration st' = lrcDuration st
  /\ importingLrc st' = importingLrc st.
Proof.
  simpl. split; [reflexivity|]. split.
  { intro b. rewrite filter_In, negb_true_iff.
    destruct (String.eqb_spec (TextBlock.id b) id); split;
      intros [H1 H2]; (split; [exact H1|congruence]). }
  split.
  { induction (segments st) as [|s l IH]; simpl; constructor; [|exact IH].
    apply deleteTextBlock_segment. }
  split; [apply length_map|].
  split; [|repeat split].
  intros s' Hs'. apply in_map_iff in Hs'. destruct Hs' as (s & <- & _).
  destruct s as [i a b [x|]]; simpl; [|discriminate].
  destruct (String.eqb_spec x id) as [->|N]; simpl; congruence.
Qed.

(** ** LRC export *)

Lemma concat_cons2 (sep x y : string) (r : list string) :
  String.concat sep (x :: y :: r)
  = (x ++ sep ++ String.concat sep (y :: r))%string.
Proof. reflexivity. Qed.


Lemma append_empty_r (s : string) : (s ++ EmptyString)%string = s.
Proof. induction s as [|c s IH]; simpl; [reflexivity|rewrite IH; reflexivity]. Qed.

Lemma append_assoc (a b c : string) :
  ((a ++ b) ++ c)%string = (a ++ (b ++ c))%string.
Proof. induction a as [|x a IH]; simpl; [reflexivity|rewrite IH; reflexivity]. Qed.

Lemma split_nl_no_nl (s : string) : no_nl s -> Str.split_nl s = [s].
Proof.
  induction s as [|c s IH]; simpl; [reflexivity|].
  intros [Hc Hs]. rewrite Hc, (IH Hs). reflexivity.
Qed.

Lemma split_nl_app (s t : string) :
  no_nl s ->
  Str.split_nl (s ++ String Str.nl t) = s :: Str.split_nl t.
Proof.
  induction s as [|c s IH]; simpl; [reflexivity|].
  intros [Hc Hs]. rewrite Hc, (IH Hs). reflexivity.
Qed.

Lemma split_nl_concat (lines : list string) :
  lines <> [] -> Forall no_nl lines ->
  Str.split_nl (String.concat (String Str.nl EmptyString) lines) = lines.
Proof.
  induction lines as [|x [|y r] IH]; intros Hne HF; [congruence| |].
  - simpl. apply split_nl_no_nl. inversion HF; assumption.
  - rewrite concat_cons2. inversion HF as [|? ? Hx HF']; subst.
    change (x ++ String Str.nl EmptyString ++ String.concat (String Str.nl EmptyString) (y :: r))%string
      with (x ++ String Str.nl (String.concat (String Str.nl EmptyString) (y :: r)))%string.
    rewrite (split_nl_app _ _ Hx). f_equal. apply IH; [discriminate|exact HF'].
Qed.

(** ** Strings without line feed *)

Lemma no_nl_app (a b : string) : no_nl (a ++ b) <-> no_nl a /\ no_nl b.
Proof.
  induction a as [|c a IH]; simpl; [tauto|]. rewrite IH. tauto.
Qed.

Lemma is_digit_char (d : N) : (d < 10)%N -> Str.is_digit (Str.digit_char d) = true.
Proof.
  intro H. rewrite <- (N2Nat.id d).
  assert (K : (N.to_nat d < 10)%nat) by lia.
  revert K. generalize (N.to_nat d) as k. intros k K.
  do 10 (destruct k as [|k]; [reflexivity|]). lia.
Qed.

Lemma digits_aux_digits (f : nat) (n : N) (acc : string) :
  all_digits acc = true -> all_digits (Str.digits_aux f n acc) = true.
Proof.
  revert n acc. induction f as [|f IH]; intros n acc H; [exact H|].
  cbn [Str.digits_aux].
  assert (A : all_digits (String (Str.digit_char (n mod 10)) acc) = true).
  { simpl. rewrite H, is_digit_char; [reflexivity|].
    apply N.mod_lt. discriminate. }
  destruct (n / 10 =? 0)%N; [exact A|apply IH; exact A].
Qed.

Lemma N_toString_digits (n : N) : all_digits (Str.N_toString n) = true.
Proof. apply digits_aux_digits. reflexivity. Qed.












(** The other copy of the component exports fewer lines: a segment
    without text gets no line there. *)
Lemma earlier_exportLRC_omits_unassigned :
  List.length (EarlierRevision.lrcLines Sample.timeline) = 2%nat
  /\ List.length (Lrc.lrcLines Sample.timeline) = 3%nat.
Proof. split; reflexivity. Qed.

(** ** Decimal digits *)

Lemma digit_val_char (d : N) : (d < 10)%N -> Str.digit_val (Str.digit_char d) = d.
Proof.
  intro H. unfold Str.digit_val, Str.digit_char.
  rewrite <- (N2Nat.id (48 + d)) at 1.
  assert (E : ascii_of_N (N.of_nat (N.to_nat (48 + d)))
              = ascii_of_nat (N.to_nat (48 + d))) by reflexivity.
  rewrite E, nat_ascii_embedding by lia. lia.
Qed.

Lemma digits_val_from_acc (s : string) (a : N) :
  Str.digits_val_from a s
  = (a * 10 ^ N.of_nat (String.length s) + Str.digits_val_from 0 s)%N.
Proof.
  revert a. induction s as [|c s IH]; intro a; simpl String.length.
  - simpl. rewrite N.mul_1_r, N.add_0_r. reflexivity.
  - cbn [Str.digits_val_from]. rewrite IH, (IH (10 * 0 + Str.digit_val c)%N).
    rewrite Nat2N.inj_succ, N.pow_succ_r'. lia.
Qed.

Lemma digits_aux_val (f : nat) (n : N) (acc : string) :
  (n < 2 ^ N.of_nat f)%N ->
  Str.digits_val (Str.digits_aux f n acc)
  = (n * 10 ^ N.of_nat (String.length acc) + Str.digits_val acc)%N.
Proof.
  revert n acc. induction f as [|f IH]; intros n acc H.
  - simpl in *. assert (n = 0%N) by lia. subst n. reflexivity.
  - cbn [Str.digits_aux].
    assert (Hd : Str.digits_val (String (Str.digit_char (n mod 10)) acc)
                 = ((n mod 10) * 10 ^ N.of_nat (String.length acc)
                    + Str.digits_val acc)%N).
    { unfold Str.digits_val. cbn [Str.digits_val_from].
      rewrite digits_val_from_acc, digit_val_char
        by (apply N.mod_lt; discriminate).
      lia. }
    pose proof (N.div_mod n 10 ltac:(discriminate)) as Hn.
    destruct (N.eqb_spec (n / 10) 0) as [E|E].
    + rewrite Hd. rewrite E in Hn. f_equal. f_equal. lia.
    + rewrite IH.
      * rewrite Hd. simpl String.length.
        rewrite Nat2N.inj_succ, N.pow_succ_r'. lia.
      * rewrite Nat2N.inj_succ, N.pow_succ_r' in H.
        assert (n / 10 <= n / 2)%N.
        { apply N.div_le_compat_l. lia. }
        assert (n / 2 < 2 ^ N.of_nat f)%N.
        { apply N.Div0.div_lt_upper_bound. lia. }
        lia.
Qed.

Lemma size_nat_bound (n : N) : (n < 2 ^ N.of_nat (N.size_nat n))%N.
Proof.
  destruct n as [|p]; [reflexivity|]. simpl N.size_nat.
  induction p as [p IH|p IH|]; simpl Pos.size_nat;
    rewrite ?Nat2N.inj_succ, ?N.pow_succ_r'; lia.
Qed.

(** Reading the printed digits gives the number back. *)
Lemma N_toString_val (n : N) : Str.digits_val (Str.N_toString n) = n.
Proof.
  unfold Str.N_toString. rewrite digits_aux_val.
  - simpl. unfold Str.digits_val. simpl. lia.
  - pose proof (size_nat_bound n). rewrite Nat2N.inj_succ, N.pow_succ_r'. lia.
Qed.

Lemma digits_aux_length (f : nat) (n : N) (acc : string) :
  (String.length acc <= String.length (Str.digits_aux f n acc))%nat.
Proof.
  revert n acc. induction f as [|f IH]; intros n acc; simpl; [lia|].
  destruct (n / 10 =? 0)%N; simpl; [lia|].
  etransitivity; [|apply IH]. simpl. lia.
Qed.

Lemma N_toString_one_digit (n : N) :
  (n < 10)%N -> Str.N_toString n = String (Str.digit_char n) EmptyString.
Proof.
  intro H. rewrite <- (N2Nat.id n).
  assert (K : (N.to_nat n < 10)%nat) by lia.
  revert K. generalize (N.to_nat n) as k. intros k K.
  do 10 (destruct k as [|k]; [reflexivity|]). lia.
Qed.

Lemma N_toString_two_digits (n : N) :
  (10 <= n)%N -> (2 <= String.length (Str.N_toString n))%nat.
Proof.
  intro H. unfold Str.N_toString.
  destruct n as [|p]; [lia|]. simpl N.size_nat.
  assert (S1 : exists k, Pos.size_nat p = S k) by (destruct p; eexists; reflexivity).
  destruct S1 as [k ->]. cbn [Str.digits_aux].
  destruct (N.eqb_spec (N.pos p / 10) 0) as [E|E].
  - exfalso. apply N.div_small_iff in E; [lia|discriminate].
  - destruct (N.pos p / 10 / 10 =? 0)%N; simpl; [lia|].
    etransitivity; [|apply digits_aux_length]. simpl. lia.
Qed.

(** Padding the printed minutes to two places. *)
Lemma padStart_minutes (m : N) :
  Str.padStart 2 "0" (Str.N_toString m) = Format.minutes m.
Proof.
  unfold Format.minutes, Str.padStart.
  destruct (N.ltb_spec m 10) as [H|H].
  - rewrite (N_toString_one_digit m H). reflexivity.
  - pose proof (N_toString_two_digits m H) as L.
    replace (2 - String.length (Str.N_toString m))%nat with 0%nat by lia.
    reflexivity.
Qed.

(** Padding the two-decimal rendering of up to 60 seconds to five
    places, checked over all hundredths. *)
Lemma seconds_checked_all :
  forallb Format.seconds_checked (seq 0 (N.to_nat 6001)) = true.
Proof. vm_compute. reflexivity. Qed.

Lemma padStart_seconds (n : N) :
  (n <= 6000)%N ->
  Str.padStart 5 "0" (Num.toFixed_digits 2 n) = Format.seconds n.
Proof.
  intro H. pose proof seconds_checked_all as A.
  rewrite forallb_forall in A.
  specialize (A (N.to_nat n)). unfold Format.seconds_checked in A.
  rewrite N2Nat.id in A. apply String.eqb_eq. apply A.
  apply in_seq. lia.
Qed.

(** ** The time stamp *)

Lemma trunc_nonneg (q : Q) : 0 <= q -> Num.trunc q = Qfloor q.
Proof.
  destruct q as [n d]. unfold Qle, Num.trunc, Qfloor. simpl. intro H.
  apply Z.quot_div_nonneg; lia.
Qed.

Lemma rem_60_nonneg (x : Q) :
  0 <= x -> Num.rem x 60 = x - 60 * inject_Z (Qfloor (x / 60)).
Proof.
  intro H. unfold Num.rem. rewrite trunc_nonneg; [reflexivity|].
  apply Qle_shift_div_l; [reflexivity|]. lra.
Qed.

Lemma rem_60_range (x : Q) :
  0 <= x ->
  0 <= x - 60 * inject_Z (Qfloor (x / 60))
  /\ x - 60 * inject_Z (Qfloor (x / 60)) < 60.
Proof.
  intro H.
  pose proof (Qfloor_le (x / 60)) as L.
  pose proof (Qlt_floor (x / 60)) as U.
  rewrite inject_Z_plus in U.
  assert (E : x == 60 * (x / 60)) by (field).
  set (m := inject_Z (Qfloor (x / 60))) in *.
  change (inject_Z 1) with 1 in U.
  split; lra.
Qed.

Lemma hundredths_le (x : Q) : 0 <= x -> (Format.hundredths x <= 6000)%N.
Proof.
  intro H. unfold Format.hundredths.
  destruct (rem_60_range x H) as [L U].
  set (r := x - 60 * inject_Z (Qfloor (x / 60))) in *.
  assert (A : (0 <= Qfloor (r * 100 + (1 # 2)))%Z).
  { change 0%Z with (Qfloor 0). apply Qfloor_resp_le. lra. }
  assert (B : (Qfloor (r * 100 + (1 # 2)) <= 6000)%Z).
  { change 6000%Z with (Qfloor (6000 + (1 # 2))). apply Qfloor_resp_le. lra. }
  lia.
Qed.

Lemma toFixed_2_rem (x : Q) :
  0 <= x ->
  Num.toFixed 2 (Num.rem x 60) = Num.toFixed_digits 2 (Format.hundredths x).
Proof.
  intro H. rewrite (rem_60_nonneg x H).
  destruct (rem_60_range x H) as [L U].
  unfold Num.toFixed, Format.hundredths.
  set (r := x - 60 * inject_Z (Qfloor (x / 60))) in *.
  assert (N : JS.Qlt_bool r 0 = false) by (apply Qlt_bool_false; exact L).
  rewrite N.
  assert (E : Qabs r * inject_Z (10 ^ Z.of_nat 2) + (1 # 2)
              == r * 100 + (1 # 2)).
  { rewrite (Qabs_pos r L). reflexivity. }
  rewrite (Qfloor_comp _ _ E). reflexivity.
Qed.

Lemma floor_minutes_nonneg (x : Q) : 0 <= x -> (0 <= Qfloor (x / 60))%Z.
Proof.
  intro H. change 0%Z with (Qfloor 0). apply Qfloor_resp_le.
  apply Qle_shift_div_l; [reflexivity|]. lra.
Qed.

Lemma formatLrcTime_nonneg (x : Q) :
  0 <= x ->
  Lrc.formatLrcTime x
  = ("[" ++ Format.minutes (Z.to_N (Qfloor (x / 60))) ++ ":"
         ++ Format.seconds (Format.hundredths x) ++ "]")%string.
Proof.
  intro H. unfold Lrc.formatLrcTime.
  rewrite (toFixed_2_rem x H), (padStart_seconds _ (hundredths_le x H)).
  unfold Num.floor, Str.Z_toString.
  pose proof (floor_minutes_nonneg x H) as M.
  destruct (Z.ltb_spec (Qfloor (x / 60)) 0) as [C|_]; [lia|].
  rewrite padStart_minutes. reflexivity.
Qed.

(** C9.  For a segment starting at a time that is not negative, the
    exported line is an opening bracket, the minutes, a colon, the
    seconds, a closing bracket and the text.  The minutes are the
    decimal digits of floor(startTime / 60), with one zero in front
    below 10 and at natural width from 10 on (so also from 100 on).  The
    seconds are startTime mod 60 rounded to hundredths, as two integer
    digits, a point and two fraction digits: five characters.  The
    segment from 63.4 to 90 with the text Hello gives [01:03.40]Hello. *)
Theorem lrcLine_format (blocks : list TextBlock.t) (s : VideoSegment.t) :
  0 <= VideoSegment.startTime s ->
  let m := Z.to_N (Qfloor (VideoSegment.startTime s / 60)) in
  let h := Format.hundredths (VideoSegment.startTime s) in
  Lrc.lrcLine blocks s
  = ("[" ++ Format.minutes m ++ ":" ++ Format.seconds h ++ "]"
         ++ Lrc.blockText blocks s)%string
  /\ Str.digits_val (Str.N_toString m) = m
  /\ ((m < 10)%N ->
      Format.minutes m = String "0" (String (Str.digit_char m) EmptyString))
  /\ ((10 <= m)%N ->
      Format.minutes m = Str.N_toString m
      /\ (2 <= String.length (Format.minutes m))%nat)
  /\ (h <= 6000)%N
  /\ String.length (Format.seconds h) = 5%nat
  /\ Lrc.lrcLine Sample.hello_blocks Sample.hello_segment = "[01:03.40]Hello".
Proof.
  intros H m h. split.
  { unfold Lrc.lrcLine. rewrite (formatLrcTime_nonneg _ H).
    fold m h. rewrite !append_assoc. reflexivity. }
  split; [apply N_toString_val|]. split.
  { intro L. unfold Format.minutes.
    destruct (N.ltb_spec m 10); [|lia].
    rewrite (N_toString_one_digit m L). reflexivity. }
  split.
  { intro L. unfold Format.minutes.
    destruct (N.ltb_spec m 10); [lia|].
    split; [reflexivity|apply N_toString_two_digits; exact L]. }
  split; [apply hundredths_le; exact H|].
  split; reflexivity.
Qed.

Lemma lrcLine_format_witness :
  Lrc.lrcLine Sample.hello_blocks Sample.hello_segment
  = ("[" ++ Format.minutes 1 ++ ":" ++ Format.seconds 340 ++ "]"
         ++ "Hello")%string.
Proof.
  apply (proj1 (lrcLine_format Sample.hello_blocks Sample.hello_segment
                  ltac:(discriminate))).
Defined.

(** ** White space and [trim] *)

Lemma is_white_space_In (w : string) :
  Str.is_white_space w = true <-> In w Str.white_space.
Proof.
  unfold Str.is_white_space. rewrite existsb_exists. split.
  - intros (x & Hx & E). apply String.eqb_eq in E. subst x. exact Hx.
  - intro H. exists w. split; [exact H|apply String.eqb_refl].
Qed.

Lemma is_white_space_false (w : string) :
  Str.is_white_space w = false -> ~ In w Str.white_space.
Proof.
  intros E H. apply is_white_space_In in H. congruence.
Qed.

Lemma white_space_bytes (w : string) :
  In w Str.white_space ->
  (exists a, w = String a EmptyString)
  \/ (exists a b, w = String a (String b EmptyString))
  \/ (exists a b c, w = String a (String b (String c EmptyString))).
Proof.
  intro H. cbv in H.
  repeat (destruct H as [<-|H];
          [first [left; eexists; reflexivity
                 |right; left; do 2 eexists; reflexivity
                 |right; right; do 3 eexists; reflexivity]|]).
  destruct H.
Qed.

Lemma white_space_no_nl (w : string) : In w Str.white_space -> w = String Str.nl EmptyString \/ no_nl w.
Proof.
  intro H. cbv in H.
  repeat (destruct H as [<-|H];
          [first [left; reflexivity|right; repeat split]|]).
  destruct H.
Qed.

Lemma trimStart_fixed (s : string) : ~ starts_white s -> Str.trimStart s = s.
Proof.
  intro H.
  assert (N : forall w r, Str.is_white_space w = true -> s <> (w ++ r)%string).
  { intros w r E Hs. apply H. exists w, r. split; [|exact Hs].
    apply is_white_space_In. exact E. }
  destruct s as [|a [|b [|c r]]]; cbn [Str.trimStart]; try reflexivity.
  - destruct (Str.is_white_space (String a EmptyString)) eqn:E1;
      [destruct (N _ EmptyString E1 eq_refl)|reflexivity].
  - destruct (Str.is_white_space (String a EmptyString)) eqn:E1;
      [destruct (N _ (String b EmptyString) E1 eq_refl)|].
    destruct (Str.is_white_space (String a (String b EmptyString))) eqn:E2;
      [destruct (N _ EmptyString E2 eq_refl)|reflexivity].
  - destruct (Str.is_white_space (String a EmptyString)) eqn:E1;
      [destruct (N _ (String b (String c r)) E1 eq_refl)|].
    destruct (Str.is_white_space (String a (String b EmptyString))) eqn:E2;
      [destruct (N _ (String c r) E2 eq_refl)|].
    destruct (Str.is_white_space (String a (String b (String c EmptyString))))
      eqn:E3; [destruct (N _ r E3 eq_refl)|reflexivity].
Qed.

Lemma not_starts_white (s : string) :
  (forall a r, s = String a r ->
               Str.is_white_space (String a EmptyString) = false) ->
  (forall a b r, s = String a (String b r) ->
                 Str.is_white_space (String a (String b EmptyString)) = false) ->
  (forall a b c r, s = String a (String b (String c r)) ->
                   Str.is_white_space
                     (String a (String b (String c EmptyString))) = false) ->
  ~ starts_white s.
Proof.
  intros H1 H2 H3 (w & r & Hw & E).
  pose proof (proj2 (is_white_space_In w) Hw) as T.
  destruct (white_space_bytes w Hw) as [(a & ->)|[(a & b & ->)|(a & b & c & ->)]];
    simpl in E.
  - rewrite (H1 _ _ E) in T. discriminate.
  - rewrite (H2 _ _ _ E) in T. discriminate.
  - rewrite (H3 _ _ _ _ E) in T. discriminate.
Qed.

Lemma trimStart_spec (s : string) :
  (exists a, all_white a /\ s = (a ++ Str.trimStart s)%string)
  /\ ~ starts_white (Str.trimStart s).
Proof.
  assert (G : forall n s, (String.length s <= n)%nat ->
                (exists a, all_white a /\ s = (a ++ Str.trimStart s)%string)
                /\ ~ starts_white (Str.trimStart s)).
  { clear s. induction n as [|n IH]; intros s L.
    - destruct s; [|simpl in L; lia]. split.
      + exists EmptyString. split; [constructor|reflexivity].
      + intros (w & r & Hw & E).
        destruct (white_space_bytes w Hw)
          as [(a & ->)|[(a & b & ->)|(a & b & c & ->)]]; discriminate.
    - assert (Step : forall w r,
                 s = (w ++ r)%string -> Str.is_white_space w = true ->
                 (String.length r <= n)%nat ->
                 Str.trimStart s = Str.trimStart r ->
                 (exists a, all_white a /\ s = (a ++ Str.trimStart s)%string)
                 /\ ~ starts_white (Str.trimStart s)).
      { intros w r E W Lr T. destruct (IH r Lr) as ((a & Ha & Er) & Hn).
        rewrite T. split; [|exact Hn].
        exists (w ++ a)%string. split.
        - constructor; [apply is_white_space_In; exact W|exact Ha].
        - rewrite append_assoc, <- Er. exact E. }
      assert (Stop : Str.trimStart s = s -> ~ starts_white s ->
                 (exists a, all_white a /\ s = (a ++ Str.trimStart s)%string)
                 /\ ~ starts_white (Str.trimStart s)).
      { intros T Hn. rewrite T. split; [|exact Hn].
        exists EmptyString. split; [constructor|reflexivity]. }
      destruct s as [|a [|b [|c r]]].
      + apply Stop; [reflexivity|].
        apply not_starts_white; intros; discriminate.
      + destruct (Str.is_white_space (String a EmptyString)) eqn:E1.
        * apply (Step (String a EmptyString) EmptyString); auto.
          -- simpl. lia.
          -- cbn [Str.trimStart]. rewrite E1. reflexivity.
        * apply Stop.
          -- cbn [Str.trimStart]. rewrite E1. reflexivity.
          -- apply not_starts_white; intros; try discriminate. congruence.
      + destruct (Str.is_white_space (String a EmptyString)) eqn:E1.
        * apply (Step (String a EmptyString) (String b EmptyString)); auto.
          -- simpl in *. lia.
          -- cbn [Str.trimStart]. rewrite E1. reflexivity.
        * destruct (Str.is_white_space (String a (String b EmptyString))) eqn:E2.
          -- apply (Step (String a (String b EmptyString)) EmptyString); auto.
             ++ simpl. lia.
             ++ cbn [Str.trimStart]. rewrite E1, E2. reflexivity.
          -- apply Stop.
             ++ cbn [Str.trimStart]. rewrite E1, E2. reflexivity.
             ++ apply not_starts_white; intros; try discriminate; congruence.
      + destruct (Str.is_white_space (String a EmptyString)) eqn:E1.
        * apply (Step (String a EmptyString) (String b (String c r))); auto.
          -- simpl in *. lia.
          -- cbn [Str.trimStart]. rewrite E1. reflexivity.
        * destruct (Str.is_white_space (String a (String b EmptyString))) eqn:E2.
          -- apply (Step (String a (String b EmptyString)) (String c r)); auto.
             ++ simpl in *. lia.
             ++ cbn [Str.trimStart]. rewrite E1, E2. reflexivity.
          -- destruct (Str.is_white_space
                         (String a (String b (String c EmptyString)))) eqn:E3.
             ++ apply (Step (String a (String b (String c EmptyString))) r);
                  auto.
                ** simpl in *. lia.
                ** cbn [Str.trimStart]. rewrite E1, E2, E3. reflexivity.
             ++ apply Stop.
                ** cbn [Str.trimStart]. rewrite E1, E2, E3. reflexivity.
                ** apply not_starts_white; intros; congruence. }
  apply (G (String.length s) s). lia.
Qed.

Lemma trimEnd_spec (s : string) :
  (exists b, all_white b /\ s = (Str.trimEnd s ++ b)%string)
  /\ ~ ends_white (Str.trimEnd s).
Proof.
  induction s as [|c s ((b & Hb & E) & Hn)].
  - split; [exists EmptyString; split; [constructor|reflexivity]|].
    intros (w & r & Hw & Er).
    destruct (white_space_bytes w Hw)
      as [(x & ->)|[(x & y & ->)|(x & y & z & ->)]];
      destruct r; discriminate.
  - cbn [Str.trimEnd].
    destruct (Str.is_white_space (String c (Str.trimEnd s))) eqn:W; split.
    + exists (String c (Str.trimEnd s) ++ b)%string. split.
      * constructor; [apply is_white_space_In; exact W|exact Hb].
      * simpl. rewrite <- E. reflexivity.
    + intros (w & r & Hw & Er).
      destruct (white_space_bytes w Hw)
        as [(x & ->)|[(x & y & ->)|(x & y & z & ->)]];
        destruct r; discriminate.
    + exists b. split; [exact Hb|]. simpl. rewrite <- E. reflexivity.
    + intros (w & r & Hw & Er). destruct r as [|x r]; simpl in Er.
      * subst w. apply is_white_space_In in Hw. congruence.
      * injection Er as _ Er. apply Hn. exists w, r. split; assumption.
Qed.

Lemma trimEnd_idempotent (s : string) : Str.trimEnd (Str.trimEnd s) = Str.trimEnd s.
Proof.
  induction s as [|c s IH]; [reflexivity|].
  cbn [Str.trimEnd].
  destruct (Str.is_white_space (String c (Str.trimEnd s))) eqn:W; [reflexivity|].
  cbn [Str.trimEnd]. rewrite IH, W. reflexivity.
Qed.

Lemma all_white_app (a b : string) :
  all_white a -> all_white b -> all_white (a ++ b)%string.
Proof.
  intros Ha Hb. induction Ha as [|w s Hw Hs IH]; [exact Hb|].
  rewrite append_assoc. constructor; assumption.
Qed.

(** [trim] takes the white space around a string, and no more. *)
Lemma trim_spec (s : string) : trimmed_of s (Str.trim s).
Proof.
  unfold Str.trim.
  destruct (trimStart_spec s) as ((a & Ha & Ea) & Na).
  destruct (trimEnd_spec (Str.trimStart s)) as ((b & Hb & Eb) & Nb).
  split; [|split; [|exact Nb]].
  - exists a, b. split; [|split; assumption].
    rewrite <- Eb. exact Ea.
  - intros (w & r & Hw & E). apply Na. exists w, (r ++ b)%string.
    split; [exact Hw|]. rewrite Eb at 1. rewrite E. apply append_assoc.
Qed.

Lemma trim_idempotent (s : string) : Str.trim (Str.trim s) = Str.trim s.
Proof.
  destruct (trim_spec s) as (_ & N & _).
  unfold Str.trim at 1. rewrite (trimStart_fixed _ N).
  unfold Str.trim. apply trimEnd_idempotent.
Qed.

Lemma list_ascii_app (a b : string) :
  list_ascii_of_string (a ++ b)
  = list_ascii_of_string a ++ list_ascii_of_string b.
Proof. induction a as [|c a IH]; simpl; [|rewrite IH]; reflexivity. Qed.

Lemma all_white_solid (c : ascii) (a : string) :
  solid c -> all_white a -> ~ In c (list_ascii_of_string a).
Proof.
  intros S H. induction H as [|w s Hw Hs IH]; [intros []|].
  rewrite list_ascii_app. intro Hin. apply in_app_or in Hin.
  destruct Hin as [Hin|Hin]; [exact (S w Hw Hin)|exact (IH Hin)].
Qed.

Lemma bracket_solid : solid "[".
Proof.
  intros w H. cbv in H.
  repeat (destruct H as [<-|H];
          [cbv; intro K;
           repeat (destruct K as [K|K]; [discriminate K|]); exact K|]).
  destruct H.
Qed.

(** A string with a byte that is in no white-space character is not
    trimmed to nothing. *)
Lemma trim_nonempty (p : string) (c : ascii) (r : string) :
  solid c -> JS.str_truthy (Str.trim (p ++ String c r)) = true.
Proof.
  intro S. destruct (trim_spec (p ++ String c r)) as ((a & b & E & Ha & Hb) & _).
  destruct (Str.trim (p ++ String c r)) as [|x t]; [|reflexivity].
  exfalso. simpl in E.
  assert (Hin : In c (list_ascii_of_string (p ++ String c r))).
  { rewrite list_ascii_app. apply in_or_app. right. left. reflexivity. }
  rewrite E, list_ascii_app in Hin. apply in_app_or in Hin.
  destruct Hin as [Hin|Hin]; [exact (all_white_solid c a S Ha Hin)
                             |exact (all_white_solid c b S Hb Hin)].
Qed.

(** ** Rounding to doubles *)

Lemma pow2_pos (e : Z) : 0 < Num.pow2 e.
Proof.
  destruct e as [|p|p]; unfold Num.pow2; [reflexivity| |reflexivity].
  rewrite <- (Zlt_Qlt 0). apply Z.pow_pos_nonneg; lia.
Qed.

Lemma pow2_inv (e : Z) :
  (e < 0)%Z -> Num.pow2 e * inject_Z (2 ^ (- e)) == 1.
Proof.
  destruct e as [|p|p]; try lia. intros _. unfold Num.pow2.
  change (- Z.neg p)%Z with (Z.pos p).
  rewrite <- Pos2Z.inj_pow. unfold Qeq, Qmult, inject_Z. simpl. lia.
Qed.

Lemma nearest_even_spec (n d : Z) :
  (0 <= n)%Z -> (0 < d)%Z ->
  (0 <= Num.nearest_even n d
   /\ 2 * Z.abs (Num.nearest_even n d * d - n) <= d)%Z.
Proof.
  intros Hn Hd. unfold Num.nearest_even.
  pose proof (Z.div_mod n d ltac:(lia)) as E.
  pose proof (Z.mod_pos_bound n d Hd) as B.
  pose proof (Z.div_pos n d Hn Hd) as P.
  set (q := (n / d)%Z) in *. set (r := (n mod d)%Z) in *.
  destruct (Z.compare_spec (2 * r) d) as [C|C|C];
    [destruct (Z.even q)| |]; split; nia.
Qed.

Lemma nearest_even_exact (n : Z) : Num.nearest_even n 1 = n.
Proof.
  unfold Num.nearest_even. rewrite Z.mod_1_r, Z.div_1_r. reflexivity.
Qed.

(** The exponent is at least -1074, and above that the fraction has 53
    significant bits on the grid. *)
Lemma exponent_spec (n d : Z) :
  (0 < n)%Z -> (0 < d)%Z ->
  let e := Num.exponent n d in
  (-1074 <= e)%Z
  /\ (e = (-1074)%Z
      \/ (0 <= e + 52 -> d * 2 ^ (e + 52) <= n)%Z
         /\ (e + 52 < 0 -> d <= n * 2 ^ (- (e + 52)))%Z).
Proof.
  intros Hn Hd. cbv zeta. unfold Num.exponent.
  pose proof (Z.log2_spec n Hn) as Ln. pose proof (Z.log2_spec d Hd) as Ld.
  pose proof (Z.log2_nonneg n) as Nn. pose proof (Z.log2_nonneg d) as Nd.
  remember (Z.log2 n) as ln eqn:Eln. remember (Z.log2 d) as ld eqn:Eld.
  clear Eln Eld. set (k := (ln - ld)%Z).
  set (reaches := if (0 <=? k)%Z then (d * 2 ^ k <=? n)%Z
                  else (d <=? n * 2 ^ (- k))%Z).
  set (fl := (if reaches then k else k - 1)%Z).
  assert (F : (0 <= fl -> d * 2 ^ fl <= n)%Z
              /\ (fl < 0 -> d <= n * 2 ^ (- fl))%Z).
  { unfold fl, reaches. destruct (0 <=? k)%Z eqn:K.
    - apply Z.leb_le in K. destruct (d * 2 ^ k <=? n)%Z eqn:T.
      + apply Z.leb_le in T. split; [intros _; exact T|lia].
      + split.
        * intro H.
          assert (E : (2 ^ ln = 2 ^ Z.succ ld * 2 ^ (k - 1))%Z).
          { rewrite <- Z.pow_add_r by lia. f_equal. unfold k. lia. }
          assert (P : (0 < 2 ^ (k - 1))%Z) by (apply Z.pow_pos_nonneg; lia).
          nia.
        * intro H. assert (k = 0%Z) by lia.
          replace (- (k - 1))%Z with 1%Z by lia.
          assert (ln = ld) by (unfold k in *; lia). subst ln.
          replace (Z.succ ld) with (ld + 1)%Z in Ld by lia.
          rewrite Z.pow_add_r in Ld by lia. change (2 ^ 1)%Z with 2%Z in *.
          lia.
    - apply Z.leb_gt in K. destruct (d <=? n * 2 ^ (- k))%Z eqn:T.
      + apply Z.leb_le in T. split; [lia|intros _; exact T].
      + split; [lia|]. intros _.
        assert (E : (2 ^ Z.succ ld = 2 ^ ln * 2 ^ (- (k - 1)))%Z).
        { rewrite <- Z.pow_add_r by lia. f_equal. unfold k. lia. }
        assert (P : (0 < 2 ^ (- (k - 1)))%Z) by (apply Z.pow_pos_nonneg; lia).
        nia. }
  split; [lia|].
  destruct (Z.max_spec (fl - 52) (-1074)) as [[_ ->]|[_ ->]]; [left; reflexivity|].
  right. replace (fl - 52 + 52)%Z with fl by lia. exact F.
Qed.

Ltac to_Z :=
  unfold Qminus;
  repeat (rewrite <- inject_Z_mult || rewrite <- inject_Z_opp
          || rewrite <- inject_Z_plus).

Lemma significand_spec (n d e : Z) :
  (0 < n)%Z -> (0 < d)%Z ->
  0 <= inject_Z (Num.significand n d e)
  /\ 2 * Qabs (inject_Z (Num.significand n d e) * Num.pow2 e * inject_Z d
               - inject_Z n)
     <= Num.pow2 e * inject_Z d.
Proof.
  intros Hn Hd. unfold Num.significand.
  destruct (0 <=? e)%Z eqn:E.
  - apply Z.leb_le in E.
    assert (P : (0 < 2 ^ e)%Z) by (apply Z.pow_pos_nonneg; lia).
    destruct (nearest_even_spec n (d * 2 ^ e) ltac:(lia) ltac:(nia))
      as [M0 M].
    set (m := Num.nearest_even n (d * 2 ^ e)) in *.
    assert (Ep : Num.pow2 e = inject_Z (2 ^ e)) by (destruct e; [reflexivity..|lia]).
    rewrite Ep. split; [rewrite <- (Zle_Qle 0); exact M0|].
    to_Z. change (Qabs (inject_Z ?z)) with (inject_Z (Z.abs z)).
    rewrite <- (inject_Z_mult 2), <- Zle_Qle.
    replace (m * 2 ^ e * d + - n)%Z with (m * (d * 2 ^ e) - n)%Z by ring.
    lia.
  - apply Z.leb_gt in E.
    assert (P : (0 < 2 ^ (- e))%Z) by (apply Z.pow_pos_nonneg; lia).
    destruct (nearest_even_spec (n * 2 ^ (- e)) d ltac:(nia) Hd) as [M0 M].
    set (m := Num.nearest_even (n * 2 ^ (- e)) d) in *.
    pose proof (pow2_inv e E) as I. pose proof (pow2_pos e) as Pp.
    split; [rewrite <- (Zle_Qle 0); exact M0|].
    assert (M1 : 2 * (inject_Z m * inject_Z d
                      - inject_Z n * inject_Z (2 ^ (- e))) <= inject_Z d).
    { to_Z. rewrite <- (inject_Z_mult 2), <- Zle_Qle. lia. }
    assert (M2 : 2 * (inject_Z n * inject_Z (2 ^ (- e))
                      - inject_Z m * inject_Z d) <= inject_Z d).
    { to_Z. rewrite <- (inject_Z_mult 2), <- Zle_Qle. lia. }
    set (p := Num.pow2 e) in *. set (R := inject_Z (2 ^ (- e))) in *.
    set (N := inject_Z n) in *. set (D := inject_Z d) in *.
    set (Mq := inject_Z m) in *.
    assert (N1 : N == N * R * p) by (rewrite <- Qmult_assoc, (Qmult_comm R), I; ring).
    apply Qabs_case; intros _.
    + assert (T : 2 * (Mq * p * D - N) == p * (2 * (Mq * D - N * R)))
        by (rewrite N1 at 1; ring).
      rewrite T. rewrite (Qmult_comm p D), (Qmult_comm p).
      apply Qmult_le_compat_r; [exact M1|apply Qlt_le_weak; exact Pp].
    + assert (T : 2 * - (Mq * p * D - N) == p * (2 * (N * R - Mq * D)))
        by (rewrite N1 at 1; ring).
      rewrite T. rewrite (Qmult_comm p D), (Qmult_comm p).
      apply Qmult_le_compat_r; [exact M2|apply Qlt_le_weak; exact Pp].
Qed.

Lemma pow2_Qpower (e : Z) : Num.pow2 e == 2 ^ e.
Proof.
  destruct e as [|p|p]; unfold Num.pow2.
  - reflexivity.
  - exact (Zpower_Qpower 2 (Z.pos p) ltac:(lia)).
  - change (Z.neg p) with (- Z.pos p)%Z. rewrite Qpower_opp.
    change (2 ^ Z.pos p) with (inject_Z 2 ^ Z.pos p).
    rewrite <- (Zpower_Qpower 2 (Z.pos p)) by lia.
    rewrite <- Pos2Z.inj_pow. reflexivity.
Qed.

Lemma pow2_add (a b : Z) : Num.pow2 (a + b) == Num.pow2 a * Num.pow2 b.
Proof.
  rewrite !pow2_Qpower. apply Qpower_plus. intro H. discriminate H.
Qed.

(** With 53 significant bits, the step of the grid is at most the
    fraction divided by [2 ^ 52]; in the subnormal range it is
    [2 ^ -1074]. *)
Lemma exponent_step (n d : Z) :
  (0 < n)%Z -> (0 < d)%Z ->
  let e := Num.exponent n d in
  e = (-1074)%Z
  \/ Num.pow2 e * inject_Z (2 ^ 52) * inject_Z d <= inject_Z n.
Proof.
  intros Hn Hd. cbv zeta.
  destruct (exponent_spec n d Hn Hd) as (_ & [E|[F1 F2]]); [left; exact E|].
  right. set (e := Num.exponent n d) in *.
  change (inject_Z (2 ^ 52)) with (Num.pow2 52).
  rewrite <- pow2_add.
  destruct (Z_le_gt_dec 0 (e + 52)) as [L|L].
  - specialize (F1 L).
    assert (Ep : Num.pow2 (e + 52) = inject_Z (2 ^ (e + 52)))
      by (destruct (e + 52)%Z; [reflexivity..|lia]).
    rewrite Ep. to_Z. rewrite <- Zle_Qle. lia.
  - specialize (F2 ltac:(lia)).
    pose proof (pow2_inv (e + 52) ltac:(lia)) as I.
    pose proof (pow2_pos (e + 52)) as P.
    set (p := Num.pow2 (e + 52)) in *.
    assert (F : inject_Z d <= inject_Z n * inject_Z (2 ^ (- (e + 52))))
      by (to_Z; rewrite <- Zle_Qle; exact F2).
    set (R := inject_Z (2 ^ (- (e + 52)))) in *.
    assert (T : inject_Z n == p * (inject_Z n * R))
      by (rewrite (Qmult_comm (inject_Z n)), Qmult_assoc, I; ring).
    rewrite T. rewrite (Qmult_comm p), (Qmult_comm p).
    apply Qmult_le_compat_r; [exact F|apply Qlt_le_weak; exact P].
Qed.

Lemma double_opp (x : Q) : Num.double (- x) = - Num.double x.
Proof.
  unfold Num.double. rewrite Qred_opp.
  destruct (Qred x) as [n d]. cbn [Qnum Qden Qopp].
  rewrite Z.abs_opp. destruct (Z.abs n =? 0)%Z; [reflexivity|].
  rewrite <- Qred_opp. f_equal.
  rewrite Z.sgn_opp, Z.mul_opp_l.
  unfold Qopp, Qmult, inject_Z. cbn [Qnum Qden]. f_equal. ring.
Qed.

Lemma double_positive (x : Q) :
  0 < x ->
  exists n d,
    Qred x = Z.pos n # d
    /\ Num.double x
       = Qred (inject_Z (Num.significand (Z.pos n) (Z.pos d)
                           (Num.exponent (Z.pos n) (Z.pos d)))
               * Num.pow2 (Num.exponent (Z.pos n) (Z.pos d))).
Proof.
  intro H. unfold Num.double.
  assert (R : 0 < Qred x) by (rewrite Qred_correct; exact H).
  destruct (Qred x) as [[|n|n] d]; try discriminate R.
  exists n, d. split; [reflexivity|]. cbn [Qnum Qden Z.abs Z.eqb Z.sgn].
  rewrite Z.mul_1_l. reflexivity.
Qed.

Lemma double_zero (x : Q) : x == 0 -> Num.double x = 0.
Proof.
  intro H. unfold Num.double.
  assert (R : Qred x = 0) by (change 0 with (Qred 0); apply Qred_complete; exact H).
  rewrite R. reflexivity.
Qed.

Lemma double_nonneg (x : Q) : 0 <= x -> 0 <= Num.double x.
Proof.
  intro H. destruct (Qlt_le_dec 0 x) as [P|P].
  - destruct (double_positive x P) as (n & d & _ & ->).
    rewrite Qred_correct.
    apply Qmult_le_0_compat; [|apply Qlt_le_weak, pow2_pos].
    apply (significand_spec (Z.pos n) (Z.pos d)); reflexivity.
  - rewrite (double_zero x); [apply Qle_refl|]. apply Qle_antisym; assumption.
Qed.

(** The rounding error: half a step of the grid, that is, at most the
    number divided by [2 ^ 53], or [2 ^ -1075] in the subnormal range. *)
Lemma double_error (x : Q) :
  Qabs (Num.double x - x)
  <= Qabs x * (1 # 2 ^ 53) + (1 # 2 ^ 1075).
Proof.
  assert (G : forall y, 0 < y ->
               Qabs (Num.double y - y) <= y * (1 # 2 ^ 53) + (1 # 2 ^ 1075)).
  { intros y Hy. destruct (double_positive y Hy) as (n & d & R & ->).
    rewrite Qred_correct.
    assert (Ey : y * inject_Z (Z.pos d) == inject_Z (Z.pos n)).
    { rewrite <- (Qred_correct y), R. unfold Qeq, Qmult, inject_Z. simpl. lia. }
    destruct (significand_spec (Z.pos n) (Z.pos d)
                (Num.exponent (Z.pos n) (Z.pos d)) eq_refl eq_refl)
      as [_ S].
    pose proof (exponent_step (Z.pos n) (Z.pos d) eq_refl eq_refl) as X.
    cbv zeta in X.
    pose proof (pow2_pos (Num.exponent (Z.pos n) (Z.pos d))) as Pp.
    set (e := Num.exponent (Z.pos n) (Z.pos d)) in *.
    set (m := inject_Z (Num.significand (Z.pos n) (Z.pos d) e)) in *.
    assert (Dp : 0 < inject_Z (Z.pos d)) by reflexivity.
    set (D := inject_Z (Z.pos d)) in *. set (N := inject_Z (Z.pos n)) in *.
    set (p := Num.pow2 e) in *.
    assert (S1 : 2 * Qabs (m * p - y) <= p).
    { apply (Qmult_le_r _ _ D Dp).
      assert (T : m * p * D - N == (m * p - y) * D) by (rewrite <- Ey; ring).
      rewrite T, Qabs_Qmult, (Qabs_pos D) in S by (apply Qlt_le_weak; exact Dp).
      rewrite <- Qmult_assoc. exact S. }
    assert (S2 : p <= y * (1 # 2 ^ 52) + (1 # 2 ^ 1074)).
    { destruct X as [X|X].
      - unfold p. rewrite X. change (Num.pow2 (-1074)) with (1 # 2 ^ 1074).
        assert (0 <= y * (1 # 2 ^ 52)) by (apply Qmult_le_0_compat; [lra|discriminate]).
        lra.
      - assert (X1 : p * inject_Z (2 ^ 52) <= y).
        { apply (Qmult_le_r _ _ D Dp). rewrite Ey. exact X. }
        assert (X2 : p == p * inject_Z (2 ^ 52) * (1 # 2 ^ 52)).
        { rewrite <- Qmult_assoc.
          setoid_replace (inject_Z (2 ^ 52) * (1 # 2 ^ 52)) with 1
            by reflexivity.
          ring. }
        rewrite X2.
        assert (X3 : p * inject_Z (2 ^ 52) * (1 # 2 ^ 52)
                     <= y * (1 # 2 ^ 52))
          by (apply Qmult_le_compat_r; [exact X1|discriminate]).
        assert (0 <= 1 # 2 ^ 1074) by discriminate. lra. }
    setoid_replace (1 # 2 ^ 53) with ((1 # 2) * (1 # 2 ^ 52)) by reflexivity.
    setoid_replace (1 # 2 ^ 1075) with ((1 # 2) * (1 # 2 ^ 1074)) by reflexivity.
    set (u := 1 # 2 ^ 52) in *. set (h := 1 # 2 ^ 1074) in *. lra. }
  destruct (Q_dec 0 x) as [[P|P]|P].
  - rewrite (Qabs_pos x) by lra. apply G. exact P.
  - assert (Hn : 0 < - x) by lra.
    specialize (G (- x) Hn). rewrite double_opp in G.
    rewrite (Qabs_neg x) by lra.
    assert (T : Qabs (- Num.double x - - x) == Qabs (Num.double x - x)).
    { rewrite <- Qabs_opp. apply Qabs_wd. ring. }
    rewrite <- T. exact G.
  - rewrite (double_zero x) by (symmetry; exact P).
    rewrite <- P. discriminate.
Qed.

Lemma double_wd (x y : Q) : x == y -> Num.double x = Num.double y.
Proof.
  intro H. unfold Num.double. rewrite (Qred_complete x y H). reflexivity.
Qed.

Lemma Qred_inject_Z (z : Z) : Qred (inject_Z z) = inject_Z z.
Proof.
  unfold Qred, inject_Z.
  pose proof (Z.ggcd_gcd z 1) as G. pose proof (Z.ggcd_correct_divisors z 1) as C.
  destruct (Z.ggcd z 1) as [g [a b]]. cbn [fst snd] in *.
  rewrite Z.gcd_1_r in G. subst g. destruct C as [Ca Cb].
  rewrite Z.mul_1_l in Ca, Cb. subst a b. reflexivity.
Qed.

(** Integers of at most 53 bits are doubles. *)
Lemma double_int (z : Z) :
  (Z.abs z < 2 ^ 53)%Z -> Num.double (inject_Z z) = inject_Z z.
Proof.
  assert (G : forall n, (Z.pos n < 2 ^ 53)%Z ->
               Num.double (inject_Z (Z.pos n)) = inject_Z (Z.pos n)).
  { intros n H. unfold Num.double. rewrite Qred_inject_Z.
    cbn [Qnum Qden inject_Z Z.abs Z.eqb Z.sgn]. rewrite Z.mul_1_l.
    fold (inject_Z (Z.pos n)).
    transitivity (Qred (inject_Z (Z.pos n))); [|apply Qred_inject_Z].
    apply Qred_complete.
    assert (E : Num.exponent (Z.pos n) 1 = (Z.log2 (Z.pos n) - 52)%Z).
    { unfold Num.exponent. change (Z.log2 1) with 0%Z. rewrite Z.sub_0_r.
      pose proof (Z.log2_spec (Z.pos n) eq_refl) as L.
      pose proof (Z.log2_nonneg (Z.pos n)) as L0.
      rewrite (proj2 (Z.leb_le 0 _) L0), Z.mul_1_l.
      rewrite (proj2 (Z.leb_le _ _) (proj1 L)). lia. }
    rewrite E.
    assert (K : (Z.log2 (Z.pos n) < 53)%Z)
      by (apply Z.log2_lt_pow2; [reflexivity|exact H]).
    pose proof (Z.log2_nonneg (Z.pos n)) as L0.
    set (e := (Z.log2 (Z.pos n) - 52)%Z) in *.
    unfold Num.significand. destruct (0 <=? e)%Z eqn:T.
    - apply Z.leb_le in T. assert (e = 0%Z) by lia. subst. rewrite H0.
      change (1 * 2 ^ 0)%Z with 1%Z. rewrite nearest_even_exact.
      change (Num.pow2 0) with 1. apply Qmult_1_r.
    - apply Z.leb_gt in T. rewrite nearest_even_exact, inject_Z_mult.
      rewrite <- Qmult_assoc, (Qmult_comm (inject_Z (2 ^ (- e)))).
      rewrite (pow2_inv e T). ring. }
  intro H. destruct z as [|n|n].
  - reflexivity.
  - apply G. exact H.
  - change (inject_Z (Z.neg n)) with (- inject_Z (Z.pos n)).
    rewrite double_opp, G; [reflexivity|exact H].
Qed.

(** ** LRC import: the parsed entries *)

Lemma max_ge_l (x y : Q) : x <= Num.max x y.
Proof.
  unfold Num.max. destruct (Qle_bool x y) eqn:E.
  - apply Qle_bool_iff. exact E.
  - apply Qle_refl.
Qed.

Lemma max_ge_r (x y : Q) : y <= Num.max x y.
Proof.
  unfold Num.max. destruct (Qle_bool x y) eqn:E.
  - apply Qle_refl.
  - apply Qlt_le_weak. apply Qlt_bool_true. unfold JS.Qlt_bool.
    rewrite E. reflexivity.
Qed.

Lemma push_tag_below_max (line : string) (m : Lrc.tag)
  (acc : list Entry.t * Q) :
  below_max acc -> below_max (Lrc.push_tag line acc m).
Proof.
  intro H. unfold Lrc.push_tag.
  destruct (_ || _); [|exact H].
  intros e He. simpl in He |- *. apply in_app_or in He.
  destruct He as [He|[<-|[]]].
  - eapply Qle_trans; [apply (H e He)|apply max_ge_l].
  - apply max_ge_r.
Qed.

Lemma parse_line_below_max (line : string) (acc : list Entry.t * Q) :
  below_max acc -> below_max (Lrc.parse_line acc line).
Proof.
  unfold Lrc.parse_line. revert acc.
  induction (Lrc.matchAll line) as [|m ms IH]; intros acc H; [exact H|].
  simpl. apply IH. apply push_tag_below_max. exact H.
Qed.

Lemma parse_lines_below_max (lines : list string) (acc : list Entry.t * Q) :
  below_max acc -> below_max (fold_left Lrc.parse_line lines acc).
Proof.
  revert acc. induction lines as [|l ls IH]; intros acc H; [exact H|].
  simpl. apply IH. apply parse_line_below_max. exact H.
Qed.

Lemma map_set_in (x e : Entry.t) (m : list Entry.t) :
  In e (Lrc.map_set x m) -> e = x \/ In e m.
Proof.
  induction m as [|y m IH]; simpl.
  - intros [<-|[]]. left. reflexivity.
  - destruct (Lrc.same_key x y).
    + intros [<-|H]; [left; reflexivity|right; right; exact H].
    + intros [<-|H]; [right; left; reflexivity|].
      destruct (IH H) as [->|H']; [left; reflexivity|right; right; exact H'].
Qed.

Lemma unique_in (l : list Entry.t) (e : Entry.t) :
  In e (Lrc.unique l) -> In e l.
Proof.
  unfold Lrc.unique.
  assert (G : forall m, In e (fold_left (fun m x => Lrc.map_set x m) l m) ->
                        In e l \/ In e m).
  { induction l as [|x l IH]; intros m H; [right; exact H|].
    simpl in H. destruct (IH _ H) as [H1|H1]; [left; right; exact H1|].
    destruct (map_set_in _ _ _ H1) as [->|H2];
      [left; left; reflexivity|right; exact H2]. }
  intro H. destruct (G [] H) as [H1|[]]. exact H1.
Qed.

Lemma insert_by_time_in (x e : Entry.t) (l : list Entry.t) :
  In e (Lrc.insert_by_time x l) <-> e = x \/ In e l.
Proof.
  induction l as [|y l IH]; simpl.
  - intuition congruence.
  - destruct (Qle_bool (Entry.time x) (Entry.time y)); simpl.
    + intuition congruence.
    + rewrite IH. intuition congruence.
Qed.

Lemma sort_by_time_in (l : list Entry.t) (e : Entry.t) :
  In e (Lrc.sort_by_time l) <-> In e l.
Proof.
  induction l as [|x l IH]; simpl; [tauto|].
  rewrite insert_by_time_in, IH. intuition congruence.
Qed.

(** No surviving entry is later than [maxTime]. *)
Lemma parseLRCFile_maxTime (text : string) (e : Entry.t) :
  In e (fst (Lrc.parseLRCFile text)) ->
  Entry.time e <= snd (Lrc.parseLRCFile text).
Proof.
  unfold Lrc.parseLRCFile.
  set (lines := filter _ _).
  pose proof (parse_lines_below_max lines ([], 0)) as B.
  destruct (fold_left Lrc.parse_line lines ([], 0)) as [entries maxTime].
  simpl. intro H. apply sort_by_time_in, unique_in in H.
  apply (B ltac:(intros x [])). exact H.
Qed.

(** ** A tag anywhere in the input *)

Lemma span_digits_spec (s d r : string) :
  Str.span_digits s = (d, r) ->
  s = (d ++ r)%string /\ (forall k, no_bracket_prefix k d)
  /\ (forall c r', r = String c r' -> Str.is_digit c = false).
Proof.
  revert d r. induction s as [|c s IH]; intros d r; simpl.
  - intros [= <- <-]. repeat split; [destruct k; exact I|discriminate].
  - destruct (Str.is_digit c) eqn:E.
    + destruct (Str.span_digits s) as [d' r'] eqn:S.
      intros [= <- <-]. destruct (IH d' r' eq_refl) as (H1 & H2 & H3).
      split; [simpl; rewrite H1 at 1; reflexivity|]. split; [|exact H3].
      intros [|k]; [exact I|]. simpl. split; [|apply H2].
      intros ->. discriminate.
    + intros [= <- <-]. repeat split; [destruct k; exact I|].
      intros c' r' [= <- <-]. exact E.
Qed.

Lemma expect_some (c : ascii) (s r : string) :
  Lrc.expect c s = Some r -> s = String c r.
Proof.
  destruct s as [|x s']; simpl; [discriminate|].
  destruct (Ascii.eqb_spec x c) as [->|]; [|discriminate].
  intros [= ->]. reflexivity.
Qed.

Lemma no_bracket_prefix_app (d r : string) (k : nat) :
  (forall j, no_bracket_prefix j d) ->
  no_bracket_prefix (k - String.length d) r ->
  no_bracket_prefix k (d ++ r).
Proof.
  revert k. induction d as [|c d IH]; intros k Hd Hr; simpl in *.
  - rewrite Nat.sub_0_r in Hr. exact Hr.
  - destruct k as [|k]; [exact I|]. simpl. split.
    + apply (Hd 1%nat).
    + apply IH; [|exact Hr]. intro j. apply (Hd (S j)).
Qed.

Lemma no_bracket_prefix_cons (c : ascii) (r : string) (k : nat) :
  c <> "["%char -> no_bracket_prefix (k - 1) r ->
  no_bracket_prefix k (String c r).
Proof.
  intros Hc Hr. destruct k as [|k]; [exact I|].
  replace (S k - 1)%nat with k in Hr by lia. split; assumption.
Qed.

Lemma no_bracket_prefix_zero (s : string) : no_bracket_prefix 0 s.
Proof. destruct s; exact I. Qed.

Lemma match_tag_no_bracket (c : ascii) (rest : string) (t : Lrc.tag) :
  Lrc.match_tag (String c rest) = Some t ->
  no_bracket_prefix (Lrc.tag_length t - 1) rest.
Proof.
  unfold Lrc.match_tag.
  destruct (Lrc.expect "[" (String c rest)) as [r0|] eqn:E0; [|discriminate].
  apply expect_some in E0. injection E0 as -> <-.
  destruct (Str.span_digits rest) as [m r1] eqn:S1.
  destruct (span_digits_spec _ _ _ S1) as (-> & Dm & _).
  destruct (Lrc.is_empty m); [discriminate|].
  destruct (Lrc.expect ":" r1) as [r2|] eqn:E1; [|discriminate].
  apply expect_some in E1. subst r1.
  destruct (Str.span_digits r2) as [si r3] eqn:S2.
  destruct (span_digits_spec _ _ _ S2) as (-> & Dsi & _).
  destruct (Lrc.is_empty si); [discriminate|].
  destruct (Lrc.expect "]" r3) as [r|] eqn:E2.
  - apply expect_some in E2. subst r3. intros [= <-]. simpl Lrc.tag_length.
    apply no_bracket_prefix_app; [exact Dm|].
    apply no_bracket_prefix_cons; [discriminate|].
    apply no_bracket_prefix_app; [exact Dsi|].
    apply no_bracket_prefix_cons; [discriminate|].
    replace (_ - 1)%nat with 0%nat by lia. apply no_bracket_prefix_zero.
  - destruct (Lrc.expect "." r3) as [r4|] eqn:E3; [|discriminate].
    apply expect_some in E3. subst r3.
    destruct (Str.span_digits r4) as [sf r5] eqn:S3.
    destruct (span_digits_spec _ _ _ S3) as (-> & Dsf & _).
    destruct (Lrc.is_empty sf); [discriminate|].
    destruct (Lrc.expect "]" r5) as [r|] eqn:E4; [|discriminate].
    apply expect_some in E4. subst r5. intros [= <-]. simpl Lrc.tag_length.
    apply no_bracket_prefix_app; [exact Dm|].
    apply no_bracket_prefix_cons; [discriminate|].
    apply no_bracket_prefix_app; [exact Dsi|].
    apply no_bracket_prefix_cons; [discriminate|].
    apply no_bracket_prefix_app; [exact Dsf|].
    apply no_bracket_prefix_cons; [discriminate|].
    replace (_ - 1)%nat with 0%nat by lia. apply no_bracket_prefix_zero.
Qed.

Lemma scan_finds_late_tag (p q : string) (k : nat) :
  no_bracket_prefix k (p ++ Sample.late_tag ++ q) ->
  In (Lrc.Tag Sample.late) (Lrc.scan k (p ++ Sample.late_tag ++ q)).
Proof.
  revert k. induction p as [|c p IH]; intros k H.
  - destruct k as [|k].
    + left. reflexivity.
    + simpl in H. destruct H as [H _]. congruence.
  - change ((String c p ++ Sample.late_tag ++ q)%string)
      with (String c (p ++ Sample.late_tag ++ q)) in *.
    cbn [Lrc.scan]. destruct k as [|k].
    + destruct (Lrc.match_tag _) as [t|] eqn:M.
      * right. apply IH. apply (match_tag_no_bracket _ _ _ M).
      * right. apply IH. apply no_bracket_prefix_zero.
    + apply IH. simpl in H. apply H.
Qed.

Lemma no_nl_late_tag : no_nl Sample.late_tag.
Proof. repeat split. Qed.

Lemma split_nl_head (t post : string) :
  no_nl t -> exists q rest, Str.split_nl (t ++ post) = (t ++ q)%string :: rest.
Proof.
  induction t as [|c t IH]; intro H.
  - simpl. destruct post as [|c r]; simpl.
    + exists EmptyString, []. reflexivity.
    + destruct (Ascii.eqb c Str.nl).
      * exists EmptyString. eexists. reflexivity.
      * destruct (Str.split_nl r) as [|h tl]; eexists; eexists; reflexivity.
  - destruct H as [Hc Ht]. destruct (IH Ht) as (q & rest & E).
    simpl. rewrite Hc, E. exists q, rest. reflexivity.
Qed.

Lemma split_nl_contains (pre t post : string) :
  no_nl t ->
  exists p q, In (p ++ t ++ q)%string (Str.split_nl (pre ++ t ++ post)).
Proof.
  intro H. induction pre as [|c pre IH].
  - destruct (split_nl_head t post H) as (q & rest & E).
    exists EmptyString, q. simpl. rewrite E. left. reflexivity.
  - destruct IH as (p & q & Hin). simpl.
    destruct (Ascii.eqb c Str.nl).
    + exists p, q. right. exact Hin.
    + destruct (Str.split_nl (pre ++ t ++ post)) as [|h tl]; [destruct Hin|].
      destruct Hin as [->|Hin].
      * exists (String c p), q. left. reflexivity.
      * exists p, q. right. exact Hin.
Qed.


Lemma matchAll_pieces_in (t : Lrc.tag) (ps : list Lrc.piece) :
  In (Lrc.Tag t) ps -> In t (Lrc.matchAll_pieces ps).
Proof.
  induction ps as [|[t'|c] ps IH]; simpl; [tauto| |].
  - intros [[= ->]|H]; [left; reflexivity|right; exact (IH H)].
  - intros [H|H]; [discriminate|exact (IH H)].
Qed.

Lemma push_tags_keep (line : string) (ms : list Lrc.tag)
  (acc : list Entry.t * Q) (e : Entry.t) :
  In e (fst acc) -> In e (fst (fold_left (Lrc.push_tag line) ms acc)).
Proof.
  revert acc. induction ms as [|m ms IH]; intros acc H; [exact H|].
  simpl. apply IH. unfold Lrc.push_tag. destruct (_ || _); [|exact H].
  simpl. apply in_or_app. left. exact H.
Qed.

Lemma parse_line_keeps (line : string) (acc : list Entry.t * Q) (e : Entry.t) :
  In e (fst acc) -> In e (fst (Lrc.parse_line acc line)).
Proof. apply push_tags_keep. Qed.

Lemma parse_line_pushes (line : string) (acc : list Entry.t * Q) (m : Lrc.tag) :
  In m (Lrc.matchAll line) ->
  JS.Qlt_bool 0 (Lrc.timeInSeconds m) = true ->
  In (Entry.mk (Lrc.timeInSeconds m) (Str.trim (Lrc.strip_tags line)))
     (fst (Lrc.parse_line acc line)).
Proof.
  intros Hin Hpos. unfold Lrc.parse_line. revert acc.
  induction (Lrc.matchAll line) as [|x ms IH]; intro acc; [destruct Hin|].
  destruct Hin as [->|Hin]; [|apply IH; exact Hin].
  simpl. apply push_tags_keep. unfold Lrc.push_tag.
  rewrite Hpos, orb_true_r. simpl.
  apply in_or_app. right. left. reflexivity.
Qed.

Lemma parse_lines_keep (lines : list string) (acc : list Entry.t * Q)
  (e : Entry.t) :
  In e (fst acc) -> In e (fst (fold_left Lrc.parse_line lines acc)).
Proof.
  revert acc. induction lines as [|l ls IH]; intros acc H; [exact H|].
  simpl. apply IH. apply parse_line_keeps. exact H.
Qed.

Lemma parse_lines_push (lines : list string) (line : string) (e : Entry.t) :
  In line lines ->
  (forall acc, In e (fst (Lrc.parse_line acc line))) ->
  forall acc, In e (fst (fold_left Lrc.parse_line lines acc)).
Proof.
  intros Hin He. induction lines as [|l ls IH]; intro acc; [destruct Hin|].
  destruct Hin as [->|Hin]; simpl.
  - apply parse_lines_keep. apply He.
  - apply IH. exact Hin.
Qed.

Lemma map_set_has (e : Entry.t) (m : list Entry.t) : In e (Lrc.map_set e m).
Proof.
  induction m as [|y m IH]; simpl; [left; reflexivity|].
  destruct (Lrc.same_key e y); [left; reflexivity|right; exact IH].
Qed.

Lemma map_set_keeps_time (x : Entry.t) (m : list Entry.t) (t : Q) :
  (exists e, In e m /\ Entry.time e == t) ->
  exists e, In e (Lrc.map_set x m) /\ Entry.time e == t.
Proof.
  induction m as [|y m IH]; intros (e & He & Ht); [destruct He|].
  simpl. destruct (Lrc.same_key x y) eqn:K.
  - destruct He as [->|He].
    + exists x. split; [left; reflexivity|].
      unfold Lrc.same_key in K. apply andb_true_iff in K. destruct K as [K _].
      apply Qeq_bool_iff in K. rewrite K. exact Ht.
    + exists e. split; [right; exact He|exact Ht].
  - destruct He as [->|He].
    + exists e. split; [left; reflexivity|exact Ht].
    + destruct (IH (ex_intro _ e (conj He Ht))) as (e' & He' & Ht').
      exists e'. split; [right; exact He'|exact Ht'].
Qed.

Lemma unique_keeps_time (l : list Entry.t) (e : Entry.t) :
  In e l -> exists e', In e' (Lrc.unique l) /\ Entry.time e' == Entry.time e.
Proof.
  unfold Lrc.unique.
  assert (K : forall l0 m,
             (exists e', In e' m /\ Entry.time e' == Entry.time e) ->
             exists e', In e' (fold_left (fun m x => Lrc.map_set x m) l0 m)
                        /\ Entry.time e' == Entry.time e).
  { intro l0. induction l0 as [|x l0 IH]; intros m H; [exact H|].
    simpl. apply IH. apply map_set_keeps_time. exact H. }
  generalize (@nil Entry.t).
  induction l as [|x l IH]; intros m Hin; [destruct Hin|].
  destruct Hin as [->|Hin]; simpl.
  - apply K. exists e. split; [apply map_set_has|reflexivity].
  - apply IH. exact Hin.
Qed.

(** An entry parsed from any line survives, up to its text, to the end. *)
Lemma parseLRCFile_keeps_time (text line : string) (m : Lrc.tag) :
  In line (Str.split_nl text) ->
  JS.str_truthy (Str.trim line) = true ->
  In m (Lrc.matchAll line) ->
  0 < Lrc.timeInSeconds m ->
  exists e, In e (fst (Lrc.parseLRCFile text))
            /\ Entry.time e == Lrc.timeInSeconds m.
Proof.
  intros Hl Ht Hm Hpos. unfold Lrc.parseLRCFile.
  set (lines := filter _ _).
  assert (Hin : In line lines) by (apply filter_In; split; assumption).
  pose proof (parse_lines_push lines line _ Hin
                (fun acc => parse_line_pushes line acc m Hm
                              (proj2 (Qlt_bool_true _ _) Hpos)) ([], 0)) as P.
  destruct (fold_left Lrc.parse_line lines ([], 0)) as [entries maxTime].
  simpl in *. destruct (unique_keeps_time _ _ P) as (e' & He' & Hte').
  exists e'. split; [apply sort_by_time_in; exact He'|exact Hte'].
Qed.

Lemma late_tag_survives (pre post : string) :
  exists e, In e (fst (Lrc.parseLRCFile (pre ++ Sample.late_tag ++ post)))
            /\ Entry.time e == 15.
Proof.
  destruct (split_nl_contains pre Sample.late_tag post no_nl_late_tag)
    as (p & q & Hin).
  apply (parseLRCFile_keeps_time _ (p ++ Sample.late_tag ++ q) Sample.late Hin).
  - apply (trim_nonempty p "[" ("00:15.00]hello" ++ q)). exact bracket_solid.
  - apply matchAll_pieces_in. apply scan_finds_late_tag.
    apply no_bracket_prefix_zero.
  - reflexivity.
Qed.

(** C6.  With a known duration (greater than 0), an import whose
    surviving entries include one later than the duration is rejected
    with a duration mismatch that names the latest time and the
    duration, and the state (segments, text blocks and all the rest) is
    the one before the import.  So it is with a duration of 10 and any
    input that contains [00:15.00]hello. *)
Theorem handleLrcImport_duration_mismatch
  (uuid : nat -> string) (st : AppState) :
  (forall text e,
      0 < duration st ->
      In e (fst (Lrc.parseLRCFile text)) ->
      duration st < Entry.time e ->
      Lrc.handleLrcImport uuid text st
      = (st, Lrc.DurationMismatch (snd (Lrc.parseLRCFile text)) (duration st)))
  /\ (forall pre post,
        duration st = 10 ->
        Lrc.handleLrcImport uuid (pre ++ Sample.late_tag ++ post) st
        = (st, Lrc.DurationMismatch
                 (snd (Lrc.parseLRCFile (pre ++ Sample.late_tag ++ post)))
                 10)).
Proof.
  assert (G : forall text e,
             0 < duration st ->
             In e (fst (Lrc.parseLRCFile text)) ->
             duration st < Entry.time e ->
             Lrc.handleLrcImport uuid text st
             = (st, Lrc.DurationMismatch (snd (Lrc.parseLRCFile text))
                      (duration st))).
  { intros text e Hd He Hlt.
    pose proof (parseLRCFile_maxTime text e He) as Hmax.
    unfold Lrc.handleLrcImport.
    destruct (Lrc.parseLRCFile text) as [entries maxTime]. simpl in *.
    destruct entries as [|x r]; [destruct He|]. simpl.
    assert (A : JS.Qlt_bool 0 (duration st) = true)
      by (apply Qlt_bool_true; exact Hd).
    assert (B : JS.Qlt_bool (duration st) maxTime = true)
      by (apply Qlt_bool_true; lra).
    rewrite A, B. reflexivity. }
  split; [exact G|].
  intros pre post Hd.
  destruct (late_tag_survives pre post) as (e & He & Ht).
  rewrite <- Hd. apply (G _ e).
  - rewrite Hd. reflexivity.
  - exact He.
  - rewrite Hd, Ht. reflexivity.
Qed.

Lemma handleLrcImport_duration_mismatch_witness :
  Lrc.handleLrcImport (fun _ => "id") "[00:03.00]a[01:15.20]" Sample.timeline
  = (Sample.timeline, Lrc.DurationMismatch (Num.double (376 # 5)) 10)
  /\ Lrc.handleLrcImport (fun _ => "id") Sample.late_tag Sample.timeline
     = (Sample.timeline, Lrc.DurationMismatch 15 10).
Proof.
  split.
  - replace (Num.double (376 # 5))
      with (snd (Lrc.parseLRCFile "[00:03.00]a[01:15.20]"))
      by (vm_compute; reflexivity).
    apply (proj1 (handleLrcImport_duration_mismatch (fun _ => "id")
                    Sample.timeline)
             "[00:03.00]a[01:15.20]" (Entry.mk (Num.double (376 # 5)) "a")
             ltac:(reflexivity)
             ltac:(vm_compute; right; left; reflexivity)
             ltac:(vm_compute; reflexivity)).
  - change 15
      with (snd (Lrc.parseLRCFile (EmptyString ++ Sample.late_tag ++ EmptyString))).
    apply (proj2 (handleLrcImport_duration_mismatch (fun _ => "id")
                    Sample.timeline)
             EmptyString EmptyString ltac:(reflexivity)).
Defined.

(** ** The decode example *)

(** C3, as the specification states it, fails: both tags of the line
    carry the text of the line with all tags removed, so the second
    entry has the text Hi and not the empty text, and the segment
    starting at 8.5 is assigned. *)
Lemma decode_example_counterexample :
  fst (Lrc.parseLRCFile Sample.two_tags)
  <> [Entry.mk 5 "Hi"; Entry.mk (17 # 2) EmptyString]
  /\ map VideoSegment.textId
       (segments (fst (Lrc.handleLrcImport Sample.uuid Sample.two_tags
                         Sample.timeline)))
     <> [None; Some (Sample.uuid 0); None].
Proof. split; vm_compute; discriminate. Qed.

(** C3, amended.  The line [00:05.00]Hi[00:08.50] decodes to the two
    entries (5, Hi) and (8.5, Hi).  With a duration of 10 the boundaries
    are 0, 5, 8.5 and 10; the library gets two blocks with the text Hi;
    of the three segments the one starting at 0 is unassigned, and the
    ones starting at 5 and at 8.5 both reference the first block. *)
Theorem decode_example (uuid : nat -> string) (st : AppState) :
  duration st = 10 ->
  uuid 0%nat <> EmptyString ->
  Lrc.parseLRCFile Sample.two_tags
  = ([Entry.mk 5 "Hi"; Entry.mk (17 # 2) "Hi"], 17 # 2)
  /\ Lrc.allTimes 10 (fst (Lrc.parseLRCFile Sample.two_tags))
     = [0; 5; 17 # 2; 10]
  /\ Lrc.handleLrcImport uuid Sample.two_tags st
     = (mkApp 10 (currentTime st)
          [TextBlock.mk (uuid 0%nat) "Hi"; TextBlock.mk (uuid 1%nat) "Hi"]
          [VideoSegment.mk (uuid 2%nat) 0 5 None;
           VideoSegment.mk (uuid 3%nat) 5 (17 # 2) (Some (uuid 0%nat));
           VideoSegment.mk (uuid 4%nat) (17 # 2) 10 (Some (uuid 0%nat))]
          (17 # 2) false,
        Lrc.Imported 2 2).
Proof.
  intros Hd Hu.
  assert (P : Lrc.parseLRCFile Sample.two_tags
              = ([Entry.mk 5 "Hi"; Entry.mk (17 # 2) "Hi"], 17 # 2))
    by (vm_compute; reflexivity).
  split; [exact P|]. split; [rewrite P; vm_compute; reflexivity|].
  unfold Lrc.handleLrcImport. rewrite P. destruct st as [d c tb sg ld im].
  simpl in Hd. subst d.
  cbv [List.length Nat.eqb duration].
  change (JS.Qlt_bool 0 10) with true.
  change (JS.Qlt_bool 10 (17 # 2)) with false.
  cbv [andb]. unfold setLrcDuration, setSegments, setTextBlocks, setImportingLrc.
  cbn [duration currentTime textBlocks segments lrcDuration importingLrc].
  f_equal. f_equal.
  unfold Lrc.newSegments. 
  change (Lrc.newTextBlocks uuid [Entry.mk 5 "Hi"; Entry.mk (17 # 2) "Hi"])
    with [TextBlock.mk (uuid 0%nat) "Hi"; TextBlock.mk (uuid 1%nat) "Hi"].
  change (Lrc.allTimes 10 [Entry.mk 5 "Hi"; Entry.mk (17 # 2) "Hi"])
    with [0; 5; 17 # 2; 10].
  cbn [Lrc.build_segments List.length].
  assert (T0 : forall bl, Lrc.segment_textId
                 [Entry.mk 5 "Hi"; Entry.mk (17 # 2) "Hi"] bl 0 = None)
    by reflexivity.
  assert (T : forall t e,
             Lrc.entry_near [Entry.mk 5 "Hi"; Entry.mk (17 # 2) "Hi"] t
             = Some e -> Entry.text e = "Hi" ->
             Lrc.segment_textId [Entry.mk 5 "Hi"; Entry.mk (17 # 2) "Hi"]
               [TextBlock.mk (uuid 0%nat) "Hi"; TextBlock.mk (uuid 1%nat) "Hi"]
               t = Some (uuid 0%nat)).
  { intros t e Hn Ht. unfold Lrc.segment_textId. rewrite Hn, Ht. simpl.
    unfold JS.or_else. rewrite truthy_some by exact Hu. reflexivity. }
  rewrite T0.
  rewrite (T 5 (Entry.mk 5 "Hi")) by reflexivity.
  rewrite (T (17 # 2) (Entry.mk (17 # 2) "Hi")) by reflexivity.
  reflexivity.
Qed.

Lemma decode_example_witness :
  Lrc.handleLrcImport Sample.uuid Sample.two_tags Sample.timeline
  = (mkApp 10 7
       [TextBlock.mk "u0" "Hi"; TextBlock.mk "u1" "Hi"]
       [VideoSegment.mk "u2" 0 5 None;
        VideoSegment.mk "u3" 5 (17 # 2) (Some "u0");
        VideoSegment.mk "u4" (17 # 2) 10 (Some "u0")]
       (17 # 2) false,
     Lrc.Imported 2 2).
Proof.
  apply (proj2 (proj2 (decode_example Sample.uuid Sample.timeline
                         ltac:(reflexivity) ltac:(discriminate)))).
Defined.

(** ** Import with two texts at one time *)

(** C2 on the code: two lines with the same time stamp and different
    texts both survive (entries are de-duplicated by time and text
    together), so the boundary 5 occurs twice and the second of the
    three segments built is the empty interval from 5 to 5: the
    boundaries are not de-duplicated, a segment has startTime equal to
    endTime, and the segment list is not a partition. *)
Theorem decode_same_time_empty_segment :
  let st' := fst (Lrc.handleLrcImport Sample.uuid Sample.same_time
                    Sample.timeline) in
  fst (Lrc.parseLRCFile Sample.same_time)
  = [Entry.mk 5 "A"; Entry.mk 5 "B"]
  /\ Lrc.allTimes 10 (fst (Lrc.parseLRCFile Sample.same_time)) = [0; 5; 5; 10]
  /\ segments st'
     = [VideoSegment.mk "u2" 0 5 None;
        VideoSegment.mk "u3" 5 5 (Some "u0");
        VideoSegment.mk "u4" 5 10 (Some "u0")]
  /\ ~ nonempty_intervals (segments st')
  /\ ~ sorted_by_startTime (segments st')
  /\ ~ partition_invariant (duration st') (segments st').
Proof.
  assert (S : segments (fst (Lrc.handleLrcImport Sample.uuid Sample.same_time
                               Sample.timeline))
              = [VideoSegment.mk "u2" 0 5 None;
                 VideoSegment.mk "u3" 5 5 (Some "u0");
                 VideoSegment.mk "u4" 5 10 (Some "u0")])
    by (vm_compute; reflexivity).
  cbv zeta. rewrite S.
  assert (N : ~ nonempty_intervals
                [VideoSegment.mk "u2" 0 5 None;
                 VideoSegment.mk "u3" 5 5 (Some "u0");
                 VideoSegment.mk "u4" 5 10 (Some "u0")]).
  { intro H. specialize (H (VideoSegment.mk "u3" 5 5 (Some "u0"))
                           (or_intror (or_introl eq_refl))).
    revert H. apply Qlt_irrefl. }
  split; [vm_compute; reflexivity|]. split; [vm_compute; reflexivity|].
  split; [reflexivity|]. split; [exact N|]. split.
  - intro H.
    specialize (H 1%nat 2%nat (VideoSegment.mk "u3" 5 5 (Some "u0"))
                  (VideoSegment.mk "u4" 5 10 (Some "u0"))
                  ltac:(lia) eq_refl eq_refl).
    revert H. apply Qlt_irrefl.
  - intros (_ & _ & _ & H). exact (N H).
Qed.

(** ** Import: the text reference of a built segment *)

Lemma find_first {A : Type} (p : A -> bool) (l : list A) (x : A) :
  find p l = Some x ->
  exists k, nth_error l k = Some x /\ p x = true
            /\ forall j y, (j < k)%nat -> nth_error l j = Some y -> p y = false.
Proof.
  induction l as [|a l IH]; simpl; [discriminate|].
  destruct (p a) eqn:E.
  - intros [= <-]. exists 0%nat. repeat split; [exact E|]. intros j y Hj. lia.
  - intro H. destruct (IH H) as (k & Hk & Hp & Hmin).
    exists (S k). repeat split; [exact Hk|exact Hp|].
    intros [|j] y Hj Hy; simpl in Hy.
    + injection Hy as <-. exact E.
    + apply (Hmin j y); [lia|exact Hy].
Qed.

Lemma find_text_first (blocks : list TextBlock.t) (t : string) (b : TextBlock.t) :
  find (fun b => (TextBlock.text b =? t)%string) blocks = Some b ->
  first_with_text blocks t b.
Proof.
  intro H. destruct (find_first _ _ _ H) as (k & Hk & Hp & Hmin).
  exists k. repeat split; [exact Hk|apply String.eqb_eq; exact Hp|].
  intros j b' Hj Hb' E. apply String.eqb_eq in E.
  rewrite (Hmin j b' Hj Hb') in E. discriminate.
Qed.

Lemma first_with_text_unique (blocks : list TextBlock.t) (t : string)
  (b b' : TextBlock.t) :
  first_with_text blocks t b -> first_with_text blocks t b' -> b = b'.
Proof.
  intros (k & Hk & Ht & Hmin) (k' & Hk' & Ht' & Hmin').
  destruct (Nat.lt_trichotomy k k') as [L|[E|L]].
  - destruct (Hmin' k b L Hk Ht).
  - subst k'. congruence.
  - destruct (Hmin k' b' L Hk' Ht').
Qed.

Lemma str_truthy_nonempty (s : string) :
  JS.str_truthy s = true <-> s <> EmptyString.
Proof. destruct s; simpl; split; congruence. Qed.

Lemma segment_textId_some (entries : list Entry.t) (blocks : list TextBlock.t)
  (t : Q) (i : string) :
  Lrc.segment_textId entries blocks t = Some i ->
  exists e b,
    Lrc.entry_near entries t = Some e
    /\ Entry.text e <> EmptyString
    /\ first_with_text blocks (Entry.text e) b
    /\ TextBlock.id b = i.
Proof.
  unfold Lrc.segment_textId.
  destruct (Lrc.entry_near entries t) as [e|]; [|discriminate].
  destruct (JS.str_truthy (Entry.text e)) eqn:T; [|discriminate].
  destruct (find _ blocks) as [b|] eqn:F; [|discriminate].
  simpl. unfold JS.or_else. destruct (JS.truthy _); [|discriminate].
  intros [= <-]. exists e, b. repeat split.
  - apply str_truthy_nonempty. exact T.
  - apply find_text_first. exact F.
Qed.

Lemma segment_textId_found (entries : list Entry.t) (blocks : list TextBlock.t)
  (t : Q) (e : Entry.t) (b : TextBlock.t) :
  Lrc.entry_near entries t = Some e ->
  Entry.text e <> EmptyString ->
  find (fun b => (TextBlock.text b =? Entry.text e)%string) blocks = Some b ->
  TextBlock.id b <> EmptyString ->
  Lrc.segment_textId entries blocks t = Some (TextBlock.id b).
Proof.
  intros Hn Ht Hf Hi. unfold Lrc.segment_textId. rewrite Hn.
  apply str_truthy_nonempty in Ht. rewrite Ht, Hf. simpl.
  unfold JS.or_else. rewrite truthy_some by exact Hi. reflexivity.
Qed.

Section ImportedBlocks.

(** The identifiers returned by [crypto.randomUUID()], in the order of
    the calls. *)
Variable uuid : nat -> string.

Lemma build_segments_textId (entries : list Entry.t)
  (blocks : list TextBlock.t) (times : list Q) (k : nat) (s : VideoSegment.t) :
  In s (Lrc.build_segments uuid k entries blocks times) ->
  VideoSegment.textId s
  = Lrc.segment_textId entries blocks (VideoSegment.startTime s).
Proof.
  revert k. induction times as [|a [|b r] IH]; intros k H; try destruct H.
  - subst s. reflexivity.
  - apply (IH (S k)). exact H.
Qed.

Lemma number_blocks_nth (l : list Entry.t)
  (k0 k : nat) (b : TextBlock.t) :
  nth_error (Lrc.number_blocks uuid k0 l) k = Some b ->
  TextBlock.id b = uuid (k0 + k)%nat.
Proof.
  revert k0 k. induction l as [|e l IH]; intros k0 [|k] H; simpl in H;
    try discriminate.
  - injection H as <-. simpl. f_equal. lia.
  - rewrite (IH (S k0) k H). f_equal. lia.
Qed.

Lemma number_blocks_text (l : list Entry.t)
  (k0 : nat) (e : Entry.t) :
  In e l ->
  exists b, In b (Lrc.number_blocks uuid k0 l)
            /\ TextBlock.text b = Entry.text e.
Proof.
  revert k0. induction l as [|x l IH]; intros k0 H; [destruct H|].
  destruct H as [->|H].
  - eexists. split; [left; reflexivity|reflexivity].
  - destruct (IH (S k0) H) as (b & Hb & Ht).
    exists b. split; [right; exact Hb|exact Ht].
Qed.

Lemma newTextBlocks_has_text (entries : list Entry.t)
  (e : Entry.t) :
  In e entries -> Entry.text e <> EmptyString ->
  exists b,
    find (fun b => (TextBlock.text b =? Entry.text e)%string)
         (Lrc.newTextBlocks uuid entries) = Some b.
Proof.
  intros He Ht. unfold Lrc.newTextBlocks.
  destruct (number_blocks_text
              (filter (fun e => (0 <? String.length (Entry.text e))%nat) entries)
              0 e) as (b & Hb & Hbt).
  { apply filter_In. split; [exact He|].
    destruct (Entry.text e); [congruence|reflexivity]. }
  destruct (find _ _) as [b'|] eqn:F; [exists b'; reflexivity|].
  pose proof (find_none _ _ F b Hb) as N. simpl in N.
  rewrite Hbt, String.eqb_refl in N. discriminate.
Qed.

Lemma newTextBlocks_id (entries : list Entry.t)
  (k : nat) (b : TextBlock.t) :
  nth_error (Lrc.newTextBlocks uuid entries) k = Some b ->
  TextBlock.id b = uuid k.
Proof. intro H. apply (number_blocks_nth _ 0 k b H). Qed.

(** What a successful import with a known duration installs. *)
Lemma handleLrcImport_installed (text : string)
  (st st' : AppState) (n m : nat) :
  0 < duration st ->
  Lrc.handleLrcImport uuid text st = (st', Lrc.Imported n m) ->
  segments st'
  = Lrc.newSegments uuid (duration st) (fst (Lrc.parseLRCFile text))
  /\ textBlocks st' = Lrc.newTextBlocks uuid (fst (Lrc.parseLRCFile text))
  /\ duration st' = duration st.
Proof.
  intros Hd. unfold Lrc.handleLrcImport.
  destruct (Lrc.parseLRCFile text) as [entries maxTime]. simpl.
  destruct (List.length entries =? 0)%nat; [discriminate|].
  apply Qlt_bool_true in Hd. rewrite Hd. simpl.
  destruct (JS.Qlt_bool (duration st) maxTime); [discriminate|].
  intros [= <- _ _]. repeat split.
Qed.

End ImportedBlocks.

(** ** Import: the entry matched to a segment *)

Lemma within_tolerance_test (e : Entry.t) (t : Q) :
  JS.Qlt_bool (Num.abs (Num.sub (Entry.time e) t)) (Num.double (1 # 100))
  = true
  <-> within_tolerance e t.
Proof. apply Qlt_bool_true. Qed.

Lemma entry_near_first (entries : list Entry.t) (t : Q) (e : Entry.t) :
  Lrc.entry_near entries t = Some e <-> first_within entries t e.
Proof.
  unfold Lrc.entry_near, first_within. split.
  - intro H. destruct (find_first _ _ _ H) as (k & Hk & Hp & Hmin).
    exists k. split; [exact Hk|]. split; [apply within_tolerance_test; exact Hp|].
    intros j e' Hj He' W. apply within_tolerance_test in W.
    rewrite (Hmin j e' Hj He') in W. discriminate.
  - intros (k & Hk & W & Hmin). revert k Hk Hmin.
    induction entries as [|x l IH]; intros [|k] Hk Hmin; simpl in Hk;
      try discriminate.
    + injection Hk as ->. simpl.
      rewrite (proj2 (within_tolerance_test e t) W). reflexivity.
    + simpl.
      destruct (JS.Qlt_bool (Num.abs (Num.sub (Entry.time x) t))
                            (Num.double (1 # 100))) eqn:E.
      * apply within_tolerance_test in E.
        destruct (Hmin 0%nat x ltac:(lia) eq_refl E).
      * apply (IH k Hk). intros j e' Hj He'.
        apply (Hmin (S j) e'); [lia|exact He'].
Qed.

Lemma entry_near_none (entries : list Entry.t) (t : Q) :
  (forall e, In e entries -> ~ within_tolerance e t) ->
  Lrc.entry_near entries t = None.
Proof.
  intro H. unfold Lrc.entry_near.
  destruct (find _ entries) as [e|] eqn:F; [|reflexivity].
  destruct (find_some _ _ F) as [Hin Hp].
  apply within_tolerance_test in Hp. destruct (H e Hin Hp).
Qed.

Lemma within_tolerance_same (e : Entry.t) : within_tolerance e (Entry.time e).
Proof.
  unfold within_tolerance, Num.sub, Num.double.
  assert (Z : Qred (Entry.time e - Entry.time e) = 0).
  { change 0 with (Qred 0). apply Qred_complete. ring. }
  rewrite Z. reflexivity.
Qed.

(** The test is the one of the doubles: 5.01 is within the tolerance of
    5, although the two numerals are a hundredth apart. *)
Lemma within_tolerance_doubles :
  within_tolerance (Entry.mk 5 "A") (Num.double (501 # 100))
  /\ ~ Qabs (5 - (501 # 100)) < 1 # 100.
Proof. split; [reflexivity|discriminate]. Qed.

(** So with two lines a hundredth apart the segment of the second line
    is matched to the entry of the first one. *)
Lemma decode_hundredth_apart :
  map VideoSegment.textId
    (segments (fst (Lrc.handleLrcImport Sample.uuid Sample.hundredth_apart
                      Sample.timeline)))
  = [None; Some "u0"; Some "u0"].
Proof. vm_compute. reflexivity. Qed.

Lemma build_segments_starts (uuid : nat -> string) (entries : list Entry.t)
  (blocks : list TextBlock.t) (times : list Q) (k : nat) :
  map VideoSegment.startTime (Lrc.build_segments uuid k entries blocks times)
  = removelast times.
Proof.
  revert k. induction times as [|a [|b r] IH]; intro k; try reflexivity.
  change (Lrc.build_segments uuid k entries blocks (a :: b :: r))
    with (VideoSegment.mk (uuid k) a b (Lrc.segment_textId entries blocks a)
          :: Lrc.build_segments uuid (S k) entries blocks (b :: r)).
  cbn [map VideoSegment.startTime]. rewrite (IH (S k)). reflexivity.
Qed.

(** C10, as stated, fails: the entry matched to a segment is the first
    one, in sorted order, within 0.01 s of the segment's start, which
    need not be the entry at that time.  Here the entries (5, A) and
    (8.5, A) share their text, and the segment starting at 8.5
    references the block of the entry (8.496, X). *)
Lemma decode_shared_text_counterexample :
  let st' := fst (Lrc.handleLrcImport Sample.uuid Sample.near_time
                    Sample.timeline) in
  fst (Lrc.parseLRCFile Sample.near_time)
  = [Entry.mk 5 "A"; Entry.mk (Num.double (1062 # 125)) "X";
     Entry.mk (17 # 2) "A"]
  /\ textBlocks st'
     = [TextBlock.mk "u0" "A"; TextBlock.mk "u1" "X"; TextBlock.mk "u2" "A"]
  /\ ~ (forall s, In s (segments st') ->
                  VideoSegment.startTime s == 5
                  \/ VideoSegment.startTime s == 17 # 2 ->
                  VideoSegment.textId s = Some "u0").
Proof.
  cbv zeta. split; [vm_compute; reflexivity|]. split; [vm_compute; reflexivity|].
  intro H.
  specialize (H (VideoSegment.mk "u6" (17 # 2) 10 (Some "u1"))).
  assert (I : In (VideoSegment.mk "u6" (17 # 2) 10 (Some "u1"))
                (segments (fst (Lrc.handleLrcImport Sample.uuid
                                  Sample.near_time Sample.timeline)))).
  { vm_compute. right. right. right. left. reflexivity. }
  specialize (H I (or_intror (Qeq_refl _))). discriminate H.
Qed.

(** C10, amended.  After an import with a known duration, the entry
    matched to a segment is the first entry, in sorted order, whose
    time is within 0.01 s of the segment's start (the difference being
    the one the doubles give).  A segment with a text reference has a
    matched entry with a text and references the first block of the new
    library with that text; a segment whose matched entry has a text
    references that block; a segment without entry within the tolerance,
    or whose matched entry has no text, has no reference.  So two
    segments whose matched entries have the same text have the same
    reference, whatever the times of these entries, and a block that
    comes after another block with the same text is referenced by no
    segment.  Every entry strictly inside the video starts a segment and
    is within the tolerance of it, so this segment has a matched entry:
    that one, or an earlier one within the tolerance.  (Identifiers are
    never empty and never repeated.) *)
Theorem decode_references_first_block
  (uuid : nat -> string) (text : string) (st st' : AppState) (n m : nat) :
  (forall k, uuid k <> EmptyString) ->
  (forall j k, uuid j = uuid k -> j = k) ->
  0 < duration st ->
  Lrc.handleLrcImport uuid text st = (st', Lrc.Imported n m) ->
  let entries := fst (Lrc.parseLRCFile text) in
  let near (e : Entry.t) (s : VideoSegment.t) :=
    Qabs (Num.sub (Entry.time e) (VideoSegment.startTime s))
    < Num.double (1 # 100) in
  let matched (s : VideoSegment.t) (e : Entry.t) :=
    exists k,
      nth_error entries k = Some e /\ near e s
      /\ forall j e', (j < k)%nat -> nth_error entries j = Some e' ->
                      ~ near e' s in
  (forall s i,
      In s (segments st') -> VideoSegment.textId s = Some i ->
      exists e b,
        matched s e /\ Entry.text e <> EmptyString
        /\ first_with_text (textBlocks st') (Entry.text e) b
        /\ TextBlock.id b = i)
  /\ (forall s e,
        In s (segments st') -> matched s e ->
        Entry.text e <> EmptyString ->
        exists b,
          first_with_text (textBlocks st') (Entry.text e) b
          /\ VideoSegment.textId s = Some (TextBlock.id b))
  /\ (forall s e,
        In s (segments st') -> matched s e ->
        Entry.text e = EmptyString -> VideoSegment.textId s = None)
  /\ (forall s,
        In s (segments st') ->
        (forall e, In e entries -> ~ near e s) ->
        VideoSegment.textId s = None)
  /\ (forall s1 s2 e1 e2,
        In s1 (segments st') -> In s2 (segments st') ->
        matched s1 e1 -> matched s2 e2 ->
        Entry.text e1 = Entry.text e2 -> Entry.text e1 <> EmptyString ->
        VideoSegment.textId s1 = VideoSegment.textId s2)
  /\ (forall j k bj bk s,
        (j < k)%nat ->
        nth_error (textBlocks st') j = Some bj ->
        nth_error (textBlocks st') k = Some bk ->
        TextBlock.text bj = TextBlock.text bk ->
        In s (segments st') ->
        VideoSegment.textId s <> Some (TextBlock.id bk))
  /\ (forall e,
        In e entries -> 0 < Entry.time e -> Entry.time e < duration st ->
        exists s e',
          In s (segments st') /\ VideoSegment.startTime s = Entry.time e
          /\ near e s /\ matched s e').
Proof.
  intros Hne Hinj Hd Himp entries near matched.
  destruct (handleLrcImport_installed _ _ _ _ _ _ Hd Himp) as (Hs & Hb & _).
  fold entries in Hs, Hb. rewrite Hs, Hb. unfold Lrc.newSegments.
  set (blocks := Lrc.newTextBlocks uuid entries).
  set (segs := Lrc.build_segments uuid (List.length blocks) entries blocks
                 (Lrc.allTimes (duration st) entries)).
  assert (M : forall s e,
             matched s e
             <-> Lrc.entry_near entries (VideoSegment.startTime s) = Some e).
  { intros s e. symmetry. apply entry_near_first. }
  assert (T : forall s, In s segs ->
               VideoSegment.textId s
               = Lrc.segment_textId entries blocks (VideoSegment.startTime s)).
  { intros s Hin. apply (build_segments_textId _ _ _ _ _ _ Hin). }
  assert (A : forall s i,
             In s segs -> VideoSegment.textId s = Some i ->
             exists e b,
               matched s e /\ Entry.text e <> EmptyString
               /\ first_with_text blocks (Entry.text e) b
               /\ TextBlock.id b = i).
  { intros s i Hin Ht. rewrite (T s Hin) in Ht.
    destruct (segment_textId_some _ _ _ _ Ht) as (e & b & H1 & H2 & H3 & H4).
    exists e, b. split; [apply M; exact H1|]. repeat split; assumption. }
  assert (B : forall s e,
             In s segs -> matched s e -> Entry.text e <> EmptyString ->
             exists b,
               first_with_text blocks (Entry.text e) b
               /\ VideoSegment.textId s = Some (TextBlock.id b)).
  { intros s e Hin Hm Ht. apply M in Hm.
    assert (He : In e entries) by (apply (find_some _ _ Hm)).
    destruct (newTextBlocks_has_text uuid entries e He Ht) as (b & Hf).
    fold blocks in Hf. exists b. split; [apply find_text_first; exact Hf|].
    rewrite (T s Hin).
    apply (segment_textId_found _ _ _ e b Hm Ht Hf).
    destruct (find_text_first _ _ _ Hf) as (k & Hk & _).
    rewrite (newTextBlocks_id _ _ _ _ Hk). apply Hne. }
  split; [exact A|]. split; [exact B|]. split; [|split; [|split; [|split]]].
  - intros s e Hin Hm Ht. apply M in Hm. rewrite (T s Hin).
    unfold Lrc.segment_textId. rewrite Hm, Ht. reflexivity.
  - intros s Hin Hno. rewrite (T s Hin). unfold Lrc.segment_textId.
    rewrite (entry_near_none entries _ Hno). reflexivity.
  - intros s1 s2 e1 e2 H1 H2 M1 M2 E Tx.
    destruct (B s1 e1 H1 M1 Tx) as (b1 & F1 & R1).
    destruct (B s2 e2 H2 M2 ltac:(congruence)) as (b2 & F2 & R2).
    rewrite E in F1. rewrite (first_with_text_unique _ _ _ _ F1 F2) in R1.
    congruence.
  - intros j k bj bk s Hjk Hj Hk Et Hin Ht.
    destruct (A s _ Hin Ht) as (e & b & _ & _ & (k0 & Hk0 & Hbt & Hmin) & Hid).
    rewrite (newTextBlocks_id _ _ _ _ Hk0), (newTextBlocks_id _ _ _ _ Hk) in Hid.
    apply Hinj in Hid. subst k0.
    assert (b = bk) by congruence. subst b.
    apply (Hmin j bj Hjk Hj). congruence.
  - intros e He H0 H1.
    assert (Hin : In (Entry.time e)
                    (map VideoSegment.startTime segs)).
    { unfold segs. rewrite build_segments_starts. unfold Lrc.allTimes.
      change (0 :: ?l ++ [duration st]) with ((0 :: l) ++ [duration st]).
      rewrite removelast_last. right. apply filter_In. split.
      - apply in_map. exact He.
      - apply andb_true_iff. split; apply Qlt_bool_true; assumption. }
    apply in_map_iff in Hin. destruct Hin as (s & Es & Hin).
    assert (W : near e s).
    { unfold near. rewrite Es. apply within_tolerance_same. }
    destruct (Lrc.entry_near entries (VideoSegment.startTime s)) as [e'|] eqn:F.
    + exists s, e'. repeat split; [exact Hin|exact Es|exact W|].
      apply M. exact F.
    + exfalso. pose proof (find_none _ _ F e He) as N. cbv beta in N.
      apply (proj2 (within_tolerance_test e (VideoSegment.startTime s))) in W.
      congruence.
Qed.

Lemma sample_uuid_nonempty (k : nat) : Sample.uuid k <> EmptyString.
Proof. discriminate. Qed.

Lemma sample_uuid_injective (j k : nat) : Sample.uuid j = Sample.uuid k -> j = k.
Proof.
  unfold Sample.uuid. intros [= H].
  apply (f_equal Str.digits_val) in H. rewrite !N_toString_val in H. lia.
Qed.

Lemma decode_references_first_block_witness :
  Forall (fun s => VideoSegment.textId s <> Some "u2")
    (segments (fst (Lrc.handleLrcImport Sample.uuid Sample.near_time
                      Sample.timeline))).
Proof.
  apply Forall_forall. intros s Hs.
  pose proof (decode_references_first_block Sample.uuid Sample.near_time
                Sample.timeline
                (fst (Lrc.handleLrcImport Sample.uuid Sample.near_time
                        Sample.timeline))
                3 3 sample_uuid_nonempty sample_uuid_injective
                ltac:(reflexivity) ltac:(vm_compute; reflexivity))
    as (_ & _ & _ & _ & _ & H & _).
  apply (H 0%nat 2%nat (TextBlock.mk "u0" "A") (TextBlock.mk "u2" "A") s
           ltac:(lia) ltac:(reflexivity) ltac:(reflexivity)
           ltac:(reflexivity) Hs).
Defined.

(** ** Import: when the built segments are a partition *)

Lemma insert_by_time_sorted (e : Entry.t) (l : list Entry.t) :
  StronglySorted time_le l -> StronglySorted time_le (Lrc.insert_by_time e l).
Proof.
  induction l as [|x l IH]; intro H; simpl.
  - constructor; constructor.
  - destruct (Qle_bool (Entry.time e) (Entry.time x)) eqn:E.
    + apply Qle_bool_iff in E. constructor; [exact H|].
      constructor; [exact E|].
      inversion H as [|? ? _ F]; subst.
      eapply Forall_impl; [|exact F].
      intros a Ha. unfold time_le in *. lra.
    + inversion H as [|? ? S F]; subst. constructor; [apply IH; exact S|].
      apply Forall_forall. intros a Ha. apply insert_by_time_in in Ha.
      destruct Ha as [->|Ha].
      * unfold time_le. apply Qlt_le_weak. apply Qlt_bool_true.
        unfold JS.Qlt_bool. rewrite E. reflexivity.
      * rewrite Forall_forall in F. apply F. exact Ha.
Qed.

Lemma sort_by_time_sorted (l : list Entry.t) :
  StronglySorted time_le (Lrc.sort_by_time l).
Proof.
  induction l as [|e l IH]; simpl; [constructor|].
  apply insert_by_time_sorted. exact IH.
Qed.

Lemma parseLRCFile_sorted (text : string) :
  StronglySorted time_le (fst (Lrc.parseLRCFile text)).
Proof.
  unfold Lrc.parseLRCFile.
  destruct (fold_left _ _ _) as [entries maxTime]. simpl.
  apply sort_by_time_sorted.
Qed.

Lemma strictly_sorted_times (l : list Entry.t) :
  StronglySorted time_le l -> ForallOrdPairs time_differs l ->
  StronglySorted Qlt (map Entry.time l).
Proof.
  induction l as [|x l IH]; intros S D; simpl; [constructor|].
  inversion S as [|? ? S' F]; subst. inversion D as [|? ? F' D']; subst.
  constructor; [apply IH; assumption|].
  apply Forall_forall. intros t Ht. apply in_map_iff in Ht.
  destruct Ht as (a & <- & Ha).
  rewrite Forall_forall in F, F'. specialize (F a Ha). specialize (F' a Ha).
  unfold time_le, time_differs in *.
  destruct (Qlt_le_dec (Entry.time x) (Entry.time a)) as [L|L]; [exact L|].
  exfalso. apply F'. apply Qle_antisym; assumption.
Qed.

Lemma filter_strictly_sorted (f : Q -> bool) (l : list Q) :
  StronglySorted Qlt l -> StronglySorted Qlt (filter f l).
Proof.
  induction l as [|x l IH]; intro S; simpl; [constructor|].
  inversion S as [|? ? S' F]; subst.
  destruct (f x); [|apply IH; exact S'].
  constructor; [apply IH; exact S'|].
  apply Forall_forall. intros a Ha. apply filter_In in Ha.
  rewrite Forall_forall in F. apply F. apply Ha.
Qed.

(** A chain of boundaries from [a] to [d]. *)
Lemma boundaries_sorted (a d : Q) (inner : list Q) :
  StronglySorted Qlt inner ->
  (forall t, In t inner -> a < t /\ t < d) ->
  a < d ->
  Sorted Qlt (a :: inner ++ [d]).
Proof.
  revert a. induction inner as [|x inner IH]; intros a S B Had; simpl.
  - repeat constructor. exact Had.
  - inversion S as [|? ? S' F]; subst.
    destruct (B x (or_introl eq_refl)) as [B1 B2].
    constructor; [|constructor; exact B1].
    apply IH; [exact S'| |exact B2].
    intros t Ht. split; [|apply (B t); right; exact Ht].
    rewrite Forall_forall in F. apply F. exact Ht.
Qed.

Lemma last_cons_default (b a : Q) (r : list Q) : last (b :: r) a = last r b.
Proof.
  revert a b. induction r as [|c r IH]; intros a b; [reflexivity|].
  change (last (b :: c :: r) a) with (last (c :: r) a).
  rewrite (IH a c). symmetry. apply IH.
Qed.

Lemma build_segments_chained (uuid : nat -> string) (entries : list Entry.t)
  (blocks : list TextBlock.t) (times : list Q) (a : Q) (k : nat) :
  Sorted Qlt (a :: times) ->
  chained a (Lrc.build_segments uuid k entries blocks (a :: times))
          (last times a).
Proof.
  revert a k. induction times as [|b r IH]; intros a k S.
  - reflexivity.
  - inversion S as [|? ? S' H]; subst. inversion H; subst.
    cbn [Lrc.build_segments chained VideoSegment.startTime
         VideoSegment.endTime].
    repeat split; [assumption|].
    rewrite last_cons_default. apply IH. exact S'.
Qed.

(** An import with a known duration whose surviving entries all have
    different times builds a partition of the duration. *)
Lemma decode_partition_distinct_times (uuid : nat -> string) (text : string)
  (st st' : AppState) (n m : nat) :
  0 < duration st ->
  Lrc.handleLrcImport uuid text st = (st', Lrc.Imported n m) ->
  ForallOrdPairs time_differs (fst (Lrc.parseLRCFile text)) ->
  partition_invariant (duration st') (segments st').
Proof.
  intros Hd Himp D.
  destruct (handleLrcImport_installed _ _ _ _ _ _ Hd Himp) as (Hs & _ & Hd').
  rewrite Hs, Hd'. apply chained_partition; [exact Hd|].
  unfold Lrc.newSegments, Lrc.allTimes.
  set (inner := filter _ _).
  assert (S : Sorted Qlt (0 :: inner ++ [duration st])).
  { apply boundaries_sorted.
    - apply filter_strictly_sorted. apply strictly_sorted_times; [|exact D].
      apply parseLRCFile_sorted.
    - intros t Ht. apply filter_In in Ht. destruct Ht as [_ Ht].
      apply andb_true_iff in Ht. rewrite !Qlt_bool_true in Ht. exact Ht.
    - exact Hd. }
  pose proof (build_segments_chained uuid (fst (Lrc.parseLRCFile text))
                (Lrc.newTextBlocks uuid (fst (Lrc.parseLRCFile text)))
                (inner ++ [duration st]) 0
                (List.length
                   (Lrc.newTextBlocks uuid (fst (Lrc.parseLRCFile text))))
                S) as C.
  rewrite last_last in C. exact C.
Qed.

(** * More properties of the component *)

(** ** The active segment *)

Lemma isActive_true (t : Q) (s : VideoSegment.t) :
  Playback.isActive t s = true
  <-> VideoSegment.startTime s <= t /\ t < VideoSegment.endTime s.
Proof.
  unfold Playback.isActive.
  rewrite andb_true_iff, Qle_bool_iff, Qlt_bool_true. tauto.
Qed.

Lemma chained_active (l : list VideoSegment.t) (from to t : Q) :
  chained from l to -> from <= t -> t < to ->
  exists i s, nth_error l i = Some s /\ Playback.isActive t s = true.
Proof.
  revert from. induction l as [|a l IH]; intros from H Hf Ht.
  - simpl in H. subst. lra.
  - destruct H as (Hs & Hlt & Hr).
    destruct (Qlt_le_dec t (VideoSegment.endTime a)) as [L|L].
    + exists 0%nat, a. split; [reflexivity|].
      apply isActive_true. rewrite Hs. split; assumption.
    + destruct (IH _ Hr L Ht) as (i & s & Hi & Ha).
      exists (S i), s. split; assumption.
Qed.

(** X1.  In a partition of the duration the position of the playhead
    decides the highlighted segment: at a time from 0 up to, and not
    including, the duration exactly one segment is active; before 0 and
    from the duration on none is. *)
Theorem active_segment_unique (d t : Q) (l : list VideoSegment.t) :
  partition_invariant d l ->
  (0 <= t -> t < d ->
   exists i s,
     nth_error l i = Some s /\ Playback.isActive t s = true
     /\ forall j s', nth_error l j = Some s' ->
                     Playback.isActive t s' = true -> j = i)
  /\ (t < 0 \/ d <= t ->
      forall s, In s l -> Playback.isActive t s = false).
Proof.
  intro P. pose proof (partition_chained _ _ P) as C. split.
  - intros H0 Hd. destruct (chained_active _ _ _ _ C H0 Hd) as (i & s & Hi & Ha).
    exists i, s. repeat split; [exact Hi|exact Ha|].
    intros j s' Hj Ha'. apply isActive_true in Ha, Ha'.
    destruct (Nat.lt_trichotomy j i) as [L|[E|L]]; [|exact E|].
    + pose proof (chained_order _ _ _ _ _ _ _ C L Hj Hi). lra.
    + pose proof (chained_order _ _ _ _ _ _ _ C L Hi Hj). lra.
  - intros H s Hs. destruct (Playback.isActive t s) eqn:E; [|reflexivity].
    apply isActive_true in E.
    destruct (chained_range _ _ _ s C Hs) as (R1 & R2 & R3).
    destruct H; lra.
Qed.

Lemma active_segment_unique_witness :
  exists i s,
    nth_error (segments Sample.timeline) i = Some s
    /\ Playback.isActive 4 s = true
    /\ forall j s', nth_error (segments Sample.timeline) j = Some s' ->
                    Playback.isActive 4 s' = true -> j = i.
Proof.
  apply (proj1 (active_segment_unique 10 4 (segments Sample.timeline)
                  sample_timeline_partition));
    [discriminate|reflexivity].
Defined.

(** ** Split and merge together *)

Lemma firstn_skipn_nth {A : Type} (l : list A) (i : nat) (x : A) :
  nth_error l i = Some x -> l = firstn i l ++ x :: skipn (S i) l.
Proof.
  revert i. induction l as [|a l IH]; intros [|i] H; simpl in *;
    try discriminate.
  - injection H as ->. reflexivity.
  - f_equal. apply IH. exact H.
Qed.

Lemma mergeSegments_update_app (pre : list VideoSegment.t)
  (a b : VideoSegment.t) (post : list VideoSegment.t) :
  mergeSegments_update (List.length pre) (pre ++ a :: b :: post)
  = pre ++ VideoSegment.mk (VideoSegment.id a) (VideoSegment.startTime a)
             (VideoSegment.endTime b)
             (JS.or_else (VideoSegment.textId a) (VideoSegment.textId b))
           :: post.
Proof.
  induction pre as [|x pre IH]; simpl List.length.
  - apply mergeSegments_update_zero.
  - rewrite <- !app_comm_cons, mergeSegments_update_succ, IH. reflexivity.
Qed.

Lemma or_else_none_r (a : option string) :
  a <> Some EmptyString -> JS.or_else a None = a.
Proof.
  intro H. destruct a as [[|c x]|]; [destruct H| |]; reflexivity.
Qed.

(** X2.  Merge undoes Split: when Split cuts the segment at position
    [i], merging position [i] with its new successor gives back the
    segment list as it was, and with it the whole state.  (The text
    reference of the cut segment is an identifier or [null], not the
    empty string.) *)
Theorem merge_undoes_split (uuid : string) (st : AppState) (i : nat)
  (target : VideoSegment.t) :
  nth_error (segments st) i = Some target ->
  inside (currentTime st) target ->
  (forall j s, (j < i)%nat -> nth_error (segments st) j = Some s ->
               ~ inside (currentTime st) s) ->
  VideoSegment.textId target <> Some EmptyString ->
  List.length (segments (splitSegment uuid st))
  = S (List.length (segments st))
  /\ mergeSegments i (splitSegment uuid st) = st.
Proof.
  intros Hn Hin Hfirst Hid.
  assert (E : segments (splitSegment uuid st)
              = firstn i (segments st)
                ++ VideoSegment.mk (VideoSegment.id target)
                     (VideoSegment.startTime target) (currentTime st)
                     (VideoSegment.textId target)
                   :: VideoSegment.mk uuid (currentTime st)
                        (VideoSegment.endTime target) None
                   :: skipn (S i) (segments st)).
  { simpl. apply splitSegment_update_at; assumption. }
  assert (Li : List.length (firstn i (segments st)) = i).
  { apply firstn_length_le. apply Nat.lt_le_incl. apply nth_error_Some.
    rewrite Hn. discriminate. }
  assert (Len : List.length (segments (splitSegment uuid st))
                = S (List.length (segments st))).
  { rewrite E. rewrite (firstn_skipn_nth _ _ _ Hn) at 3.
    rewrite !length_app. simpl. lia. }
  split; [exact Len|].
  rewrite mergeSegments_guard, Len.
  assert (Hlt : (i < List.length (segments st))%nat).
  { apply nth_error_Some. rewrite Hn. discriminate. }
  destruct (Nat.leb_spec (S (List.length (segments st))) (i + 1)); [lia|].
  pose proof (mergeSegments_update_app (firstn i (segments st))
                (VideoSegment.mk (VideoSegment.id target)
                   (VideoSegment.startTime target) (currentTime st)
                   (VideoSegment.textId target))
                (VideoSegment.mk uuid (currentTime st)
                   (VideoSegment.endTime target) None)
                (skipn (S i) (segments st))) as M.
  rewrite Li in M. cbn [VideoSegment.id VideoSegment.startTime
                        VideoSegment.endTime VideoSegment.textId] in M.
  rewrite (or_else_none_r _ Hid) in M.
  assert (T : VideoSegment.mk (VideoSegment.id target)
                (VideoSegment.startTime target) (VideoSegment.endTime target)
                (VideoSegment.textId target) = target)
    by (destruct target; reflexivity).
  rewrite T, <- (firstn_skipn_nth _ _ _ Hn) in M.
  unfold setSegments. rewrite E, M. destruct st; reflexivity.
Qed.

Lemma merge_undoes_split_witness :
  mergeSegments 1 (splitSegment "u" Sample.timeline) = Sample.timeline.
Proof.
  apply (proj2 (merge_undoes_split "u" Sample.timeline 1
                  (Sample.seg "s2" 4 9 (Some "b2"))
                  ltac:(reflexivity) ltac:(split; reflexivity)
                  ltac:(intros [|j] s Hj Hs [H1 H2];
                        [injection Hs as <-; vm_compute in H2; discriminate
                        |lia])
                  ltac:(discriminate))).
Defined.

(** ** Text references stay valid *)

Lemma splitSegment_update_textId (t : Q) (u : string)
  (l : list VideoSegment.t) (s : VideoSegment.t) :
  In s (splitSegment_update t u l) ->
  VideoSegment.textId s = None
  \/ exists s0, In s0 l /\ VideoSegment.textId s = VideoSegment.textId s0.
Proof.
  induction l as [|a l IH]; [intros []|].
  rewrite splitSegment_update_cons. destruct (split_here t a).
  - intros [<-|[<-|H]].
    + right. exists a. split; [left; reflexivity|reflexivity].
    + left. reflexivity.
    + right. exists s. split; [right; exact H|reflexivity].
  - intros [<-|H].
    + right. exists a. split; [left; reflexivity|reflexivity].
    + destruct (IH H) as [N|(s0 & H0 & E)]; [left; exact N|].
      right. exists s0. split; [right; exact H0|exact E].
Qed.

Lemma or_else_either (a b : option string) :
  JS.or_else a b = a \/ JS.or_else a b = b.
Proof. unfold JS.or_else. destruct (JS.truthy a); [left|right]; reflexivity. Qed.

Lemma mergeSegments_update_textId (i : nat) (l : list VideoSegment.t)
  (s : VideoSegment.t) :
  In s (mergeSegments_update i l) ->
  exists s0, In s0 l /\ VideoSegment.textId s = VideoSegment.textId s0.
Proof.
  revert l. induction i as [|i IH]; intros l H.
  - destruct l as [|a [|b r]];
      try (exists s; split; [exact H|reflexivity]).
    rewrite mergeSegments_update_zero in H. destruct H as [<-|H].
    + simpl. destruct (or_else_either (VideoSegment.textId a)
                         (VideoSegment.textId b)) as [E|E]; rewrite E.
      * exists a. split; [left; reflexivity|reflexivity].
      * exists b. split; [right; left; reflexivity|reflexivity].
    + exists s. split; [right; right; exact H|reflexivity].
  - destruct l as [|a r]; [destruct H|].
    rewrite mergeSegments_update_succ in H. destruct H as [<-|H].
    + exists a. split; [left; reflexivity|reflexivity].
    + destruct (IH r H) as (s0 & H0 & E).
      exists s0. split; [right; exact H0|exact E].
Qed.

Lemma segments_mergeSegments (i : nat) (st : AppState) :
  segments (mergeSegments i st) = mergeSegments_update i (segments st)
  /\ textBlocks (mergeSegments i st) = textBlocks st
  /\ duration (mergeSegments i st) = duration st.
Proof.
  rewrite mergeSegments_guard.
  destruct (Nat.leb_spec (List.length (segments st)) (i + 1)) as [L|L].
  - rewrite (mergeSegments_update_short _ _ L). repeat split.
  - repeat split.
Qed.

Lemma refs_valid_same_blocks (st st' : AppState) :
  block_ids st' = block_ids st ->
  (forall s, In s (segments st') ->
             VideoSegment.textId s = None
             \/ exists s0, In s0 (segments st)
                           /\ VideoSegment.textId s = VideoSegment.textId s0) ->
  refs_valid st -> refs_valid st'.
Proof.
  intros Hb Hs V s i Hin Ht. rewrite Hb.
  destruct (Hs s Hin) as [N|(s0 & H0 & E)]; [congruence|].
  apply (V s0 i H0). congruence.
Qed.

Lemma refs_valid_more_blocks (st st' : AppState) :
  segments st' = segments st ->
  (forall i, In i (block_ids st) -> In i (block_ids st')) ->
  refs_valid st -> refs_valid st'.
Proof.
  intros Hs Hb V s i Hin Ht. rewrite Hs in Hin. apply Hb. apply (V s i Hin Ht).
Qed.

Lemma refs_valid_split (u : string) (st : AppState) :
  refs_valid st -> refs_valid (splitSegment u st).
Proof.
  apply refs_valid_same_blocks; [reflexivity|].
  intros s Hs. apply (splitSegment_update_textId _ _ _ _ Hs).
Qed.

Lemma refs_valid_merge (i : nat) (st : AppState) :
  refs_valid st -> refs_valid (mergeSegments i st).
Proof.
  destruct (segments_mergeSegments i st) as (Hs & Hb & _).
  apply refs_valid_same_blocks; [unfold block_ids; rewrite Hb; reflexivity|].
  intros s H. rewrite Hs in H. right.
  apply (mergeSegments_update_textId _ _ _ H).
Qed.

Lemma refs_valid_assign (segmentId : string) (x : option string)
  (st : AppState) :
  (forall i, x = Some i -> In i (block_ids st)) ->
  refs_valid st -> refs_valid (updateSegmentText segmentId x st).
Proof.
  intros Hx V s i Hin Ht. simpl in Hin. apply in_map_iff in Hin.
  destruct Hin as (s0 & <- & H0).
  destruct (VideoSegment.id s0 =? segmentId)%string.
  - apply Hx. exact Ht.
  - apply (V s0 i H0 Ht).
Qed.

Lemma refs_valid_delete (id : string) (st : AppState) :
  refs_valid st -> refs_valid (deleteTextBlock id st).
Proof.
  intros V s i Hin Ht. simpl in Hin. apply in_map_iff in Hin.
  destruct Hin as (s0 & <- & H0).
  unfold block_ids. simpl.
  destruct (VideoSegment.textId s0) as [x|] eqn:E; simpl in Ht.
  - destruct (String.eqb_spec x id) as [->|N]; simpl in Ht; [discriminate|].
    rewrite E in Ht. injection Ht as <-.
    pose proof (V s0 x H0 E) as B. unfold block_ids in B.
    apply in_map_iff in B. destruct B as (b & Hb & Hin).
    apply in_map_iff. exists b. split; [exact Hb|].
    apply filter_In. split; [exact Hin|].
    apply negb_true_iff. apply String.eqb_neq. congruence.
  - rewrite E in Ht. discriminate.
Qed.

Lemma updateTextBlock_ids (id text : string) (l : list TextBlock.t) :
  map TextBlock.id
    (map (fun b => if (TextBlock.id b =? id)%string
                   then TextBlock.mk (TextBlock.id b) text else b) l)
  = map TextBlock.id l.
Proof.
  rewrite map_map. apply map_ext. intro b.
  destruct (TextBlock.id b =? id)%string; reflexivity.
Qed.

Lemma reorder_permutation (source target : nat) (prev l : list TextBlock.t) :
  Library.reorder source target prev = Some l -> Permutation prev l.
Proof.
  unfold Library.reorder. destruct (nth_error prev source) as [x|] eqn:E;
    [|discriminate].
  intros [= <-]. unfold JS.splice.
  rewrite Nat.add_1_r, Nat.add_0_r. cbn [app].
  set (rest := firstn source prev ++ skipn (S source) prev).
  rewrite (firstn_skipn_nth _ _ _ E) at 1.
  transitivity (x :: rest).
  - symmetry. apply Permutation_middle.
  - rewrite <- (firstn_skipn target rest) at 1. apply Permutation_middle.
Qed.

Lemma refs_valid_import (uuid : nat -> string) (text : string) (st : AppState) :
  0 < duration st \/ segments st = [] ->
  refs_valid st ->
  refs_valid (fst (Lrc.handleLrcImport uuid text st)).
Proof.
  intros Hd V. unfold Lrc.handleLrcImport.
  destruct (Lrc.parseLRCFile text) as [entries maxTime].
  destruct (List.length entries =? 0)%nat; [exact V|].
  destruct (JS.Qlt_bool 0 (duration st)) eqn:D; simpl.
  - destruct (JS.Qlt_bool (duration st) maxTime); [exact V|]. simpl.
    intros s i Hin Ht. simpl in Hin. unfold block_ids. simpl.
    unfold Lrc.newSegments in Hin.
    rewrite (build_segments_textId _ _ _ _ _ _ Hin) in Ht.
    destruct (segment_textId_some _ _ _ _ Ht)
      as (e & b & _ & _ & (k & Hk & _) & <-).
    apply in_map. apply (nth_error_In _ _ Hk).
  - simpl. intros s i Hin Ht. simpl in Hin.
    destruct Hd as [Hd|Hd]; [|rewrite Hd in Hin; destruct Hin].
    apply Qlt_bool_true in Hd. congruence.
Qed.

Lemma edit_ok_runs (ui : Ui) (e : edit) :
  edit_ok ui e -> exists ui', run_edit ui e = Some ui'.
Proof.
  destruct e; simpl; intro H; try (eexists; reflexivity).
  unfold Library.handleTextBlockDrop, Library.reorder.
  destruct (sourceIndex =? targetIndex)%nat; [eexists; reflexivity|].
  destruct (nth_error (textBlocks (app ui)) sourceIndex) eqn:E;
    [eexists; reflexivity|].
  apply nth_error_None in E. lia.
Qed.

Lemma handleTextBlockDrop_some (source target : nat) (st st' : AppState) :
  Library.handleTextBlockDrop source target st = Some st' ->
  segments st' = segments st /\ duration st' = duration st
  /\ Permutation (textBlocks st) (textBlocks st').
Proof.
  unfold Library.handleTextBlockDrop.
  destruct (source =? target)%nat.
  - intros [= <-]. repeat split. apply Permutation_refl.
  - destruct (Library.reorder source target (textBlocks st)) as [l|] eqn:E;
      [|discriminate].
    intros [= <-]. repeat split. apply (reorder_permutation _ _ _ _ E).
Qed.

Lemma handleBulkImport_blocks (uuid : nat -> string) (text : string)
  (st : AppState) :
  segments (Library.handleBulkImport uuid text st) = segments st
  /\ duration (Library.handleBulkImport uuid text st) = duration st
  /\ exists more,
       textBlocks (Library.handleBulkImport uuid text st)
       = textBlocks st ++ more.
Proof.
  unfold Library.handleBulkImport.
  destruct (JS.str_truthy (Str.trim text)); simpl.
  - repeat split. eexists. reflexivity.
  - repeat split. exists []. symmetry. apply app_nil_r.
Qed.

Lemma seek_same (mounted : bool) (time : Q) (st : AppState) :
  segments (Playback.seek mounted time st) = segments st
  /\ textBlocks (Playback.seek mounted time st) = textBlocks st
  /\ duration (Playback.seek mounted time st) = duration st.
Proof.
  unfold Playback.seek. destruct (mounted && _); repeat split.
Qed.

(** An import changes nothing, or it succeeds and keeps the duration,
    and without a duration the segments. *)
Lemma handleLrcImport_cases (uuid : nat -> string) (text : string)
  (st : AppState) :
  fst (Lrc.handleLrcImport uuid text st) = st
  \/ exists n m,
       Lrc.handleLrcImport uuid text st
       = (fst (Lrc.handleLrcImport uuid text st), Lrc.Imported n m)
       /\ duration (fst (Lrc.handleLrcImport uuid text st)) = duration st
       /\ (0 < duration st
           \/ segments (fst (Lrc.handleLrcImport uuid text st)) = segments st).
Proof.
  unfold Lrc.handleLrcImport.
  destruct (Lrc.parseLRCFile text) as [entries maxTime].
  destruct (List.length entries =? 0)%nat; [left; reflexivity|].
  destruct (JS.Qlt_bool 0 (duration st)) eqn:D; simpl.
  - destruct (JS.Qlt_bool (duration st) maxTime); [left; reflexivity|].
    right. eexists. eexists. split; [reflexivity|]. split; [reflexivity|].
    left. apply Qlt_bool_true. exact D.
  - right. eexists. eexists. split; [reflexivity|]. split; [reflexivity|].
    right. reflexivity.
Qed.

Lemma refs_valid_step (ui ui' : Ui) (e : edit) :
  edit_ok ui e -> run_edit ui e = Some ui' ->
  (0 < duration (app ui) \/ segments (app ui) = []) ->
  refs_valid (app ui) ->
  (0 < duration (app ui') \/ segments (app ui') = [])
  /\ refs_valid (app ui').
Proof.
  intros Hok Hrun Hd V. destruct e; simpl in Hrun, Hok.
  - injection Hrun as <-. simpl. split; [left; exact Hok|].
    intros s i [<-|[]] Ht. discriminate.
  - injection Hrun as <-. simpl. split; [right; reflexivity|].
    intros s i [].
  - injection Hrun as <-. simpl.
    destruct (seek_same mounted time (app ui)) as (Hs & Hb & Hdur).
    split; [rewrite Hs, Hdur; exact Hd|].
    apply (refs_valid_more_blocks (app ui)); [exact Hs| |exact V].
    unfold block_ids. rewrite Hb. tauto.
  - injection Hrun as <-. simpl. split; [|apply refs_valid_split; exact V].
    destruct Hd as [Hd|Hd]; [left; exact Hd|right]. rewrite Hd. reflexivity.
  - injection Hrun as <-. simpl. split; [|apply refs_valid_merge; exact V].
    destruct (segments_mergeSegments index (app ui)) as (Hs & _ & Hdur).
    rewrite Hs, Hdur. destruct Hd as [Hd|Hd]; [left; exact Hd|right].
    rewrite Hd. apply mergeSegments_update_short. simpl. lia.
  - injection Hrun as <-. simpl. split.
    + destruct Hd as [Hd|Hd]; [left; exact Hd|right]. rewrite Hd. reflexivity.
    + apply refs_valid_assign; [|exact V]. intros i ->. exact Hok.
  - injection Hrun as <-. unfold Library.handleSegmentDrop.
    destruct (JS.str_truthy textBlockId) eqn:T; simpl.
    + split.
      * destruct Hd as [Hd|Hd]; [left; exact Hd|right]. rewrite Hd. reflexivity.
      * apply refs_valid_assign; [|exact V]. intros i [= <-].
        destruct Hok as [->|Hok]; [discriminate|exact Hok].
    + split; assumption.
  - injection Hrun as <-. simpl. split; [exact Hd|].
    apply (refs_valid_more_blocks (app ui)); [reflexivity| |exact V].
    intros i Hi. unfold block_ids in *. simpl. rewrite map_app.
    apply in_or_app. left. exact Hi.
  - injection Hrun as <-. simpl. split; [exact Hd|].
    apply (refs_valid_more_blocks (app ui)); [reflexivity| |exact V].
    intros i Hi. unfold block_ids in *. simpl.
    rewrite updateTextBlock_ids. exact Hi.
  - injection Hrun as <-. simpl. split; [|apply refs_valid_delete; exact V].
    destruct Hd as [Hd|Hd]; [left; exact Hd|right]. rewrite Hd. reflexivity.
  - destruct (Library.handleTextBlockDrop sourceIndex targetIndex (app ui))
      as [st'|] eqn:E; [|discriminate].
    injection Hrun as <-. simpl.
    destruct (handleTextBlockDrop_some _ _ _ _ E) as (Hs & Hdur & P).
    split; [rewrite Hs, Hdur; exact Hd|].
    apply (refs_valid_more_blocks (app ui)); [exact Hs| |exact V].
    intros i Hi. unfold block_ids in *.
    apply (Permutation_in _ (Permutation_map TextBlock.id P) Hi).
  - injection Hrun as <-. simpl.
    destruct (handleBulkImport_blocks uuid text (app ui))
      as (Hs & Hdur & more & Hb).
    split; [rewrite Hs, Hdur; exact Hd|].
    apply (refs_valid_more_blocks (app ui)); [exact Hs| |exact V].
    intros i Hi. unfold block_ids in *. rewrite Hb, map_app.
    apply in_or_app. left. exact Hi.
  - injection Hrun as <-. simpl. split; [|apply refs_valid_import; assumption].
    destruct (handleLrcImport_cases uuid text (app ui))
      as [E|(n & m & _ & Hdur & [D|S])].
    + rewrite E. exact Hd.
    + left. rewrite Hdur. exact D.
    + rewrite Hdur, S. exact Hd.
Qed.

(** X3.  No edit leaves a dangling text reference.  Starting from a
    state in which every text reference of a segment names a block of
    the library (such as the state the page starts in), every sequence
    of edits that the page offers (load, upload, seek, split, merge,
    assign, drop, add, edit, delete, reorder, paste, import) runs
    through and ends in such a state. *)
Theorem references_stay_valid (ui : Ui) (es : list edit) :
  refs_valid (app ui) ->
  (0 < duration (app ui) \/ segments (app ui) = []) ->
  admissible ui es ->
  exists ui', run_edits ui es = Some ui' /\ refs_valid (app ui').
Proof.
  revert ui. induction es as [|e es IH]; intros ui V Hd A.
  - exists ui. split; [reflexivity|exact V].
  - destruct A as [Hok A]. destruct (edit_ok_runs ui e Hok) as (ui1 & R).
    simpl. rewrite R.
    destruct (refs_valid_step ui ui1 e Hok R Hd V) as [Hd1 V1].
    apply IH; [exact V1|exact Hd1|apply A; exact R].
Qed.

Ltac run_step :=
  split;
  [ first [ exact I | reflexivity | simpl; lia | simpl; auto 10 ]
  | let ui' := fresh "ui" in
    let H := fresh "H" in
    intros ui' H; vm_compute in H; injection H as <- ].

Lemma session_admissible : admissible initial session.
Proof. unfold session, initial. repeat run_step. exact I. Qed.

Lemma references_stay_valid_witness :
  exists ui', run_edits initial session = Some ui' /\ refs_valid (app ui').
Proof.
  apply (references_stay_valid initial session).
  - intros s i [].
  - right. reflexivity.
  - exact session_admissible.
Defined.

(** ** The segments stay a partition *)

Lemma chained_map (f : VideoSegment.t -> VideoSegment.t)
  (l : list VideoSegment.t) (from to : Q) :
  (forall s, VideoSegment.startTime (f s) = VideoSegment.startTime s
             /\ VideoSegment.endTime (f s) = VideoSegment.endTime s) ->
  chained from l to -> chained from (map f l) to.
Proof.
  intro Hf. revert from. induction l as [|a l IH]; intros from H; [exact H|].
  destruct H as (Hs & Hlt & Hr). destruct (Hf a) as [E1 E2]. simpl.
  rewrite E1, E2. repeat split; try assumption. apply IH. exact Hr.
Qed.

Lemma empty_or_partition_chained (st : AppState) :
  empty_or_partition st
  <-> segments st = []
      \/ (0 < duration st /\ chained 0 (segments st) (duration st)).
Proof.
  unfold empty_or_partition. split; intros [H|[Hd H]]; try (left; exact H).
  - right. split; [exact Hd|apply partition_chained; exact H].
  - right. split; [exact Hd|apply chained_partition; assumption].
Qed.

Lemma partition_map (f : VideoSegment.t -> VideoSegment.t) (st st' : AppState) :
  (forall s, VideoSegment.startTime (f s) = VideoSegment.startTime s
             /\ VideoSegment.endTime (f s) = VideoSegment.endTime s) ->
  segments st' = map f (segments st) -> duration st' = duration st ->
  empty_or_partition st -> empty_or_partition st'.
Proof.
  intros Hf Hs Hd J. apply empty_or_partition_chained.
  apply empty_or_partition_chained in J. rewrite Hs, Hd.
  destruct J as [J|[J1 J2]]; [left; rewrite J; reflexivity|right].
  split; [exact J1|apply chained_map; assumption].
Qed.

Lemma partition_same (st st' : AppState) :
  segments st' = segments st -> duration st' = duration st ->
  empty_or_partition st -> empty_or_partition st'.
Proof.
  intros Hs Hd J. unfold empty_or_partition in *. rewrite Hs, Hd. exact J.
Qed.

Lemma updateSegmentText_times (segmentId : string) (x : option string)
  (s : VideoSegment.t) :
  let s' := if (VideoSegment.id s =? segmentId)%string
            then VideoSegment.with_textId s x else s in
  VideoSegment.startTime s' = VideoSegment.startTime s
  /\ VideoSegment.endTime s' = VideoSegment.endTime s.
Proof. simpl. destruct (_ =? _)%string; split; reflexivity. Qed.

Lemma partition_step (ui ui' : Ui) (e : edit) :
  edit_ok ui e -> distinct_import e -> run_edit ui e = Some ui' ->
  empty_or_partition (app ui) -> empty_or_partition (app ui').
Proof.
  intros Hok Hdi Hrun J. destruct e; simpl in Hrun, Hok, Hdi.
  - injection Hrun as <-. apply empty_or_partition_chained. right. simpl.
    repeat split; assumption.
  - injection Hrun as <-. left. reflexivity.
  - injection Hrun as <-. simpl.
    destruct (seek_same mounted time (app ui)) as (Hs & _ & Hd).
    apply (partition_same (app ui)); assumption.
  - injection Hrun as <-. simpl. apply empty_or_partition_chained.
    apply empty_or_partition_chained in J. simpl.
    destruct J as [J|[J1 J2]]; [left; rewrite J; reflexivity|right].
    split; [exact J1|apply chained_split; exact J2].
  - injection Hrun as <-. simpl. apply empty_or_partition_chained.
    apply empty_or_partition_chained in J.
    destruct (segments_mergeSegments index (app ui)) as (Hs & _ & Hd).
    rewrite Hs, Hd.
    destruct J as [J|[J1 J2]].
    + left. rewrite J. apply mergeSegments_update_short. simpl. lia.
    + right. split; [exact J1|apply chained_merge; exact J2].
  - injection Hrun as <-. simpl.
    apply (partition_map _ (app ui) _ (updateSegmentText_times segmentId textId));
      [reflexivity|reflexivity|exact J].
  - injection Hrun as <-. unfold Library.handleSegmentDrop.
    destruct (JS.str_truthy textBlockId); simpl; [|exact J].
    apply (partition_map _ (app ui) _
             (updateSegmentText_times segmentId (Some textBlockId)));
      [reflexivity|reflexivity|exact J].
  - injection Hrun as <-. exact J.
  - injection Hrun as <-. exact J.
  - injection Hrun as <-. simpl.
    apply (partition_map
             (fun s => if textId_is (VideoSegment.textId s) id
                       then VideoSegment.with_textId s None else s)
             (app ui)); [|reflexivity|reflexivity|exact J].
    intro s. destruct (textId_is _ _); split; reflexivity.
  - destruct (Library.handleTextBlockDrop sourceIndex targetIndex (app ui))
      as [st'|] eqn:E; [|discriminate].
    injection Hrun as <-. simpl.
    destruct (handleTextBlockDrop_some _ _ _ _ E) as (Hs & Hd & _).
    apply (partition_same (app ui)); assumption.
  - injection Hrun as <-. simpl.
    destruct (handleBulkImport_blocks uuid text (app ui)) as (Hs & Hd & _).
    apply (partition_same (app ui)); assumption.
  - injection Hrun as <-. simpl.
    destruct (handleLrcImport_cases uuid text (app ui))
      as [E|(n & m & Himp & Hdur & [D|S])].
    + rewrite E. exact J.
    + right. split; [rewrite Hdur; exact D|].
      apply (decode_partition_distinct_times uuid text (app ui) _ n m D Himp Hdi).
    + apply (partition_same (app ui)); assumption.
Qed.

(** X4.  The segments stay a partition under every edit.  Starting from
    a state without segments or with a partition of a positive duration
    (such as the state the page starts in), every sequence of edits
    that the page offers, its imports having no two surviving entries at
    the same time, ends in a state without segments (a video is chosen
    and not yet loaded) or with a partition of the duration. *)
Theorem partition_stays (ui : Ui) (es : list edit) :
  empty_or_partition (app ui) ->
  admissible ui es ->
  Forall distinct_import es ->
  exists ui', run_edits ui es = Some ui' /\ empty_or_partition (app ui').
Proof.
  revert ui. induction es as [|e es IH]; intros ui J A D.
  - exists ui. split; [reflexivity|exact J].
  - destruct A as [Hok A]. inversion D as [|? ? De Des]; subst.
    destruct (edit_ok_runs ui e Hok) as (ui1 & R). simpl. rewrite R.
    apply IH; [|apply A; exact R|exact Des].
    apply (partition_step ui ui1 e Hok De R J).
Qed.

Lemma session_distinct : Forall distinct_import session.
Proof.
  unfold session. repeat (constructor; [exact I|]).
  constructor; [|repeat constructor].
  unfold distinct_import.
  assert (P : fst (Lrc.parseLRCFile Sample.two_tags)
              = [Entry.mk 5 "Hi"; Entry.mk (17 # 2) "Hi"])
    by (vm_compute; reflexivity).
  rewrite P. repeat constructor. intro H. discriminate H.
Qed.

Lemma partition_stays_witness :
  exists ui', run_edits initial session = Some ui'
              /\ empty_or_partition (app ui').
Proof.
  apply (partition_stays initial session).
  - left. reflexivity.
  - exact session_admissible.
  - exact session_distinct.
Defined.

(** ** Splitting twice, merging everything *)

Lemma findIndex_some {A : Type} (p : A -> bool) (l : list A) (i : nat) :
  JS.findIndex p l = Some i ->
  exists x, nth_error l i = Some x /\ p x = true
            /\ forall j y, (j < i)%nat -> nth_error l j = Some y -> p y = false.
Proof.
  revert i. induction l as [|a l IH]; intros i H; simpl in H; [discriminate|].
  destruct (p a) eqn:E.
  - injection H as <-. exists a. repeat split; [exact E|]. intros j y Hj. lia.
  - destruct (JS.findIndex p l) as [k|]; [|discriminate].
    injection H as <-. destruct (IH k eq_refl) as (x & Hx & Hp & Hmin).
    exists x. repeat split; [exact Hx|exact Hp|].
    intros [|j] y Hj Hy; simpl in Hy.
    + injection Hy as <-. exact E.
    + apply (Hmin j y); [lia|exact Hy].
Qed.

(** X5.  Split is idempotent on a partition: with the playhead where it
    is, a second Split changes nothing, whatever identifier it would
    have used. *)
Theorem split_twice (u u' : string) (st : AppState) :
  partition_invariant (duration st) (segments st) ->
  splitSegment u' (splitSegment u st) = splitSegment u st.
Proof.
  intro P. pose proof (partition_chained _ _ P) as C.
  assert (N : forall s, In s (splitSegment_update (currentTime st) u (segments st)) ->
                        ~ inside (currentTime st) s).
  { destruct (JS.findIndex (split_here (currentTime st)) (segments st))
      as [i|] eqn:F.
    - destruct (findIndex_some _ _ _ F) as (target & Hn & Hp & Hmin).
      apply split_here_inside in Hp.
      assert (Hfirst : forall j s, (j < i)%nat ->
                 nth_error (segments st) j = Some s ->
                 ~ inside (currentTime st) s).
      { intros j s Hj Hs Hin. apply split_here_inside in Hin.
        rewrite (Hmin j s Hj Hs) in Hin. discriminate. }
      pose proof (chained_split (currentTime st) u _ _ _ C) as C'.
      destruct (chained_range _ _ _ target C (nth_error_In _ _ Hn))
        as (R1 & R2 & R3).
      assert (Hd : 0 < duration st) by lra.
      apply (partition_boundary_not_inside (duration st)).
      + apply chained_partition; assumption.
      + left. exists (VideoSegment.mk u (currentTime st)
                        (VideoSegment.endTime target) None).
        split; [|left; reflexivity].
        rewrite (splitSegment_update_at _ u _ _ _ Hn Hp Hfirst).
        apply in_or_app. right. right. left. reflexivity.
    - unfold splitSegment_update. rewrite F. intros s Hs Hin.
      apply split_here_inside in Hin.
      destruct (In_nth_error _ _ Hs) as (k & Hk).
      assert (G : forall (l : list VideoSegment.t) k s,
                 JS.findIndex (split_here (currentTime st)) l = None ->
                 nth_error l k = Some s ->
                 split_here (currentTime st) s = false).
      { clear. intro l. induction l as [|a l IH]; intros [|k] s H Hk;
          simpl in *; try discriminate;
          destruct (split_here (currentTime st) a) eqn:E; try discriminate.
        - injection Hk as <-. exact E.
        - destruct (JS.findIndex _ l) eqn:F; [discriminate|].
          apply (IH k s eq_refl Hk). }
      rewrite (G _ _ _ F Hk) in Hin. discriminate. }
  unfold splitSegment at 1. unfold setSegments.
  change (currentTime (splitSegment u st)) with (currentTime st).
  change (segments (splitSegment u st))
    with (splitSegment_update (currentTime st) u (segments st)).
  rewrite (splitSegment_update_none _ _ _ N). reflexivity.
Qed.

Lemma split_twice_witness :
  splitSegment "v" (splitSegment "u" Sample.timeline)
  = splitSegment "u" Sample.timeline.
Proof.
  apply (split_twice "u" "v" Sample.timeline sample_timeline_partition).
Defined.

Lemma iter_merge_segments (n : nat) (st : AppState) :
  segments (Nat.iter n (mergeSegments 0) st)
  = Nat.iter n (mergeSegments_update 0) (segments st).
Proof.
  induction n as [|n IH]; [reflexivity|]. simpl.
  destruct (segments_mergeSegments 0 (Nat.iter n (mergeSegments 0) st))
    as (Hs & _). rewrite Hs, IH. reflexivity.
Qed.

Lemma merge_all_chained (r : list VideoSegment.t) (a : VideoSegment.t)
  (from to : Q) :
  chained from (a :: r) to ->
  Nat.iter (List.length r) (mergeSegments_update 0) (a :: r)
  = [VideoSegment.mk (VideoSegment.id a) from to
       (fold_left JS.or_else (map VideoSegment.textId r)
          (VideoSegment.textId a))].
Proof.
  revert a. induction r as [|b r IH]; intros a C.
  - destruct C as (Hs & _ & He). simpl in *. subst. destruct a; reflexivity.
  - cbn [List.length]. rewrite Nat.iter_succ_r, mergeSegments_update_zero.
    rewrite IH; [reflexivity|].
    destruct C as (Ha & Hlta & Hb & Hltb & Hr). simpl.
    repeat split; [exact Ha| |exact Hr].
    rewrite Hb in Hltb. exact (Qlt_trans _ _ _ Hlta Hltb).
Qed.

(** X6.  Merging everything: on a partition, merging the first segment
    with its successor once for every other segment leaves the single
    segment from 0 to the duration with the first segment's id; its
    text reference is the first one present from left to right. *)
Theorem merge_all (st : AppState) (first : VideoSegment.t)
  (rest : list VideoSegment.t) :
  partition_invariant (duration st) (segments st) ->
  segments st = first :: rest ->
  segments (Nat.iter (List.length rest) (mergeSegments 0) st)
  = [VideoSegment.mk (VideoSegment.id first) 0 (duration st)
       (fold_left JS.or_else (map VideoSegment.textId rest)
          (VideoSegment.textId first))].
Proof.
  intros P E. pose proof (partition_chained _ _ P) as C.
  rewrite iter_merge_segments, E. rewrite E in C.
  apply merge_all_chained. exact C.
Qed.

Lemma merge_all_witness :
  segments (Nat.iter 2 (mergeSegments 0) Sample.timeline)
  = [Sample.seg "s1" 0 10 (Some "b2")].
Proof.
  apply (merge_all Sample.timeline (Sample.seg "s1" 0 4 None)
           [Sample.seg "s2" 4 9 (Some "b2"); Sample.seg "s3" 9 10 (Some "b1")]
           sample_timeline_partition eq_refl).
Defined.

(** ** Pasting lines into the library *)

Lemma trimStart_white (w s : string) :
  In w Str.white_space -> Str.trimStart (w ++ s) = Str.trimStart s.
Proof.
  intro H. cbv in H.
  repeat (destruct H as [<-|H]; [reflexivity|]). destruct H.
Qed.

Lemma all_white_trim (s : string) : all_white s <-> Str.trim s = EmptyString.
Proof.
  split.
  - intro H. unfold Str.trim.
    assert (E : Str.trimStart s = EmptyString).
    { induction H as [|w s Hw Hs IH]; [reflexivity|].
      rewrite (trimStart_white w s Hw). exact IH. }
    rewrite E. reflexivity.
  - intro E. destruct (trim_spec s) as ((a & b & Es & Ha & Hb) & _).
    rewrite E in Es. simpl in Es. rewrite Es. apply all_white_app; assumption.
Qed.

Lemma split_nl_nonempty (s : string) : Str.split_nl s <> [].
Proof.
  destruct s as [|c s]; simpl; [discriminate|].
  destruct (Ascii.eqb c Str.nl); [discriminate|].
  destruct (Str.split_nl s); discriminate.
Qed.

Lemma split_nl_prefix (w s : string) :
  no_nl w ->
  Str.split_nl (w ++ s)
  = match Str.split_nl s with
    | h :: t => (w ++ h)%string :: t
    | [] => [w]
    end.
Proof.
  induction w as [|c w IH]; intro H.
  - simpl. destruct (Str.split_nl s) eqn:E;
      [destruct (split_nl_nonempty s E)|reflexivity].
  - destruct H as [Hc Hw]. simpl. rewrite Hc, (IH Hw).
    destruct (Str.split_nl s); reflexivity.
Qed.

Lemma all_white_lines (s : string) :
  all_white s -> Forall all_white (Str.split_nl s).
Proof.
  intro H. induction H as [|w s Hw Hs IH].
  - repeat constructor.
  - destruct (white_space_no_nl w Hw) as [->|N].
    + simpl. constructor; [constructor|exact IH].
    + rewrite (split_nl_prefix w s N).
      destruct (Str.split_nl s) as [|h t] eqn:E;
        [destruct (split_nl_nonempty s E)|].
      inversion IH; subst. constructor; [|assumption].
      constructor; assumption.
Qed.

Lemma pasted_trim (lines : list string) :
  pasted lines
    (filter (fun l => (0 <? String.length l)%nat) (map Str.trim lines)).
Proof.
  induction lines as [|l ls IH]; [constructor|].
  cbn [map filter]. destruct (Str.trim l) as [|c t] eqn:E.
  - cbn [String.length Nat.ltb Nat.leb]. apply pasted_blank; [|exact IH].
    apply all_white_trim. exact E.
  - cbn [String.length Nat.ltb Nat.leb]. apply pasted_line; [discriminate| |exact IH].
    rewrite <- E. apply trim_spec.
Qed.

Lemma blocks_of_lines_text (uuid : nat -> string) (k : nat) (lines : list string) :
  map TextBlock.text (Library.blocks_of_lines uuid k lines) = lines
  /\ map TextBlock.id (Library.blocks_of_lines uuid k lines)
     = map uuid (seq k (List.length lines)).
Proof.
  revert k. induction lines as [|l ls IH]; intro k; [split; reflexivity|].
  simpl. destruct (IH (S k)) as [E1 E2]. rewrite E1, E2. split; reflexivity.
Qed.

Lemma bulk_lines_white (text : string) :
  Str.trim text = EmptyString -> Library.bulk_lines text = [].
Proof.
  intro H. apply all_white_trim, all_white_lines in H.
  unfold Library.bulk_lines.
  induction H as [|l ls Hl Hls IH]; [reflexivity|].
  cbn [map filter]. rewrite (proj1 (all_white_trim l) Hl). exact IH.
Qed.

(** X7.  Pasting text into the library appends one block per line that
    is not blank, in the order of the lines: the blocks that were there
    stay in front; the new texts are the lines without the white space
    around them (the white space of [String.prototype.trim], whatever
    its place in Unicode), the lines of white space only being left
    out; no new text is empty, has a line feed, or starts or ends with
    white space; the new identifiers are the fresh ones in the order of
    the calls, and nothing else changes.  The early return for a text
    of white space only is the same as appending nothing. *)
Theorem handleBulkImport_spec (uuid : nat -> string) (lines : list string)
  (st : AppState) :
  lines <> [] -> Forall no_nl lines ->
  let text := String.concat (String Str.nl EmptyString) lines in
  let st' := Library.handleBulkImport uuid text st in
  exists added,
    textBlocks st' = textBlocks st ++ added
    /\ st' = setTextBlocks (fun _ => textBlocks st ++ added) st
    /\ pasted lines (map TextBlock.text added)
    /\ map TextBlock.text added
       = filter (fun l => negb (l =? EmptyString)%string)
           (map Str.trim lines)
    /\ Forall (fun t => t <> EmptyString /\ no_nl t
                        /\ ~ starts_white t /\ ~ ends_white t)
         (map TextBlock.text added)
    /\ map TextBlock.id added = map uuid (seq 0 (List.length added))
    /\ (Forall all_white lines -> st' = st).
Proof.
  intros Hne Hnl. cbv zeta.
  set (text := String.concat (String Str.nl EmptyString) lines).
  assert (S : Str.split_nl text = lines) by (apply split_nl_concat; assumption).
  set (added := Library.blocks_of_lines uuid 0 (Library.bulk_lines text)).
  destruct (blocks_of_lines_text uuid 0 (Library.bulk_lines text)) as [Et Ei].
  fold added in Et, Ei.
  assert (F : Library.bulk_lines text
              = filter (fun l => (0 <? String.length l)%nat)
                  (map Str.trim lines)).
  { unfold Library.bulk_lines. rewrite S. reflexivity. }
  assert (R : Library.handleBulkImport uuid text st
              = setTextBlocks (fun _ => textBlocks st ++ added) st).
  { unfold Library.handleBulkImport.
    destruct (JS.str_truthy (Str.trim text)) eqn:T; [reflexivity|].
    assert (E : Str.trim text = EmptyString)
      by (destruct (Str.trim text); [reflexivity|discriminate]).
    unfold added. rewrite (bulk_lines_white text E). simpl.
    unfold setTextBlocks. rewrite app_nil_r. destruct st; reflexivity. }
  exists added. rewrite R.
  split; [reflexivity|]. split; [reflexivity|].
  split; [rewrite Et, F; apply pasted_trim|].
  split.
  { rewrite Et, F. apply filter_ext. intros [|c l]; reflexivity. }
  split.
  { rewrite Et, F. apply Forall_forall. intros t Ht.
    apply filter_In in Ht. destruct Ht as [Hin Hlen].
    apply in_map_iff in Hin. destruct Hin as (l & <- & Hl).
    destruct (trim_spec l) as ((a & b & El & _ & _) & Ns & Ne).
    split; [intro E; rewrite E in Hlen; discriminate|].
    split; [|split; assumption].
    rewrite Forall_forall in Hnl. specialize (Hnl l Hl).
    rewrite El in Hnl. apply no_nl_app in Hnl. destruct Hnl as [_ Hnl].
    apply no_nl_app in Hnl. apply Hnl. }
  split.
  { rewrite Ei, <- Et, length_map. reflexivity. }
  intro W.
  assert (E : added = []).
  { unfold added. rewrite F. clear -W.
    induction W as [|l ls Hl Hls IH]; [reflexivity|].
    cbn [map filter]. rewrite (proj1 (all_white_trim l) Hl). exact IH. }
  rewrite E, app_nil_r. unfold setTextBlocks. destruct st; reflexivity.
Qed.

Lemma handleBulkImport_spec_witness :
  exists added,
    textBlocks (Library.handleBulkImport Sample.uuid
                  (String.concat (String Str.nl EmptyString) pasted_lines)
                  Sample.timeline)
    = textBlocks Sample.timeline ++ added
    /\ map TextBlock.text added = ["first line"; "second"]
    /\ map TextBlock.id added = ["u0"; "u1"].
Proof.
  destruct (handleBulkImport_spec Sample.uuid pasted_lines Sample.timeline
              ltac:(discriminate) ltac:(repeat constructor))
    as (added & H1 & _ & _ & H2 & _ & H3 & _).
  exists added. split; [exact H1|]. split; [exact H2|].
  rewrite H3. apply (f_equal (@List.length string)) in H2.
  rewrite length_map in H2. rewrite H2. reflexivity.
Defined.

(** ** Reordering the library *)

Lemma nth_error_middle {A : Type} (l1 l2 : list A) (x : A) :
  nth_error (l1 ++ x :: l2) (List.length l1) = Some x.
Proof. induction l1 as [|a l1 IH]; [reflexivity|exact IH]. Qed.

(** X8.  Dragging a block of the library to another place permutes the
    library: no block is lost, doubled or changed, the dragged block
    ends at the place it was dropped on (the last place when dropped
    beyond), and the segments and all the rest stay as they are.
    Dropping a block on its own place changes nothing. *)
Theorem handleTextBlockDrop_spec (sourceIndex targetIndex : nat)
  (st : AppState) (moved : TextBlock.t) :
  nth_error (textBlocks st) sourceIndex = Some moved ->
  exists l,
    Library.handleTextBlockDrop sourceIndex targetIndex st
    = Some (setTextBlocks (fun _ => l) st)
    /\ Permutation (textBlocks st) l
    /\ List.length l = List.length (textBlocks st)
    /\ nth_error l (Nat.min targetIndex (List.length (textBlocks st) - 1))
       = Some moved
    /\ (sourceIndex = targetIndex -> l = textBlocks st).
Proof.
  intro Hn. unfold Library.handleTextBlockDrop.
  assert (Hlt : (sourceIndex < List.length (textBlocks st))%nat)
    by (apply nth_error_Some; rewrite Hn; discriminate).
  destruct (Nat.eqb_spec sourceIndex targetIndex) as [E|E].
  - exists (textBlocks st). subst targetIndex. repeat split.
    + destruct st; reflexivity.
    + apply Permutation_refl.
    + rewrite Nat.min_l by lia. exact Hn.
  - destruct (Library.reorder sourceIndex targetIndex (textBlocks st))
      as [l|] eqn:R.
    2:{ unfold Library.reorder in R. rewrite Hn in R. discriminate. }
    exists l. pose proof (reorder_permutation _ _ _ _ R) as P.
    repeat split; [exact P|symmetry; apply (Permutation_length P)| |congruence].
    unfold Library.reorder in R. rewrite Hn in R. injection R as <-.
    unfold JS.splice. rewrite Nat.add_1_r, Nat.add_0_r. cbn [app].
    set (rest := firstn sourceIndex (textBlocks st)
                 ++ skipn (S sourceIndex) (textBlocks st)).
    assert (Lr : List.length rest = (List.length (textBlocks st) - 1)%nat).
    { unfold rest. rewrite length_app, length_firstn, length_skipn. lia. }
    rewrite <- Lr, <- (length_firstn targetIndex rest).
    apply nth_error_middle.
Qed.

Lemma handleTextBlockDrop_spec_witness :
  exists l,
    Library.handleTextBlockDrop 0 1 Sample.timeline
    = Some (setTextBlocks (fun _ => l) Sample.timeline)
    /\ Permutation (textBlocks Sample.timeline) l
    /\ List.length l = 2%nat
    /\ nth_error l 1 = Some (TextBlock.mk "b1" "one")
    /\ (0%nat = 1%nat -> l = textBlocks Sample.timeline).
Proof.
  apply (handleTextBlockDrop_spec 0 1 Sample.timeline
           (TextBlock.mk "b1" "one") eq_refl).
Defined.

(** ** Adding, editing and deleting a block *)

Lemma filter_all {A : Type} (p : A -> bool) (l : list A) :
  (forall x, In x l -> p x = true) -> filter p l = l.
Proof.
  induction l as [|a l IH]; intro H; [reflexivity|].
  simpl. rewrite (H a (or_introl eq_refl)). f_equal.
  apply IH. intros x Hx. apply H. right. exact Hx.
Qed.

Lemma map_same {A : Type} (f : A -> A) (l : list A) :
  (forall x, In x l -> f x = x) -> map f l = l.
Proof.
  induction l as [|a l IH]; intro H; [reflexivity|].
  simpl. rewrite (H a (or_introl eq_refl)). f_equal.
  apply IH. intros x Hx. apply H. right. exact Hx.
Qed.

(** X9.  Deleting a block right after adding it gives back the library
    and the segments as they were: the identifier is fresh, so no other
    block goes and no segment loses its text.  The added block is the
    last one and is the one being edited; its text is the given text,
    or the placeholder when none is given. *)
Theorem delete_undoes_add (text uuid : string) (ui : Ui) :
  ~ In uuid (block_ids (app ui)) ->
  refs_valid (app ui) ->
  let added := Library.addTextBlock text uuid ui in
  textBlocks (app added)
  = textBlocks (app ui)
    ++ [TextBlock.mk uuid
          (if JS.str_truthy text then text else Library.placeholder)]
  /\ editingBlockId added = Some uuid
  /\ segments (app added) = segments (app ui)
  /\ deleteTextBlock uuid (app added) = app ui.
Proof.
  intros Hfresh V. cbv zeta. repeat split.
  unfold Library.addTextBlock, deleteTextBlock. simpl.
  unfold setSegments, setTextBlocks. simpl.
  rewrite filter_app. simpl. rewrite String.eqb_refl. simpl.
  rewrite app_nil_r, filter_all, map_same.
  - destruct (app ui); reflexivity.
  - intros s Hs. destruct (VideoSegment.textId s) as [x|] eqn:E; [|reflexivity].
    simpl. destruct (String.eqb_spec x uuid) as [->|N]; [|reflexivity].
    exfalso. apply Hfresh. apply (V s uuid Hs E).
  - intros b Hb. apply negb_true_iff. apply String.eqb_neq. intros <-.
    apply Hfresh. unfold block_ids. apply in_map. exact Hb.
Qed.

Lemma delete_undoes_add_witness :
  deleteTextBlock "n1"
    (app (Library.addTextBlock "three" "n1"
            (mkUi Sample.timeline None None "clip")))
  = Sample.timeline.
Proof.
  apply (proj2 (proj2 (proj2
           (delete_undoes_add "three" "n1"
              (mkUi Sample.timeline None None "clip")
              ltac:(simpl; intros [H|[H|[]]]; discriminate)
              ltac:(intros s i [<-|[<-|[<-|[]]]] [= <-]; simpl; auto))))).
Defined.

Lemma find_updated (id text : string) (blocks : list TextBlock.t) (i : string) :
  find (fun b => (TextBlock.id b =? i)%string)
       (map (fun b => if (TextBlock.id b =? id)%string
                      then TextBlock.mk (TextBlock.id b) text else b) blocks)
  = option_map (fun b => if (TextBlock.id b =? id)%string
                         then TextBlock.mk (TextBlock.id b) text else b)
      (find (fun b => (TextBlock.id b =? i)%string) blocks).
Proof.
  induction blocks as [|b blocks IH]; [reflexivity|].
  simpl. destruct (TextBlock.id b =? id)%string eqn:E1; simpl;
    destruct (TextBlock.id b =? i)%string eqn:E2; simpl;
    rewrite ?E1; try reflexivity; exact IH.
Qed.

(** X10.  Editing a block changes what is exported for the segments
    that reference it, and for no other segment: after the text of the
    block [id] is replaced, a segment referencing [id] is exported with
    the new text and every other segment with the text it had.  The
    places and identifiers of the blocks stay; the block leaves edit
    mode; an unknown [id] leaves the library as it is. *)
Theorem updateTextBlock_spec (id text : string) (ui : Ui) :
  let ui' := Library.updateTextBlock id text ui in
  (forall s, VideoSegment.textId s = Some id -> id <> EmptyString ->
             In id (block_ids (app ui)) ->
             Lrc.blockText (textBlocks (app ui')) s = text)
  /\ (forall s, VideoSegment.textId s <> Some id ->
                Lrc.blockText (textBlocks (app ui')) s
                = Lrc.blockText (textBlocks (app ui)) s)
  /\ block_ids (app ui') = block_ids (app ui)
  /\ segments (app ui') = segments (app ui)
  /\ editingBlockId ui' = None
  /\ (~ In id (block_ids (app ui)) -> app ui' = app ui).
Proof.
  cbv zeta. split; [|split; [|split; [|split; [|split]]]].
  - intros s Hs Hne Hin. unfold Lrc.blockText. rewrite Hs.
    apply str_truthy_nonempty in Hne. rewrite Hne. simpl.
    rewrite find_updated.
    destruct (find _ (textBlocks (app ui))) as [b|] eqn:F.
    + apply find_some in F. destruct F as [_ F]. simpl. rewrite F. reflexivity.
    + exfalso. unfold block_ids in Hin. apply in_map_iff in Hin.
      destruct Hin as (b & Hb & Hin).
      pose proof (find_none _ _ F b Hin) as N. simpl in N.
      rewrite Hb, String.eqb_refl in N. discriminate.
  - intros s Hs. unfold Lrc.blockText.
    destruct (VideoSegment.textId s) as [i|]; [|reflexivity].
    destruct (JS.str_truthy i); [|reflexivity]. simpl.
    rewrite find_updated.
    destruct (find _ (textBlocks (app ui))) as [b|] eqn:F; [|reflexivity].
    apply find_some in F. destruct F as [_ F]. apply String.eqb_eq in F.
    simpl. destruct (String.eqb_spec (TextBlock.id b) id) as [E|E];
      [congruence|reflexivity].
  - unfold block_ids. simpl. apply updateTextBlock_ids.
  - reflexivity.
  - reflexivity.
  - intro N. simpl. unfold setTextBlocks. rewrite map_same.
    + destruct (app ui); reflexivity.
    + intros b Hb. destruct (String.eqb_spec (TextBlock.id b) id) as [E|E];
        [|reflexivity].
      exfalso. apply N. unfold block_ids. rewrite <- E. apply in_map. exact Hb.
Qed.

Lemma find_filter_id (id i : string) (blocks : list TextBlock.t) :
  i <> id ->
  find (fun b => (TextBlock.id b =? i)%string)
       (filter (fun b => negb (TextBlock.id b =? id)%string) blocks)
  = find (fun b => (TextBlock.id b =? i)%string) blocks.
Proof.
  intro N. induction blocks as [|b blocks IH]; [reflexivity|].
  simpl. destruct (String.eqb_spec (TextBlock.id b) id) as [E|E]; simpl.
  - destruct (String.eqb_spec (TextBlock.id b) i) as [E'|E']; [congruence|].
    exact IH.
  - destruct (TextBlock.id b =? i)%string; [reflexivity|exact IH].
Qed.

(** X11.  Deleting a block shows in the export exactly at the segments
    that referenced it: their lines become bare time stamps, and every
    other line, and the number of lines, is as before. *)
Theorem deleteTextBlock_export (id : string) (st : AppState) :
  Lrc.lrcLines (deleteTextBlock id st)
  = map (fun s =>
           if textId_is (VideoSegment.textId s) id
           then Lrc.formatLrcTime (VideoSegment.startTime s)
           else Lrc.lrcLine (textBlocks st) s)
        (segments st).
Proof.
  unfold Lrc.lrcLines, deleteTextBlock, setSegments, setTextBlocks.
  cbn [segments textBlocks]. rewrite map_map. apply map_ext. intro s.
  destruct (textId_is (VideoSegment.textId s) id) eqn:T.
  - unfold Lrc.lrcLine, Lrc.blockText.
    cbn [VideoSegment.with_textId VideoSegment.textId VideoSegment.startTime].
    apply append_empty_r.
  - unfold Lrc.lrcLine. f_equal. unfold Lrc.blockText.
    destruct (VideoSegment.textId s) as [i|]; [|reflexivity].
    destruct (JS.str_truthy i); [|reflexivity].
    rewrite find_filter_id; [reflexivity|].
    intros ->. simpl in T. rewrite String.eqb_refl in T. discriminate.
Qed.

(** ** The time stamp read back *)

Lemma N_toString_nonempty (n : N) : Lrc.is_empty (Str.N_toString n) = false.
Proof.
  unfold Str.N_toString. cbn [Str.digits_aux].
  set (acc := String _ EmptyString).
  assert (L : (1 <= String.length acc)%nat) by (simpl; lia).
  destruct (n / 10 =? 0)%N; [reflexivity|].
  pose proof (digits_aux_length (N.size_nat n) (n / 10) acc) as L'.
  destruct (Str.digits_aux _ _ _); [simpl in L'; lia|reflexivity].
Qed.

Lemma minutes_digits (m : N) :
  all_digits (Format.minutes m) = true
  /\ Lrc.is_empty (Format.minutes m) = false
  /\ Str.digits_val (Format.minutes m) = m.
Proof.
  unfold Format.minutes. destruct (m <? 10)%N.
  - repeat split; [simpl; apply N_toString_digits|].
    unfold Str.digits_val. cbn [Str.digits_val_from].
    change (10 * 0 + Str.digit_val "0")%N with 0%N. apply N_toString_val.
  - repeat split; [apply N_toString_digits|apply N_toString_nonempty
                  |apply N_toString_val].
Qed.

Lemma two_digits_digits (k : N) :
  (k < 100)%N ->
  all_digits (Format.two_digits k) = true
  /\ Str.digits_val (Format.two_digits k) = k.
Proof.
  intro H.
  assert (A : (k / 10 < 10)%N) by (apply N.Div0.div_lt_upper_bound; lia).
  assert (B : (k mod 10 < 10)%N) by (apply N.mod_lt; discriminate).
  split.
  - simpl. rewrite !is_digit_char by assumption. reflexivity.
  - unfold Format.two_digits, Str.digits_val. cbn [Str.digits_val_from].
    rewrite !digit_val_char by assumption.
    pose proof (N.div_mod k 10 ltac:(discriminate)). lia.
Qed.

Lemma span_digits_app (d r : string) :
  all_digits d = true ->
  (forall c r', r = String c r' -> Str.is_digit c = false) ->
  Str.span_digits (d ++ r) = (d, r).
Proof.
  intros Hd Hr. induction d as [|c d IH]; simpl.
  - destruct r as [|c r']; [reflexivity|].
    simpl. rewrite (Hr c r' eq_refl). reflexivity.
  - simpl in Hd. apply andb_true_iff in Hd. destruct Hd as [Hc Hd].
    rewrite Hc, (IH Hd). reflexivity.
Qed.

Lemma string_length_app (a b : string) :
  String.length (a ++ b) = (String.length a + String.length b)%nat.
Proof. induction a as [|c a IH]; simpl; [|rewrite IH]; reflexivity. Qed.

Lemma match_tag_parts (m si sf rest : string) :
  all_digits m = true -> Lrc.is_empty m = false ->
  all_digits si = true -> Lrc.is_empty si = false ->
  all_digits sf = true -> Lrc.is_empty sf = false ->
  Lrc.match_tag
    (String "[" (m ++ String ":" (si ++ String "." (sf ++ String "]" rest))))
  = Some (Lrc.mkTag m si (Some sf)
            (4 + String.length m + String.length si + String.length sf)).
Proof.
  intros M1 M2 A1 A2 B1 B2. unfold Lrc.match_tag.
  cbn [Lrc.expect]. rewrite Ascii.eqb_refl.
  rewrite (span_digits_app m) by
    (try exact M1; intros c r' [= <- _]; reflexivity).
  rewrite M2. cbn [Lrc.expect]. rewrite Ascii.eqb_refl.
  rewrite (span_digits_app si) by
    (try exact A1; intros c r' [= <- _]; reflexivity).
  rewrite A2. cbn [Lrc.expect].
  change (Ascii.eqb "." "]") with false. cbv iota. rewrite Ascii.eqb_refl.
  rewrite (span_digits_app sf) by
    (try exact B1; intros c r' [= <- _]; reflexivity).
  rewrite B2. cbn [Lrc.expect]. rewrite Ascii.eqb_refl. reflexivity.
Qed.

(** The pattern matches a time stamp of the export at its start. *)
Lemma match_tag_stamp (m h : N) (rest : string) :
  (h <= 6000)%N ->
  Lrc.match_tag
    (("[" ++ Format.minutes m ++ ":" ++ Format.seconds h ++ "]") ++ rest)
  = Some (Lrc.mkTag (Format.minutes m) (Format.two_digits (h / 100))
            (Some (Format.two_digits (h mod 100)))
            (String.length
               ("[" ++ Format.minutes m ++ ":" ++ Format.seconds h ++ "]"))).
Proof.
  intro H.
  assert (A : (h / 100 < 100)%N) by (apply N.Div0.div_lt_upper_bound; lia).
  assert (B : (h mod 100 < 100)%N) by (apply N.mod_lt; discriminate).
  destruct (minutes_digits m) as (M1 & M2 & _).
  destruct (two_digits_digits _ A) as (A1 & _).
  destruct (two_digits_digits _ B) as (B1 & _).
  unfold Format.seconds.
  replace (("[" ++ Format.minutes m ++ ":"
            ++ (Format.two_digits (h / 100) ++ "."
                ++ Format.two_digits (h mod 100)) ++ "]") ++ rest)%string
    with (String "[" (Format.minutes m ++ String ":"
            (Format.two_digits (h / 100) ++ String "."
               (Format.two_digits (h mod 100) ++ String "]" rest)))).
  - rewrite match_tag_parts; try assumption; try reflexivity.
    f_equal. f_equal. simpl. rewrite !string_length_app. simpl. lia.
  - simpl. repeat (rewrite append_assoc; simpl). reflexivity.
Qed.

Lemma Qmake_100 (z : Z) : (z # 100) == inject_Z z * (1 # 100).
Proof. unfold Qeq. simpl. lia. Qed.

Lemma two_digits_length (k : N) : String.length (Format.two_digits k) = 2%nat.
Proof. reflexivity. Qed.

(** The time read from a time stamp with the minutes [m] and the
    seconds [h / 100]: the minutes are read exactly, the seconds as a
    double, and the sum is rounded. *)
Lemma timeInSeconds_stamp (m h : N) (len : nat) :
  (h <= 6000)%N -> (Z.of_N m < 2 ^ 40)%Z ->
  Lrc.timeInSeconds
    (Lrc.mkTag (Format.minutes m) (Format.two_digits (h / 100))
       (Some (Format.two_digits (h mod 100))) len)
  = Num.add (inject_Z (60 * Z.of_N m)) (Num.double (Z.of_N h # 100)).
Proof.
  intros H Hm.
  assert (A : (h / 100 < 100)%N) by (apply N.Div0.div_lt_upper_bound; lia).
  assert (B : (h mod 100 < 100)%N) by (apply N.mod_lt; discriminate).
  destruct (minutes_digits m) as (_ & _ & M).
  destruct (two_digits_digits _ A) as (_ & VA).
  destruct (two_digits_digits _ B) as (_ & VB).
  unfold Lrc.timeInSeconds, Num.parseInt, Num.parseFloat.
  cbn [Lrc.minutes_digits Lrc.seconds_int Lrc.seconds_frac].
  rewrite M, VA, VB, two_digits_length.
  change (Pos.pow 10 (Pos.of_nat 2)) with 100%positive.
  rewrite (double_int (Z.of_N m)) by lia.
  assert (E1 : Num.mul (inject_Z (Z.of_N m)) 60 = inject_Z (60 * Z.of_N m)).
  { unfold Num.mul. rewrite <- (double_int (60 * Z.of_N m)) by lia.
    apply double_wd. rewrite inject_Z_mult. ring. }
  rewrite E1. f_equal. apply double_wd.
  pose proof (N.div_mod h 100 ltac:(discriminate)) as D.
  rewrite (Qmake_100 (Z.of_N (h mod 100))), (Qmake_100 (Z.of_N h)).
  rewrite D at 3. rewrite N2Z.inj_add, N2Z.inj_mul, inject_Z_plus, inject_Z_mult.
  change (inject_Z (Z.of_N 100)) with 100. field.
Qed.

Lemma floor_hundredths (x : Q) :
  0 <= x ->
  Z.of_N (Format.hundredths x)
  = Qfloor ((x - 60 * inject_Z (Qfloor (x / 60))) * 100 + (1 # 2)).
Proof.
  intro H. unfold Format.hundredths. apply Z2N.id.
  destruct (rem_60_range x H) as [L _].
  change 0%Z with (Qfloor 0). apply Qfloor_resp_le. lra.
Qed.

Lemma rounded_close (x : Q) : 0 <= x -> Qabs (rounded x - x) <= 1 # 200.
Proof.
  intro H. unfold rounded. rewrite (floor_hundredths x H).
  set (F := inject_Z (Qfloor (x / 60))).
  set (r := x - 60 * F).
  pose proof (Qfloor_le (r * 100 + (1 # 2))) as L.
  pose proof (Qlt_floor (r * 100 + (1 # 2))) as U.
  rewrite inject_Z_plus in U. change (inject_Z 1) with 1 in U.
  rewrite Qmake_100, inject_Z_mult. fold F. change (inject_Z 60) with 60.
  set (Hq := inject_Z (Qfloor (r * 100 + (1 # 2)))) in *.
  apply Qabs_Qle_condition. unfold r in *. split; lra.
Qed.

Lemma rounded_exact (x : Q) (k : Z) :
  0 <= x -> x == k # 100 -> rounded x == x.
Proof.
  intros H E. unfold rounded. rewrite (floor_hundredths x H).
  set (Fz := Qfloor (x / 60)).
  assert (R : (x - 60 * inject_Z Fz) * 100 + (1 # 2)
              == inject_Z (k - 6000 * Fz) + (1 # 2)).
  { rewrite E, Qmake_100. unfold Zminus.
    rewrite inject_Z_plus, inject_Z_opp, inject_Z_mult.
    change (inject_Z 6000) with 6000. lra. }
  rewrite (Qfloor_comp _ _ R).
  set (J := (k - 6000 * Fz)%Z).
  assert (FJ : Qfloor (inject_Z J + (1 # 2)) = J).
  { pose proof (Qfloor_le (inject_Z J + (1 # 2))) as L.
    pose proof (Qlt_floor (inject_Z J + (1 # 2))) as U.
    set (Hz := Qfloor (inject_Z J + (1 # 2))) in *.
    assert (L' : inject_Z Hz < inject_Z (J + 1)).
    { rewrite inject_Z_plus. change (inject_Z 1) with 1. lra. }
    assert (U' : inject_Z J < inject_Z (Hz + 1)).
    { rewrite inject_Z_plus in *. change (inject_Z 1) with 1 in *. lra. }
    rewrite <- Zlt_Qlt in L', U'. lia. }
  rewrite FJ. unfold J. rewrite (Qmake_100 (k - 6000 * Fz)), E, (Qmake_100 k).
  unfold Zminus. rewrite !inject_Z_plus, inject_Z_opp, !inject_Z_mult.
  change (inject_Z 6000) with 6000. change (inject_Z 60) with 60. lra.
Qed.

(** The rounding error of a number of bounded size. *)
Lemma double_error_bound (x b : Q) :
  Qabs x <= b ->
  Qabs (Num.double x - x) <= b * (1 # 2 ^ 53) + (1 # 2 ^ 1075).
Proof.
  intro H. eapply Qle_trans; [apply double_error|].
  apply Qplus_le_l. apply Qmult_le_compat_r; [exact H|discriminate].
Qed.

(** X12.  The import reads a time stamp of the export as the time it
    was written for, up to the rounding to hundredths of a second and
    to doubles.  For a time from 0 up to [2 ^ 32] seconds, the pattern
    matches the written time stamp as a whole, whatever follows it; the
    time read is the sum, as a double, of the whole minutes and of the
    double of the seconds written; it differs from the time written by
    at most 0.005 s and [2 ^ -19] s, and the import's test of its
    tolerance of 0.01 s accepts it; a whole number of seconds is read
    back exactly. *)
Theorem timestamp_round_trip (x : Q) (rest : string) :
  0 <= x -> x < inject_Z (2 ^ 32) ->
  exists t,
    Lrc.match_tag (Lrc.formatLrcTime x ++ rest) = Some t
    /\ Lrc.tag_length t = String.length (Lrc.formatLrcTime x)
    /\ Lrc.timeInSeconds t
       = Num.add (inject_Z (60 * Qfloor (x / 60)))
           (Num.double (Z.of_N (Format.hundredths x) # 100))
    /\ Qabs (Lrc.timeInSeconds t - rounded x) <= 1 # 2 ^ 19
    /\ Qabs (Lrc.timeInSeconds t - x) <= (1 # 200) + (1 # 2 ^ 19)
    /\ Qabs (Num.sub (Lrc.timeInSeconds t) x) < Num.double (1 # 100)
    /\ (forall k, x == inject_Z k -> Lrc.timeInSeconds t == x).
Proof.
  intros H Hx. rewrite (formatLrcTime_nonneg x H).
  pose proof (hundredths_le x H) as Hh.
  pose proof (floor_minutes_nonneg x H) as Hm.
  rewrite (match_tag_stamp _ _ rest Hh). eexists. split; [reflexivity|].
  split; [reflexivity|].
  assert (Ml : inject_Z (60 * Qfloor (x / 60)) <= x).
  { rewrite inject_Z_mult. change (inject_Z 60) with 60.
    pose proof (Qfloor_le (x / 60)) as L.
    assert (E : x == 60 * (x / 60)) by (field).
    rewrite E at 2. lra. }
  assert (Mb : (Qfloor (x / 60) < 2 ^ 40)%Z).
  { rewrite Zlt_Qlt. eapply Qle_lt_trans; [apply Qfloor_le|].
    apply Qlt_shift_div_r; [reflexivity|].
    eapply Qlt_le_trans; [exact Hx|]. discriminate. }
  rewrite (timeInSeconds_stamp _ _ _ Hh) by (rewrite Z2N.id; assumption).
  rewrite Z2N.id by exact Hm.
  set (A := inject_Z (60 * Qfloor (x / 60))) in *.
  set (s := Z.of_N (Format.hundredths x) # 100).
  assert (A0 : 0 <= A).
  { unfold A. rewrite <- (Zle_Qle 0). lia. }
  assert (S0 : 0 <= s /\ s <= 60).
  { unfold s. split; [unfold Qle; simpl; lia|].
    unfold Qle. simpl. lia. }
  pose proof (rounded_close x H) as C. unfold rounded in C.
  fold A in C. fold s in C. apply Qabs_Qle_condition in C.
  assert (B1 : Qabs (Num.double s - s)
               <= 61 * (1 # 2 ^ 53) + (1 # 2 ^ 1075)).
  { apply double_error_bound. rewrite Qabs_pos; lra. }
  set (c1 := 61 * (1 # 2 ^ 53) + (1 # 2 ^ 1075)) in *.
  assert (N1 : c1 <= 1 # 2 ^ 40) by (vm_compute; discriminate).
  assert (N0 : 0 <= 1 # 2 ^ 40 /\ 1 # 2 ^ 40 <= 1) by (split; discriminate).
  apply Qabs_Qle_condition in B1.
  pose proof (double_nonneg s (proj1 S0)) as Bn.
  set (b := Num.double s) in *.
  assert (B2 : Qabs (Num.double (A + b) - (A + b))
               <= (inject_Z (2 ^ 32) + 61) * (1 # 2 ^ 53) + (1 # 2 ^ 1075)).
  { apply double_error_bound. rewrite Qabs_pos; lra. }
  set (c2 := (inject_Z (2 ^ 32) + 61) * (1 # 2 ^ 53) + (1 # 2 ^ 1075)) in *.
  assert (N2 : c1 + c2 <= 1 # 2 ^ 19) by (vm_compute; discriminate).
  assert (N3 : 0 <= c2) by (vm_compute; discriminate).
  apply Qabs_Qle_condition in B2.
  unfold Num.add. set (t := Num.double (A + b)) in *.
  assert (T1 : Qabs (t - rounded x) <= 1 # 2 ^ 19).
  { unfold rounded. fold A. fold s. apply Qabs_Qle_condition. lra. }
  assert (T2 : Qabs (t - x) <= (1 # 200) + (1 # 2 ^ 19)).
  { apply Qabs_Qle_condition in T1. unfold rounded in T1.
    fold A in T1. fold s in T1. apply Qabs_Qle_condition. lra. }
  split; [reflexivity|]. split; [exact T1|]. split; [exact T2|]. split.
  - assert (B3 : Qabs (Num.double (t - x) - (t - x))
                 <= (1 # 100) * (1 # 2 ^ 53) + (1 # 2 ^ 1075)).
    { apply double_error_bound. eapply Qle_trans; [exact T2|].
      vm_compute. discriminate. }
    set (c3 := (1 # 100) * (1 # 2 ^ 53) + (1 # 2 ^ 1075)) in *.
    assert (N4 : (1 # 200) + (1 # 2 ^ 19) + c3 < Num.double (1 # 100))
      by (vm_compute; reflexivity).
    apply Qabs_Qle_condition in B3, T2.
    unfold Num.sub. set (z := Num.double (t - x)) in *.
    set (tol := Num.double (1 # 100)) in *.
    set (r := (1 # 200) + (1 # 2 ^ 19)) in *.
    apply Qabs_case; intros _; lra.
  - intros k E.
    assert (R : rounded x == x).
    { apply (rounded_exact x (100 * k) H). rewrite E.
      unfold Qeq, inject_Z. cbn [Qnum Qden]. lia. }
    unfold rounded in R. fold A in R. fold s in R.
    assert (Es : s == inject_Z (k - 60 * Qfloor (x / 60))).
    { unfold Zminus. rewrite inject_Z_plus, inject_Z_opp. fold A.
      rewrite <- E. lra. }
    assert (Kb : (Z.abs (k - 60 * Qfloor (x / 60)) < 2 ^ 53)%Z).
    { destruct S0 as [S1 S2]. rewrite Es in S1, S2.
      rewrite <- (Zle_Qle 0) in S1.
      assert (S3 : (k - 60 * Qfloor (x / 60) <= 60)%Z)
        by (rewrite Zle_Qle; exact S2).
      lia. }
    assert (Eb : b = inject_Z (k - 60 * Qfloor (x / 60))).
    { unfold b. rewrite (double_wd _ _ Es). apply double_int. exact Kb. }
    assert (Et : t = inject_Z k).
    { unfold t. rewrite <- (double_int k).
      - apply double_wd. rewrite Eb. unfold A, Zminus.
        rewrite inject_Z_plus, inject_Z_opp. ring.
      - rewrite E in H, Hx. rewrite <- (Zle_Qle 0) in H.
        rewrite <- Zlt_Qlt in Hx. lia. }
    rewrite Et, E. reflexivity.
Qed.

Lemma timestamp_round_trip_witness :
  exists t,
    Lrc.match_tag (Lrc.formatLrcTime (634 # 10) ++ "Hello") = Some t
    /\ Lrc.timeInSeconds t = Num.double (634 # 10)
    /\ Qabs (Num.sub (Lrc.timeInSeconds t) (634 # 10)) < Num.double (1 # 100).
Proof.
  destruct (timestamp_round_trip (634 # 10) "Hello" ltac:(discriminate)
              ltac:(reflexivity))
    as (t & H1 & _ & H2 & _ & _ & H3 & _).
  exists t. split; [exact H1|]. split; [|exact H3].
  rewrite H2. vm_compute. reflexivity.
Defined.

(** ** Imports that are rejected *)

Lemma match_tag_no_bracket_start (c : ascii) (r : string) :
  Ascii.eqb c "[" = false -> Lrc.match_tag (String c r) = None.
Proof. intro H. unfold Lrc.match_tag. simpl. rewrite H. reflexivity. Qed.

Lemma scan_no_bracket (s : string) :
  no_bracket s = true ->
  Lrc.matchAll_pieces (Lrc.scan 0 s) = []
  /\ Lrc.replace_pieces (Lrc.scan 0 s) = s.
Proof.
  induction s as [|c s IH]; [split; reflexivity|].
  simpl no_bracket. intro H. apply andb_true_iff in H. destruct H as [Hc Hs].
  apply negb_true_iff in Hc. cbn [Lrc.scan].
  rewrite (match_tag_no_bracket_start c s Hc).
  destruct (IH Hs) as [E1 E2]. simpl. rewrite E1, E2. split; reflexivity.
Qed.

Lemma split_nl_no_bracket (s : string) :
  no_bracket s = true ->
  Forall (fun l => no_bracket l = true) (Str.split_nl s).
Proof.
  induction s as [|c s IH]; [repeat constructor|].
  simpl. intro H. apply andb_true_iff in H. destruct H as [Hc Hs].
  specialize (IH Hs). destruct (Ascii.eqb c Str.nl).
  - constructor; [reflexivity|exact IH].
  - destruct (Str.split_nl s) as [|h t];
      [repeat constructor; simpl; rewrite Hc; reflexivity|].
    inversion IH; subst. constructor; [|assumption].
    simpl. rewrite Hc. assumption.
Qed.

Lemma parse_no_bracket (text : string) :
  no_bracket text = true -> Lrc.parseLRCFile text = ([], 0).
Proof.
  intro H. apply split_nl_no_bracket in H. unfold Lrc.parseLRCFile.
  assert (E : forall lines acc,
             Forall (fun l => no_bracket l = true) lines ->
             fold_left Lrc.parse_line lines acc = acc).
  { intros lines acc F. revert acc.
    induction F as [|l ls Hl Hls IH]; intro acc; [reflexivity|].
    simpl. unfold Lrc.parse_line at 2, Lrc.matchAll.
    rewrite (proj1 (scan_no_bracket l Hl)). simpl. apply IH. }
  rewrite E; [reflexivity|].
  apply Forall_forall. intros l Hl. apply filter_In in Hl.
  rewrite Forall_forall in H. apply H. apply Hl.
Qed.

(** X13.  An import either succeeds or changes nothing: when
    [handleLrcImport] reports an empty file or a duration mismatch, the
    state is the one before.  A text without opening bracket holds no
    time tag, so its import is reported as empty, with any duration. *)
Theorem handleLrcImport_all_or_nothing (uuid : nat -> string) (text : string)
  (st : AppState) :
  (forall st' out,
      Lrc.handleLrcImport uuid text st = (st', out) ->
      (forall n m, out <> Lrc.Imported n m) -> st' = st)
  /\ (no_bracket text = true ->
      Lrc.handleLrcImport uuid text st = (st, Lrc.EmptyImport)).
Proof.
  split.
  - intros st' out. unfold Lrc.handleLrcImport.
    destruct (Lrc.parseLRCFile text) as [entries maxTime].
    destruct (List.length entries =? 0)%nat; [intros [= <- _] _; reflexivity|].
    destruct (JS.Qlt_bool 0 (duration st) && JS.Qlt_bool (duration st) maxTime);
      [intros [= <- _] _; reflexivity|].
    intros [= _ <-] N. destruct (N _ _ eq_refl).
  - intro H. unfold Lrc.handleLrcImport. rewrite (parse_no_bracket text H).
    reflexivity.
Qed.

Lemma handleLrcImport_all_or_nothing_witness :
  Lrc.handleLrcImport Sample.uuid "no time tags here" Sample.timeline
  = (Sample.timeline, Lrc.EmptyImport).
Proof.
  apply (proj2 (handleLrcImport_all_or_nothing Sample.uuid
                  "no time tags here" Sample.timeline)).
  reflexivity.
Defined.

(** ** The two copies of the export *)

Lemma find_textId_is (i : string) (blocks : list TextBlock.t) :
  find (fun b => textId_is (Some i) (TextBlock.id b)) blocks
  = find (fun b => (TextBlock.id b =? i)%string) blocks.
Proof.
  induction blocks as [|b l IH]; [reflexivity|].
  cbn [find textId_is] in *. rewrite IH, (String.eqb_sym i). reflexivity.
Qed.

(** X14.  The older copy of the export writes the lines of the newer
    one for the segments whose text reference names a block, and leaves
    the other segments out; when every segment is assigned a block of
    the library the two copies write the same file. *)
Theorem earlier_export_lines (st : AppState) :
  EarlierRevision.lrcLines st
  = map (Lrc.lrcLine (textBlocks st))
      (filter
         (fun s =>
            match VideoSegment.textId s with
            | Some i =>
                JS.str_truthy i
                && existsb (fun b => (TextBlock.id b =? i)%string)
                     (textBlocks st)
            | None => false
            end)
         (segments st))
  /\ ((forall s, In s (segments st) ->
                 exists i, VideoSegment.textId s = Some i
                           /\ i <> EmptyString /\ In i (block_ids st)) ->
      EarlierRevision.exportLRC st = Lrc.exportLRC st).
Proof.
  assert (L : EarlierRevision.lrcLines st
              = map (Lrc.lrcLine (textBlocks st))
                  (filter
                     (fun s =>
                        match VideoSegment.textId s with
                        | Some i =>
                            JS.str_truthy i
                            && existsb (fun b => (TextBlock.id b =? i)%string)
                                 (textBlocks st)
                        | None => false
                        end)
                     (segments st))).
  { unfold EarlierRevision.lrcLines.
    induction (segments st) as [|s l IH]; [reflexivity|].
    cbn [filter]. unfold JS.truthy at 1.
    destruct (VideoSegment.textId s) as [i|] eqn:E; [|exact IH].
    destruct (JS.str_truthy i) eqn:T; cbn [andb]; [|exact IH].
    cbn [flat_map]. rewrite E, find_textId_is, IH.
    destruct (find (fun b => (TextBlock.id b =? i)%string) (textBlocks st))
      as [b|] eqn:F.
    - assert (X : existsb (fun b => (TextBlock.id b =? i)%string)
                    (textBlocks st) = true).
      { apply existsb_exists. exists b. apply (find_some _ _ F). }
      rewrite X. cbn [map app]. f_equal.
      unfold Lrc.lrcLine, Lrc.blockText. rewrite E, T, F. reflexivity.
    - assert (X : existsb (fun b => (TextBlock.id b =? i)%string)
                    (textBlocks st) = false).
      { destruct (existsb _ _) eqn:X; [|reflexivity].
        apply existsb_exists in X. destruct X as (b & Hb & Hi).
        rewrite (find_none _ _ F b Hb) in Hi. discriminate. }
      rewrite X. reflexivity. }
  split; [exact L|].
  intro H. unfold EarlierRevision.exportLRC, Lrc.exportLRC, Lrc.lrcLines.
  rewrite L. f_equal. f_equal. apply filter_all.
  intros s Hs. destruct (H s Hs) as (i & E & Ne & Hi). rewrite E.
  apply str_truthy_nonempty in Ne. rewrite Ne. simpl.
  apply existsb_exists. unfold block_ids in Hi. apply in_map_iff in Hi.
  destruct Hi as (b & Hb & Hin). exists b. split; [exact Hin|].
  rewrite Hb. apply String.eqb_refl.
Qed.

Lemma earlier_export_lines_witness :
  EarlierRevision.exportLRC
    (setSegments (fun _ => [Sample.seg "s2" 4 9 (Some "b2")]) Sample.timeline)
  = Lrc.exportLRC
      (setSegments (fun _ => [Sample.seg "s2" 4 9 (Some "b2")]) Sample.timeline).
Proof.
  apply (proj2 (earlier_export_lines
                  (setSegments (fun _ => [Sample.seg "s2" 4 9 (Some "b2")])
                     Sample.timeline))).
  intros s [<-|[]]. exists "b2". repeat split; [discriminate|].
  right. left. reflexivity.
Defined.

(** ** The name of the exported file *)

Lemma plain_dot (a b : string) : FileName.plain (a ++ String "." b) = false.
Proof.
  induction a as [|c a IH]; simpl.
  - reflexivity.
  - rewrite IH. apply andb_false_r.
Qed.

Lemma stripExtension_no_dot (name : string) :
  (forall a b, name <> (a ++ String "." b)%string) ->
  FileName.stripExtension name = name.
Proof.
  induction name as [|c name IH]; intro H; [reflexivity|].
  simpl. destruct (Ascii.eqb_spec c ".") as [->|N].
  - destruct (H EmptyString name eq_refl).
  - simpl. f_equal. apply IH. intros a b E.
    apply (H (String c a) b). simpl. rewrite E. reflexivity.
Qed.

(** X15.  The exported file is named after the video file.  For a file
    name [base.ext], where [ext] is not empty and holds neither dot nor
    slash, the name kept at upload is [base], whatever [base] holds, and
    the export is offered as [base.lrc]; a name without dot is kept
    whole.  Choosing a file also clears the segments and leaves the
    library alone. *)
Theorem export_file_name (base ext : string) (ui : Ui) :
  ext <> EmptyString -> FileName.plain ext = true ->
  FileName.stripExtension (base ++ String "." ext) = base
  /\ FileName.download
       (FileName.handleVideoUpload (base ++ String "." ext) ui)
     = (base ++ ".lrc")%string
  /\ segments (app (FileName.handleVideoUpload (base ++ String "." ext) ui))
     = []
  /\ textBlocks (app (FileName.handleVideoUpload (base ++ String "." ext) ui))
     = textBlocks (app ui)
  /\ ((forall a b, base <> (a ++ String "." b)%string) ->
      FileName.stripExtension base = base).
Proof.
  intros Hne Hp.
  assert (S : FileName.stripExtension (base ++ String "." ext) = base).
  { induction base as [|c base IH]; simpl.
    - rewrite Hp. destruct ext; [congruence|reflexivity].
    - rewrite plain_dot, andb_false_r, IH. reflexivity. }
  split; [exact S|]. split.
  { unfold FileName.download, FileName.handleVideoUpload. simpl.
    rewrite S. reflexivity. }
  repeat split. apply stripExtension_no_dot.
Qed.

Lemma export_file_name_witness :
  FileName.download (FileName.handleVideoUpload "my.clip.mp4" initial)
  = "my.clip.lrc".
Proof.
  apply (proj1 (proj2 (export_file_name "my.clip" "mp4" initial
                         ltac:(discriminate) ltac:(reflexivity)))).
Defined.

(** ** Seeking *)

Lemma max_min_clamp (t d : Q) :
  0 < d ->
  0 <= Num.max 0 (Playback.min t d) /\ Num.max 0 (Playback.min t d) <= d
  /\ (0 <= t -> t <= d -> Num.max 0 (Playback.min t d) = t).
Proof.
  intro Hd. unfold Num.max, Playback.min.
  destruct (Qle_bool t d) eqn:E1.
  - apply Qle_bool_iff in E1. destruct (Qle_bool 0 t) eqn:E2.
    + apply Qle_bool_iff in E2. repeat split; assumption.
    + repeat split; [apply Qle_refl|apply Qlt_le_weak; exact Hd|].
      intros H0 _. apply Qle_bool_iff in H0. congruence.
  - destruct (Qle_bool 0 d) eqn:E2.
    + repeat split; [apply Qlt_le_weak; exact Hd|apply Qle_refl|].
      intros _ H1. apply Qle_bool_iff in H1. congruence.
    + repeat split; [apply Qle_refl|apply Qlt_le_weak; exact Hd|].
      intros _ H1. apply Qle_bool_iff in H1. congruence.
Qed.

(** X16.  Seeking keeps the playhead inside the video: with a video of
    positive duration the new position lies between 0 and the duration
    and is the requested one when that lies there; nothing else
    changes.  In a partition, the jump to the start of a segment makes
    this segment the active one.  Without video element the state stays
    as it is. *)
Theorem seek_spec (time : Q) (st : AppState) :
  0 < duration st ->
  let st' := Playback.seek true time st in
  0 <= currentTime st' /\ currentTime st' <= duration st
  /\ (0 <= time -> time <= duration st -> currentTime st' = time)
  /\ st' = setCurrentTime (currentTime st') st
  /\ (forall s,
        partition_invariant (duration st) (segments st) ->
        In s (segments st) ->
        Playback.isActive
          (currentTime (Playback.seek true (VideoSegment.startTime s) st)) s
        = true)
  /\ Playback.seek false time st = st.
Proof.
  intro Hd. cbv zeta. unfold Playback.seek.
  rewrite (proj2 (Qlt_bool_true _ _) Hd). simpl.
  destruct (max_min_clamp time (duration st) Hd) as (C1 & C2 & C3).
  repeat split; try assumption.
  intros s P Hs. pose proof (partition_chained _ _ P) as C.
  destruct (chained_range _ _ _ s C Hs) as (R1 & R2 & R3).
  destruct (max_min_clamp (VideoSegment.startTime s) (duration st) Hd)
    as (_ & _ & E).
  rewrite E; [|exact R1|lra].
  apply isActive_true. split; [apply Qle_refl|exact R2].
Qed.

Lemma seek_spec_witness :
  currentTime (Playback.seek true 12 Sample.timeline) <= 10
  /\ Playback.isActive
       (currentTime (Playback.seek true 4 Sample.timeline))
       (Sample.seg "s2" 4 9 (Some "b2")) = true.
Proof.
  pose proof (seek_spec 12 Sample.timeline ltac:(reflexivity))
    as (_ & H & _ & _ & A & _).
  split; [exact H|].
  apply (A (Sample.seg "s2" 4 9 (Some "b2")) sample_timeline_partition).
  right. left. reflexivity.
Defined.

(** ** What the parser returns *)

Lemma same_key_sym (a b : Entry.t) : Lrc.same_key a b = Lrc.same_key b a.
Proof.
  unfold Lrc.same_key. rewrite String.eqb_sym. f_equal.
  destruct (Qeq_bool (Entry.time a) (Entry.time b)) eqn:E;
    destruct (Qeq_bool (Entry.time b) (Entry.time a)) eqn:E'; try reflexivity.
  - apply Qeq_bool_iff in E. symmetry in E. apply Qeq_bool_iff in E. congruence.
  - apply Qeq_bool_iff in E'. symmetry in E'. apply Qeq_bool_iff in E'.
    congruence.
Qed.

Lemma same_key_true (a b : Entry.t) :
  Lrc.same_key a b = true
  <-> Entry.time a == Entry.time b /\ Entry.text a = Entry.text b.
Proof.
  unfold Lrc.same_key. rewrite andb_true_iff, Qeq_bool_iff, String.eqb_eq.
  tauto.
Qed.

Lemma key_differs_replace (e x y : Entry.t) :
  Lrc.same_key e x = true -> key_differs x y -> key_differs e y.
Proof.
  unfold key_differs. intros H N.
  destruct (Lrc.same_key e y) eqn:E; [|reflexivity].
  apply same_key_true in H, E. destruct H as [H1 H2], E as [E1 E2].
  assert (K : Lrc.same_key x y = true).
  { apply same_key_true. split; [rewrite <- H1; exact E1|congruence]. }
  congruence.
Qed.

Lemma map_set_forall (P : Entry.t -> Prop) (e : Entry.t) (m : list Entry.t) :
  P e -> Forall P m -> Forall P (Lrc.map_set e m).
Proof.
  intros He Hm. apply Forall_forall. intros x Hx.
  destruct (map_set_in _ _ _ Hx) as [->|H]; [exact He|].
  rewrite Forall_forall in Hm. apply Hm. exact H.
Qed.

Lemma map_set_keys (e : Entry.t) (m : list Entry.t) :
  ForallOrdPairs key_differs m -> ForallOrdPairs key_differs (Lrc.map_set e m).
Proof.
  induction m as [|x r IH]; intro H; simpl.
  - repeat constructor.
  - inversion H as [|? ? F H']; subst.
    destruct (Lrc.same_key e x) eqn:K.
    + constructor; [|exact H'].
      eapply Forall_impl; [|exact F]. intros y. apply key_differs_replace. exact K.
    + constructor; [|apply IH; exact H'].
      apply map_set_forall; [|exact F].
      unfold key_differs. rewrite same_key_sym. exact K.
Qed.

Lemma unique_keys (l : list Entry.t) : ForallOrdPairs key_differs (Lrc.unique l).
Proof.
  unfold Lrc.unique.
  assert (G : forall m, ForallOrdPairs key_differs m ->
                        ForallOrdPairs key_differs
                          (fold_left (fun m e => Lrc.map_set e m) l m)).
  { induction l as [|e l IH]; intros m H; [exact H|].
    simpl. apply IH. apply map_set_keys. exact H. }
  apply G. constructor.
Qed.

Lemma insert_by_time_keys (e : Entry.t) (l : list Entry.t) :
  Forall (key_differs e) l -> ForallOrdPairs key_differs l ->
  ForallOrdPairs key_differs (Lrc.insert_by_time e l).
Proof.
  induction l as [|x r IH]; intros F H; simpl.
  - repeat constructor.
  - destruct (Qle_bool (Entry.time e) (Entry.time x)).
    + constructor; assumption.
    + inversion H as [|? ? Fx H']; subst. inversion F as [|? ? Fe F']; subst.
      constructor; [|apply IH; assumption].
      apply Forall_forall. intros y Hy. apply (proj1 (insert_by_time_in _ _ _)) in Hy.
      destruct Hy as [->|Hy].
      * unfold key_differs in *. rewrite same_key_sym. exact Fe.
      * rewrite Forall_forall in Fx. apply Fx. exact Hy.
Qed.

Lemma sort_by_time_keys (l : list Entry.t) :
  ForallOrdPairs key_differs l ->
  ForallOrdPairs key_differs (Lrc.sort_by_time l).
Proof.
  induction l as [|e l IH]; intro H; simpl; [constructor|].
  inversion H as [|? ? F H']; subst.
  apply insert_by_time_keys; [|apply IH; exact H'].
  apply Forall_forall. intros y Hy. apply (proj1 (sort_by_time_in _ _)) in Hy.
  rewrite Forall_forall in F. apply F. exact Hy.
Qed.

Lemma timeInSeconds_nonneg (t : Lrc.tag) : 0 <= Lrc.timeInSeconds t.
Proof.
  unfold Lrc.timeInSeconds, Num.add, Num.mul.
  assert (A : 0 <= Num.parseInt (Lrc.minutes_digits t)).
  { unfold Num.parseInt. apply double_nonneg. rewrite <- (Zle_Qle 0). lia. }
  assert (B : 0 <= Num.parseFloat (Lrc.seconds_int t) (Lrc.seconds_frac t)).
  { unfold Num.parseFloat. destruct (Lrc.seconds_frac t) as [fd|];
      apply double_nonneg.
    - assert (C : 0 <= inject_Z (Z.of_N (Str.digits_val (Lrc.seconds_int t))))
        by (rewrite <- (Zle_Qle 0); lia).
      assert (D : 0 <= Z.of_N (Str.digits_val fd)
                       # Pos.pow 10 (Pos.of_nat (String.length fd)))
        by (unfold Qle; simpl; lia).
      lra.
    - rewrite <- (Zle_Qle 0). lia. }
  apply double_nonneg.
  assert (C : 0 <= Num.double (Num.parseInt (Lrc.minutes_digits t) * 60))
    by (apply double_nonneg; lra).
  lra.
Qed.

Lemma push_tag_ok (line : string) (m : Lrc.tag) (acc : list Entry.t * Q) :
  Forall entry_ok (fst acc) -> max_attained acc ->
  Forall entry_ok (fst (Lrc.push_tag line acc m))
  /\ max_attained (Lrc.push_tag line acc m).
Proof.
  intros F A. unfold Lrc.push_tag.
  pose proof (timeInSeconds_nonneg m) as N.
  set (t := Lrc.timeInSeconds m) in *.
  set (text := Str.trim (Lrc.strip_tags line)).
  destruct ((0 <? String.length text)%nat || JS.Qlt_bool 0 t) eqn:C;
    [|split; assumption].
  simpl. split.
  - apply Forall_app. split; [exact F|]. constructor; [|constructor].
    repeat split; [|exact N|apply trim_idempotent]. simpl.
    apply orb_true_iff in C. destruct C as [C|C].
    + left. intro E. rewrite E in C. discriminate.
    + right. apply Qlt_bool_true. exact C.
  - right. unfold Num.max. destruct (Qle_bool (snd acc) t) eqn:E.
    + exists (Entry.mk t text). split; [|reflexivity].
      apply in_or_app. right. left. reflexivity.
    + destruct A as [[A1 A2]|(e & He & Ht)].
      * rewrite A2 in E. apply Qle_bool_iff in N. congruence.
      * exists e. split; [apply in_or_app; left; exact He|exact Ht].
Qed.

Lemma parse_lines_ok (lines : list string) (acc : list Entry.t * Q) :
  Forall entry_ok (fst acc) -> max_attained acc ->
  Forall entry_ok (fst (fold_left Lrc.parse_line lines acc))
  /\ max_attained (fold_left Lrc.parse_line lines acc).
Proof.
  revert acc. induction lines as [|l ls IH]; intros acc F A; [split; assumption|].
  simpl. apply IH; unfold Lrc.parse_line.
  - revert acc F A. induction (Lrc.matchAll l) as [|m ms IHm]; intros acc F A;
      [exact F|].
    simpl. destruct (push_tag_ok l m acc F A). apply IHm; assumption.
  - revert acc F A. induction (Lrc.matchAll l) as [|m ms IHm]; intros acc F A;
      [exact A|].
    simpl. destruct (push_tag_ok l m acc F A). apply IHm; assumption.
Qed.

(** X17.  What the parser hands to the import, for every text: the
    entries are in ascending order of time; no two of them have both
    the same time and the same text; every entry has a text or a time
    after 0, a time that is not negative and a text without white space
    at its ends; [maxTime] is 0 when there is no entry, and otherwise
    the time of the latest entry. *)
Theorem parseLRCFile_invariants (text : string) :
  let entries := fst (Lrc.parseLRCFile text) in
  let maxTime := snd (Lrc.parseLRCFile text) in
  StronglySorted time_le entries
  /\ ForallOrdPairs key_differs entries
  /\ Forall entry_ok entries
  /\ Forall (fun e => Entry.time e <= maxTime) entries
  /\ (entries = [] -> maxTime = 0)
  /\ (entries <> [] -> exists e, In e entries /\ Entry.time e == maxTime).
Proof.
  cbv zeta. split; [apply parseLRCFile_sorted|].
  assert (M : Forall (fun e => Entry.time e <= snd (Lrc.parseLRCFile text))
                (fst (Lrc.parseLRCFile text))).
  { apply Forall_forall. intros e He. apply parseLRCFile_maxTime. exact He. }
  revert M. unfold Lrc.parseLRCFile. set (lines := filter _ _).
  destruct (parse_lines_ok lines ([], 0)) as [F A];
    [constructor|left; split; reflexivity|].
  destruct (fold_left Lrc.parse_line lines ([], 0)) as [raw maxTime].
  unfold max_attained in A. simpl in *. intro M.
  split; [apply sort_by_time_keys, unique_keys|].
  split.
  { apply Forall_forall. intros e He.
    apply (proj1 (sort_by_time_in _ _)) in He. apply unique_in in He.
    rewrite Forall_forall in F. apply F. exact He. }
  split; [exact M|].
  assert (K : forall e, In e raw ->
                exists e', In e' (Lrc.sort_by_time (Lrc.unique raw))
                           /\ Entry.time e' == Entry.time e).
  { intros e He. destruct (unique_keeps_time raw e He) as (e' & He' & Ht).
    exists e'. split; [apply sort_by_time_in; exact He'|exact Ht]. }
  destruct A as [[A1 A2]|(e & He & Ht)].
  - split; [intros _; exact A2|]. intro Hne. exfalso. apply Hne.
    rewrite A1. reflexivity.
  - destruct (K e He) as (e' & He' & Ht'). split.
    + intro E. rewrite E in He'. destruct He'.
    + intros _. exists e'. split; [exact He'|]. rewrite Ht', Ht. reflexivity.
Qed.

(** ** What a successful import installs *)

Lemma number_blocks_shape (uuid : nat -> string) (l : list Entry.t) (k : nat) :
  map TextBlock.text (Lrc.number_blocks uuid k l) = map Entry.text l
  /\ map TextBlock.id (Lrc.number_blocks uuid k l)
     = map uuid (seq k (List.length l)).
Proof.
  revert k. induction l as [|e l IH]; intro k; [split; reflexivity|].
  simpl. destruct (IH (S k)) as [E1 E2]. rewrite E1, E2. split; reflexivity.
Qed.

Lemma build_segments_ids (uuid : nat -> string) (entries : list Entry.t)
  (blocks : list TextBlock.t) (times : list Q) (k : nat) :
  map VideoSegment.id (Lrc.build_segments uuid k entries blocks times)
  = map uuid (seq k (List.length times - 1))
  /\ map VideoSegment.startTime
       (Lrc.build_segments uuid k entries blocks times)
     = removelast times.
Proof.
  revert k. induction times as [|a [|b r] IH]; intro k;
    try (split; reflexivity).
  destruct (IH (S k)) as [E1 E2].
  change (Lrc.build_segments uuid k entries blocks (a :: b :: r))
    with (VideoSegment.mk (uuid k) a b (Lrc.segment_textId entries blocks a)
          :: Lrc.build_segments uuid (S k) entries blocks (b :: r)).
  cbn [map VideoSegment.id VideoSegment.startTime]. rewrite E1, E2.
  split; [|reflexivity].
  cbn [List.length]. rewrite !Nat.sub_succ, !Nat.sub_0_r. reflexivity.
Qed.

Lemma NoDup_map_injective (f : nat -> string) (l : list nat) :
  (forall j k, f j = f k -> j = k) -> NoDup l -> NoDup (map f l).
Proof.
  intros Hf H. induction H as [|x l Hx H IH]; simpl; constructor; [|exact IH].
  intro Hin. apply in_map_iff in Hin. destruct Hin as (y & E & Hy).
  apply Hf in E. subst y. exact (Hx Hy).
Qed.

(** X18.  What a successful import with a known duration installs: the
    library holds the texts of the entries that have one, in their
    order; there is one segment more than entries with a time strictly
    between 0 and the duration, the first one starting at 0; blocks and
    segments carry the fresh identifiers in the order of the calls, so
    that (identifiers never repeating) no two of them share one; the
    report counts the entries and the blocks; duration and playhead
    stay, [lrcDuration] is the latest time and the import dialog
    closes. *)
Theorem import_installs (uuid : nat -> string) (text : string)
  (st st' : AppState) (n m : nat) :
  (forall j k, uuid j = uuid k -> j = k) ->
  0 < duration st ->
  Lrc.handleLrcImport uuid text st = (st', Lrc.Imported n m) ->
  let entries := fst (Lrc.parseLRCFile text) in
  let inner :=
    filter (fun t => JS.Qlt_bool 0 t && JS.Qlt_bool t (duration st))
           (map Entry.time entries) in
  map TextBlock.text (textBlocks st')
  = filter (fun t => (0 <? String.length t)%nat) (map Entry.text entries)
  /\ map VideoSegment.startTime (segments st') = 0 :: inner
  /\ List.length (segments st') = S (List.length inner)
  /\ block_ids st' = map uuid (seq 0 m)
  /\ map VideoSegment.id (segments st')
     = map uuid (seq m (List.length (segments st')))
  /\ NoDup (block_ids st' ++ map VideoSegment.id (segments st'))
  /\ n = List.length entries /\ m = List.length (textBlocks st')
  /\ duration st' = duration st /\ currentTime st' = currentTime st
  /\ lrcDuration st' = snd (Lrc.parseLRCFile text)
  /\ importingLrc st' = false.
Proof.
  intros Hinj Hd Himp. cbv zeta.
  destruct (handleLrcImport_installed _ _ _ _ _ _ Hd Himp) as (Hs & Hb & Hdur).
  assert (R : n = List.length (fst (Lrc.parseLRCFile text))
              /\ m = List.length (textBlocks st')
              /\ currentTime st' = currentTime st
              /\ lrcDuration st' = snd (Lrc.parseLRCFile text)
              /\ importingLrc st' = false).
  { revert Himp. unfold Lrc.handleLrcImport.
    destruct (Lrc.parseLRCFile text) as [entries maxTime]. simpl.
    destruct (List.length entries =? 0)%nat; [discriminate|].
    rewrite (proj2 (Qlt_bool_true _ _) Hd). simpl.
    destruct (JS.Qlt_bool (duration st) maxTime); [discriminate|].
    intros [= <- <- <-]. repeat split. }
  destruct R as (Rn & Rm & Rc & Rl & Ri).
  set (entries := fst (Lrc.parseLRCFile text)) in *.
  set (inner := filter _ (map Entry.time entries)).
  assert (T : map TextBlock.text (textBlocks st')
              = filter (fun t => (0 <? String.length t)%nat)
                  (map Entry.text entries)).
  { rewrite Hb. unfold Lrc.newTextBlocks.
    rewrite (proj1 (number_blocks_shape uuid _ 0)).
    clear. induction entries as [|e l IH]; [reflexivity|].
    simpl. destruct (0 <? String.length (Entry.text e))%nat; simpl;
      rewrite IH; reflexivity. }
  assert (B : block_ids st' = map uuid (seq 0 m)).
  { unfold block_ids. rewrite Rm, Hb. unfold Lrc.newTextBlocks.
    rewrite (proj2 (number_blocks_shape uuid _ 0)).
    rewrite <- (length_map TextBlock.id), (proj2 (number_blocks_shape uuid _ 0)),
      length_map, length_seq. reflexivity. }
  assert (St : map VideoSegment.startTime (segments st') = 0 :: inner).
  { rewrite Hs. unfold Lrc.newSegments.
    rewrite (proj2 (build_segments_ids _ _ _ _ _)). unfold Lrc.allTimes.
    fold entries. fold inner.
    change (0 :: inner ++ [duration st]) with ((0 :: inner) ++ [duration st]).
    apply removelast_last. }
  assert (L : List.length (segments st') = S (List.length inner)).
  { rewrite <- (length_map VideoSegment.startTime), St. reflexivity. }
  assert (I : map VideoSegment.id (segments st')
              = map uuid (seq m (List.length (segments st')))).
  { rewrite L. rewrite Hs. unfold Lrc.newSegments.
    rewrite (proj1 (build_segments_ids _ _ _ _ _)). unfold Lrc.allTimes.
    fold entries. fold inner. rewrite <- Hb, <- Rm. f_equal. f_equal.
    simpl. rewrite length_app. simpl. lia. }
  repeat split; try assumption.
  rewrite B, I, <- map_app, <- seq_app.
  apply NoDup_map_injective; [exact Hinj|apply seq_NoDup].
Qed.

Lemma import_installs_witness :
  NoDup (block_ids (fst (Lrc.handleLrcImport Sample.uuid Sample.near_time
                           Sample.timeline))
         ++ map VideoSegment.id
              (segments (fst (Lrc.handleLrcImport Sample.uuid Sample.near_time
                                Sample.timeline)))).
Proof.
  pose proof (import_installs Sample.uuid Sample.near_time Sample.timeline
                (fst (Lrc.handleLrcImport Sample.uuid Sample.near_time
                        Sample.timeline))
                3 3 sample_uuid_injective ltac:(reflexivity)
                ltac:(vm_compute; reflexivity)) as H.
  cbv zeta in H. apply H.
Defined.
